(** * FreeRTOS memory labs: fixed-block pools and the allocation tracker

    A shallow embedding of the two memory-management labs

    - [07-memory-management/practice/lab2-memory-pools/.../memory_pools.c]
      (module [MemoryPools]) and
    - [07-memory-management/practice/lab1-heap-management/.../heap_management.c]
      (module [HeapManagement]),

    followed by the properties of their bookkeeping.

    Conventions.  The target is a 32-bit ESP32: [size_t], [uint32_t] and
    pointers are 32-bit words, [uint64_t] counters are 64-bit words; both are
    carried in [Z] with the wrap-around written out ([wrap32], [wrap64]).
    [NULL] is address [0].  Calls into the RTOS and the SDK (semaphores, the
    timer, the raw heap, GPIO, logging) are not part of the repository: their
    results are inputs of the embedded functions and the calls themselves
    are recorded, in program order, in a list of [event]s. *)

From Stdlib Require Import ZArith Lia.
From stdpp Require Import gmap list strings.

Local Open Scope Z_scope.

(** ** Machine words *)

Definition wrap32 (z : Z) : Z := z mod 2 ^ 32.
Definition wrap64 (z : Z) : Z := z mod 2 ^ 64.

(** ** Calls that leave the program *)

Inductive log_level := LOGE | LOGW | LOGI.

Inductive event :=
| heap_caps_malloc (size caps result : Z)
| heap_caps_calloc (n size caps result : Z)
| heap_caps_free (ptr : Z)
| gpio_set_level (pin level : Z)
| vTaskDelay (ms : Z)
| xSemaphoreCreateMutex (result : Z)
| esp_log (lvl : log_level) (fmt : string) (args : list Z).

(** The calls to the raw heap found in a trace, in order. *)
Definition raw_mallocs (ev : list event) : list (Z * Z * Z) :=
  omap (λ e, match e with
             | heap_caps_malloc s c r => Some (s, c, r)
             | _ => None
             end) ev.

Definition raw_frees (ev : list event) : list Z :=
  omap (λ e, match e with heap_caps_free p => Some p | _ => None end) ev.

(** Capability flags of [esp_heap_caps.h] and the GPIO numbers of
    [driver/gpio.h]; only their identity matters below. *)
Definition MALLOC_CAP_SPIRAM : Z := 1024.
Definition MALLOC_CAP_INTERNAL : Z := 2048.
Definition MALLOC_CAP_DEFAULT : Z := 4096.

(** ** Lab 2: memory pools *)

Module MemoryPools.

Definition LED_SMALL_POOL : Z := 2.
Definition LED_MEDIUM_POOL : Z := 4.
Definition LED_LARGE_POOL : Z := 5.
Definition LED_POOL_FULL : Z := 18.
Definition LED_POOL_ERROR : Z := 19.

Definition SMALL_POOL_BLOCK_SIZE : Z := 64.
Definition SMALL_POOL_BLOCK_COUNT : Z := 32.
Definition MEDIUM_POOL_BLOCK_SIZE : Z := 256.
Definition MEDIUM_POOL_BLOCK_COUNT : Z := 16.
Definition LARGE_POOL_BLOCK_SIZE : Z := 1024.
Definition LARGE_POOL_BLOCK_COUNT : Z := 8.
Definition HUGE_POOL_BLOCK_SIZE : Z := 4096.
Definition HUGE_POOL_BLOCK_COUNT : Z := 4.

Definition POOL_MAGIC_FREE : Z := 0xDEADBEEF.
Definition POOL_MAGIC_ALLOC : Z := 0xCAFEBABE.

(** [struct memory_block]: the header in front of every block.  [next] is an
    address, [0] for [NULL]. *)
Record memory_block_t := {
  next : Z;
  magic : Z;
  block_pool_id : Z;
  alloc_time : Z
}.

(** [sizeof(memory_block_t)] on the 32-bit target: a pointer, two 32-bit
    words, padding to the 8-byte alignment of the 64-bit time stamp, and the
    time stamp. *)
Definition sizeof_memory_block_t : Z := 24.

Record memory_pool_t := {
  name : string;
  block_size : Z;
  block_count : Z;
  alignment : Z;
  caps : Z;
  pool_memory : Z;
  free_list : Z;
  usage_bitmap : Z;
  allocated_blocks : Z;
  peak_usage : Z;
  total_allocations : Z;
  total_deallocations : Z;
  allocation_time_total : Z;
  deallocation_time_total : Z;
  allocation_failures : Z;
  mutex : Z;
  pool_id : Z
}.

Record pool_config_t := {
  cfg_name : string;
  cfg_block_size : Z;
  cfg_block_count : Z;
  cfg_caps : Z;
  led_pin : Z
}.

Definition pool_configs : list pool_config_t :=
  [ {| cfg_name := "Small";  cfg_block_size := SMALL_POOL_BLOCK_SIZE;
       cfg_block_count := SMALL_POOL_BLOCK_COUNT;
       cfg_caps := MALLOC_CAP_INTERNAL; led_pin := LED_SMALL_POOL |};
    {| cfg_name := "Medium"; cfg_block_size := MEDIUM_POOL_BLOCK_SIZE;
       cfg_block_count := MEDIUM_POOL_BLOCK_COUNT;
       cfg_caps := MALLOC_CAP_INTERNAL; led_pin := LED_MEDIUM_POOL |};
    {| cfg_name := "Large";  cfg_block_size := LARGE_POOL_BLOCK_SIZE;
       cfg_block_count := LARGE_POOL_BLOCK_COUNT;
       cfg_caps := MALLOC_CAP_DEFAULT; led_pin := LED_LARGE_POOL |};
    {| cfg_name := "Huge";   cfg_block_size := HUGE_POOL_BLOCK_SIZE;
       cfg_block_count := HUGE_POOL_BLOCK_COUNT;
       cfg_caps := MALLOC_CAP_SPIRAM; led_pin := LED_POOL_FULL |} ].

(** *** Memory

    The block headers live in the raw memory of the device.  The memory is a
    finite map from the address of a header to its contents; an address that
    holds no header written by the program reads as a zeroed header, whose
    [magic] is neither of the two sentinels.

    This is the memory as the pool itself uses it: every header it reads or
    writes sits at the start of a slot of its buffer.  A header recovered at
    any other address (from a pointer into the middle of a block, or outside
    the buffer) is made in C of whatever bytes lie there, which this map
    does not hold; the statements about sequences of calls are therefore
    about releases of [NULL] and of block pointers, see
    [frees_block_pointers]. *)

Definition zero_block : memory_block_t :=
  {| next := 0; magic := 0; block_pool_id := 0; alloc_time := 0 |}.

Definition load (mem : gmap Z memory_block_t) (a : Z) : memory_block_t :=
  default zero_block (mem !! a).

Definition store (mem : gmap Z memory_block_t) (a : Z) (b : memory_block_t)
  : gmap Z memory_block_t :=
  <[a := b]> mem.

(** *** [init_memory_pool]

    The loop that threads the blocks onto the free list: [i] is the loop
    counter, [n] the number of iterations left. *)
Fixpoint init_free_list (memory_ptr total_block_size id : Z) (i : Z) (n : nat)
    (head : Z) (mem : gmap Z memory_block_t) : Z * gmap Z memory_block_t :=
  match n with
  | O => (head, mem)
  | S n' =>
      let block := wrap32 (memory_ptr + wrap32 (i * total_block_size)) in
      let b := load mem block in
      let mem' := store mem block
                    {| next := head; magic := POOL_MAGIC_FREE;
                       block_pool_id := id; alloc_time := alloc_time b |} in
      init_free_list memory_ptr total_block_size id (i + 1) n' block mem'
  end.

Definition aligned_block_size_of (bs al : Z) : Z :=
  Z.land (wrap32 (bs + al - 1)) (wrap32 (Z.lnot (wrap32 (al - 1)))).

Definition total_block_size_of (bs : Z) : Z :=
  wrap32 (sizeof_memory_block_t + aligned_block_size_of bs 4).

(** [mem_base], [bitmap] and [mtx] are what [heap_caps_malloc],
    [heap_caps_calloc] and [xSemaphoreCreateMutex] return to this call.  The
    pool is returned also when the function fails, as the caller's struct has
    been written by then. *)
Definition init_memory_pool (mem_base bitmap mtx : Z) (config : pool_config_t)
    (id : Z) (mem : gmap Z memory_block_t)
  : bool * memory_pool_t * gmap Z memory_block_t * list event :=
  let pool :=
    {| name := cfg_name config; block_size := cfg_block_size config;
       block_count := cfg_block_count config; alignment := 4;
       caps := cfg_caps config; pool_memory := 0; free_list := 0;
       usage_bitmap := 0; allocated_blocks := 0; peak_usage := 0;
       total_allocations := 0; total_deallocations := 0;
       allocation_time_total := 0; deallocation_time_total := 0;
       allocation_failures := 0; mutex := 0; pool_id := id |} in
  let header_size := sizeof_memory_block_t in
  let aligned_block_size :=
    aligned_block_size_of (cfg_block_size config) (alignment pool) in
  let total_block_size := wrap32 (header_size + aligned_block_size) in
  let total_memory := wrap32 (total_block_size * cfg_block_count config) in
  let ev_malloc := heap_caps_malloc total_memory (cfg_caps config) mem_base in
  let pool :=
    {| name := name pool; block_size := block_size pool;
       block_count := block_count pool; alignment := alignment pool;
       caps := caps pool; pool_memory := mem_base; free_list := 0;
       usage_bitmap := 0; allocated_blocks := 0; peak_usage := 0;
       total_allocations := 0; total_deallocations := 0;
       allocation_time_total := 0; deallocation_time_total := 0;
       allocation_failures := 0; mutex := 0; pool_id := id |} in
  if mem_base =? 0 then
    (false, pool, mem,
     [ev_malloc; esp_log LOGE "Failed to allocate %s pool" []])
  else
    let bitmap_bytes := wrap32 (cfg_block_count config + 7) / 8 in
    let ev_calloc := heap_caps_calloc bitmap_bytes 1 MALLOC_CAP_INTERNAL bitmap in
    if bitmap =? 0 then
      (false, pool, mem, [ev_malloc; ev_calloc; heap_caps_free mem_base])
    else
      let '(head, mem') :=
        init_free_list mem_base total_block_size id 0
          (Z.to_nat (cfg_block_count config)) 0 mem in
      (true,
       {| name := name pool; block_size := block_size pool;
          block_count := block_count pool; alignment := alignment pool;
          caps := caps pool; pool_memory := mem_base; free_list := head;
          usage_bitmap := bitmap; allocated_blocks := 0; peak_usage := 0;
          total_allocations := 0; total_deallocations := 0;
          allocation_time_total := 0; deallocation_time_total := 0;
          allocation_failures := 0; mutex := mtx; pool_id := id |},
       mem',
       [ev_malloc; ev_calloc; xSemaphoreCreateMutex mtx;
        esp_log LOGI "%s pool: %d blocks x %d bytes"
          [cfg_block_count config; cfg_block_size config]]).

(** *** [pool_malloc] and [pool_free]

    [took] is whether [xSemaphoreTake] on the pool's mutex returned [pdTRUE]
    within its 100 ms, [now] is what [esp_timer_get_time] returns. *)
Definition pool_malloc (took : bool) (now : Z) (pool : memory_pool_t)
    (mem : gmap Z memory_block_t)
  : Z * memory_pool_t * gmap Z memory_block_t * list event :=
  if mutex pool =? 0 then (0, pool, mem, [])
  else if took then
    if negb (free_list pool =? 0) then
      let block := free_list pool in
      let b := load mem block in
      let mem' := store mem block
                    {| next := next b; magic := POOL_MAGIC_ALLOC;
                       block_pool_id := block_pool_id b;
                       alloc_time := wrap64 now |} in
      (wrap32 (block + sizeof_memory_block_t),
       {| name := name pool; block_size := block_size pool;
          block_count := block_count pool; alignment := alignment pool;
          caps := caps pool; pool_memory := pool_memory pool;
          free_list := next b;
          usage_bitmap := usage_bitmap pool;
          allocated_blocks := wrap32 (allocated_blocks pool + 1);
          peak_usage := peak_usage pool;
          total_allocations := wrap64 (total_allocations pool + 1);
          total_deallocations := total_deallocations pool;
          allocation_time_total := allocation_time_total pool;
          deallocation_time_total := deallocation_time_total pool;
          allocation_failures := allocation_failures pool;
          mutex := mutex pool; pool_id := pool_id pool |},
       mem', [])
    else
      (0,
       {| name := name pool; block_size := block_size pool;
          block_count := block_count pool; alignment := alignment pool;
          caps := caps pool; pool_memory := pool_memory pool;
          free_list := free_list pool;
          usage_bitmap := usage_bitmap pool;
          allocated_blocks := allocated_blocks pool;
          peak_usage := peak_usage pool;
          total_allocations := total_allocations pool;
          total_deallocations := total_deallocations pool;
          allocation_time_total := allocation_time_total pool;
          deallocation_time_total := deallocation_time_total pool;
          allocation_failures := wrap32 (allocation_failures pool + 1);
          mutex := mutex pool; pool_id := pool_id pool |},
       mem, [gpio_set_level LED_POOL_FULL 1])
  else (0, pool, mem, []).

Definition pool_free (took : bool) (pool : memory_pool_t)
    (mem : gmap Z memory_block_t) (ptr : Z)
  : bool * memory_pool_t * gmap Z memory_block_t * list event :=
  if (ptr =? 0) || (mutex pool =? 0) then (false, pool, mem, [])
  else
    let block := wrap32 (ptr - sizeof_memory_block_t) in
    if took then
      let b := load mem block in
      if (magic b =? POOL_MAGIC_ALLOC) && (block_pool_id b =? pool_id pool) then
        let mem' := store mem block
                      {| next := free_list pool; magic := POOL_MAGIC_FREE;
                         block_pool_id := block_pool_id b;
                         alloc_time := alloc_time b |} in
        (true,
         {| name := name pool; block_size := block_size pool;
            block_count := block_count pool; alignment := alignment pool;
            caps := caps pool; pool_memory := pool_memory pool;
            free_list := block;
            usage_bitmap := usage_bitmap pool;
            allocated_blocks := wrap32 (allocated_blocks pool - 1);
            peak_usage := peak_usage pool;
            total_allocations := total_allocations pool;
            total_deallocations := wrap64 (total_deallocations pool + 1);
            allocation_time_total := allocation_time_total pool;
            deallocation_time_total := deallocation_time_total pool;
            allocation_failures := allocation_failures pool;
            mutex := mutex pool; pool_id := pool_id pool |},
         mem', [])
      else (true, pool, mem, [gpio_set_level LED_POOL_ERROR 1])
    else (true, pool, mem, []).

(** *** The dispatcher

    [pools] is the global array of the program, here a list, [POOL_COUNT]
    being its length; [take i] is the outcome of [xSemaphoreTake] on the mutex
    of [pools[i]] during the call, [raw] what the raw heap returns. *)

Definition led_pin_of (i : nat) : Z := default 0 (led_pin <$> pool_configs !! i).

(** The [for] loop of [smart_pool_malloc] from index [i] on: [Some ptr] when
    the loop returns [ptr], [None] when it runs to its end. *)
Fixpoint smart_pool_malloc_loop (take : nat -> bool) (now required : Z)
    (i : nat) (pools : list memory_pool_t) (mem : gmap Z memory_block_t)
  : option Z * list memory_pool_t * gmap Z memory_block_t * list event :=
  match pools with
  | [] => (None, [], mem, [])
  | p :: rest =>
      if required <=? block_size p then
        let '(ptr, p', mem', ev) := pool_malloc (take i) now p mem in
        if negb (ptr =? 0) then
          (Some ptr, p' :: rest, mem',
           ev ++ [gpio_set_level (led_pin_of i) 1; vTaskDelay 30;
                  gpio_set_level (led_pin_of i) 0])
        else
          let '(r, rest', mem'', ev') :=
            smart_pool_malloc_loop take now required (S i) rest mem' in
          (r, p' :: rest', mem'', ev ++ ev')
      else
        let '(r, rest', mem', ev') :=
          smart_pool_malloc_loop take now required (S i) rest mem in
        (r, p :: rest', mem', ev')
  end.

Definition smart_pool_malloc (take : nat -> bool) (now raw : Z)
    (pools : list memory_pool_t) (mem : gmap Z memory_block_t) (size : Z)
  : Z * list memory_pool_t * gmap Z memory_block_t * list event :=
  let required := wrap32 (size + 16) in
  let '(r, pools', mem', ev) :=
    smart_pool_malloc_loop take now required 0 pools mem in
  match r with
  | Some ptr => (ptr, pools', mem', ev)
  | None =>
      (raw, pools', mem', ev ++ [heap_caps_malloc size MALLOC_CAP_DEFAULT raw])
  end.

(** The [for] loop of [smart_pool_free]: [true] when it returns from inside
    the loop. *)
Fixpoint smart_pool_free_loop (take : nat -> bool) (i : nat)
    (pools : list memory_pool_t) (mem : gmap Z memory_block_t) (ptr : Z)
  : bool * list memory_pool_t * gmap Z memory_block_t * list event :=
  match pools with
  | [] => (false, [], mem, [])
  | p :: rest =>
      let '(ok, p', mem', ev) := pool_free (take i) p mem ptr in
      if ok then (true, p' :: rest, mem', ev)
      else
        let '(r, rest', mem'', ev') :=
          smart_pool_free_loop take (S i) rest mem' ptr in
        (r, p' :: rest', mem'', ev ++ ev')
  end.

Definition smart_pool_free (take : nat -> bool) (pools : list memory_pool_t)
    (mem : gmap Z memory_block_t) (ptr : Z)
  : bool * list memory_pool_t * gmap Z memory_block_t * list event :=
  let '(r, pools', mem', ev) := smart_pool_free_loop take 0 pools mem ptr in
  if r then (true, pools', mem', ev)
  else (true, pools', mem', ev ++ [heap_caps_free ptr]).

(** The initialisation loop of [app_main] from index [i] on: pool [i] gets
    the identifier [i + 1]; [env i] is what the heap and the RTOS answer to
    the [i]-th [init_memory_pool].  [false] when [app_main] gives up. *)
Fixpoint init_pools (env : nat -> Z * Z * Z) (i : nat)
    (configs : list pool_config_t) (mem : gmap Z memory_block_t)
  : bool * list memory_pool_t * gmap Z memory_block_t :=
  match configs with
  | [] => (true, [], mem)
  | config :: rest =>
      let '(mem_base, bitmap, mtx) := env i in
      let '(ok, pool, mem', _) :=
        init_memory_pool mem_base bitmap mtx config (Z.of_nat i + 1) mem in
      if ok then
        let '(ok', pools, mem'') := init_pools env (S i) rest mem' in
        (ok', pool :: pools, mem'')
      else (false, [pool], mem')
  end.

(** *** Vocabulary of the statements *)

(** The dispatcher as the specification words it: the first size class whose
    blocks are large enough is the only one tried, and a failure there goes
    straight to the raw heap. *)
Fixpoint first_fit (required : Z) (i : nat) (pools : list memory_pool_t)
  : option (nat * memory_pool_t) :=
  match pools with
  | [] => None
  | p :: rest =>
      if required <=? block_size p then Some (i, p)
      else first_fit required (S i) rest
  end.

Definition dispatch_allocate_spec (take : nat -> bool) (now raw : Z)
    (pools : list memory_pool_t) (mem : gmap Z memory_block_t) (size : Z) : Z :=
  match first_fit (size + 16) 0 pools with
  | Some (i, p) =>
      let ptr := (pool_malloc (take i) now p mem).1.1.1 in
      if ptr =? 0 then raw else ptr
  | None => raw
  end.

(** The check [pool_free] makes on the recovered header. *)
Definition valid_header (id : Z) (b : memory_block_t) : bool :=
  (magic b =? POOL_MAGIC_ALLOC) && (block_pool_id b =? id).

(** [chain mem head l]: following [next] from [head] visits exactly the
    addresses of [l], in order, and then reaches [NULL]. *)
Fixpoint chain (mem : gmap Z memory_block_t) (head : Z) (l : list Z) : Prop :=
  match l with
  | [] => head = 0
  | a :: l' => head = a ∧ a ≠ 0 ∧ chain mem (next (load mem a)) l'
  end.

(** The addresses of the blocks [i], [i+1], ... of a buffer at [base]. *)
Definition block_addr (base tbs j : Z) : Z := base + j * tbs.

Definition block_addrs (base tbs i : Z) (n : nat) : list Z :=
  block_addr base tbs <$> seqZ i (Z.of_nat n).

(** What the raw heap owes [init_memory_pool]: a non-null buffer that lies
    inside the 32-bit address space, for blocks that have room for their
    header. *)
Definition backing_ok (config : pool_config_t) (mem_base : Z) : Prop :=
  0 < mem_base ∧ 0 ≤ cfg_block_count config ∧
  sizeof_memory_block_t ≤ total_block_size_of (cfg_block_size config) ∧
  mem_base + total_block_size_of (cfg_block_size config) * cfg_block_count config
    < 2 ^ 32.

(** One call on a pool, with what the environment answers to it. *)
Inductive pool_op :=
| op_malloc (took : bool) (now : Z)
| op_free (took : bool) (ptr : Z).

Definition pool_step (s : memory_pool_t * gmap Z memory_block_t) (op : pool_op)
  : memory_pool_t * gmap Z memory_block_t :=
  match op with
  | op_malloc took now =>
      let '(_, pool', mem', _) := pool_malloc took now s.1 s.2 in (pool', mem')
  | op_free took ptr =>
      let '(_, pool', mem', _) := pool_free took s.1 s.2 ptr in (pool', mem')
  end.

Definition run_ops (ops : list pool_op)
    (s : memory_pool_t * gmap Z memory_block_t)
  : memory_pool_t * gmap Z memory_block_t :=
  fold_left pool_step ops s.

(** The releases of a sequence are given [NULL] or a pointer to a block of
    the pool: the payload address of one of its slots, as [pool_malloc]
    returns them, whether the block is allocated at the time or not (a
    second release of the same block is such a call).  For these pointers
    [pool_free] reads the header of a slot. *)
Definition frees_block_pointers (config : pool_config_t) (mem_base : Z)
    (ops : list pool_op) : Prop :=
  Forall (λ op, match op with
                | op_malloc _ _ => True
                | op_free _ ptr =>
                    ptr = 0 ∨
                    ptr - sizeof_memory_block_t ∈
                      block_addrs mem_base
                        (total_block_size_of (cfg_block_size config)) 0
                        (Z.to_nat (cfg_block_count config))
                end) ops.

(** [pool_malloc] called once per element of [envs], with no other call in
    between; the pointers it returned, in call order. *)
Fixpoint pool_malloc_n (envs : list (bool * Z)) (pool : memory_pool_t)
    (mem : gmap Z memory_block_t)
  : list Z * memory_pool_t * gmap Z memory_block_t :=
  match envs with
  | [] => ([], pool, mem)
  | (took, now) :: rest =>
      let '(p, pool', mem', _) := pool_malloc took now pool mem in
      let '(ps, pool'', mem'') := pool_malloc_n rest pool' mem' in
      (p :: ps, pool'', mem'')
  end.

Definition pool_malloc_result (took : bool) (now : Z) (pool : memory_pool_t)
    (mem : gmap Z memory_block_t) : Z :=
  (pool_malloc took now pool mem).1.1.1.

Definition with_allocation_failures (pool : memory_pool_t) (n : Z)
  : memory_pool_t :=
  {| name := name pool; block_size := block_size pool;
     block_count := block_count pool; alignment := alignment pool;
     caps := caps pool; pool_memory := pool_memory pool;
     free_list := free_list pool; usage_bitmap := usage_bitmap pool;
     allocated_blocks := allocated_blocks pool; peak_usage := peak_usage pool;
     total_allocations := total_allocations pool;
     total_deallocations := total_deallocations pool;
     allocation_time_total := allocation_time_total pool;
     deallocation_time_total := deallocation_time_total pool;
     allocation_failures := n; mutex := mutex pool; pool_id := pool_id pool |}.

(** The state of a pool whose headers nobody else has written: [blocks] are
    the addresses of its blocks, [fl] those on the free list, [A] and [D] the
    numbers of allocations and releases so far. *)
Record pool_inv (blocks fl : list Z) (A D : Z) (pool : memory_pool_t)
    (mem : gmap Z memory_block_t) : Prop := {
  inv_chain : chain mem (free_list pool) fl;
  inv_nodup : NoDup fl;
  inv_free : ∀ a, a ∈ fl → a ∈ blocks ∧ magic (load mem a) ≠ POOL_MAGIC_ALLOC;
  inv_live : ∀ a, valid_header (pool_id pool) (load mem a) = true →
                  a ∈ blocks ∧ a ∉ fl;
  inv_owner : ∀ a, a ∈ blocks → block_pool_id (load mem a) = pool_id pool;
  inv_range : ∀ a, a ∈ blocks → 0 < a ∧ a + sizeof_memory_block_t < 2 ^ 32;
  inv_blocks : NoDup blocks;
  inv_count : Z.of_nat (length blocks) = block_count pool;
  inv_count32 : block_count pool < 2 ^ 32;
  inv_allocated :
    allocated_blocks pool = Z.of_nat (length blocks) - Z.of_nat (length fl);
  inv_total_a : total_allocations pool = wrap64 A;
  inv_total_d : total_deallocations pool = wrap64 D;
  inv_ghost : 0 ≤ D ∧ D ≤ A ∧ A - D = allocated_blocks pool
}.

(** A board at start-up, for the worked examples: what the heap and the RTOS
    answer to the [i]-th [init_memory_pool]. *)
Definition boot_env (i : nat) : Z * Z * Z :=
  (0x3FFB0000 + Z.of_nat i * 0x8000, 0x3FFA0000 + Z.of_nat i * 16,
   0x3FF90000 + Z.of_nat i).

Definition always_taken (i : nat) : bool := true.

Definition small_config : pool_config_t :=
  {| cfg_name := "Small"; cfg_block_size := SMALL_POOL_BLOCK_SIZE;
     cfg_block_count := SMALL_POOL_BLOCK_COUNT;
     cfg_caps := MALLOC_CAP_INTERNAL; led_pin := LED_SMALL_POOL |}.

Definition huge_config : pool_config_t :=
  {| cfg_name := "Huge"; cfg_block_size := HUGE_POOL_BLOCK_SIZE;
     cfg_block_count := HUGE_POOL_BLOCK_COUNT;
     cfg_caps := MALLOC_CAP_SPIRAM; led_pin := LED_POOL_FULL |}.

(** The small pool alone, freshly initialised, and after one allocation. *)
Definition small_pool_init
  : bool * memory_pool_t * gmap Z memory_block_t * list event :=
  init_memory_pool 0x3FFB0000 0x3FFA0000 0x3FF90000 small_config 1 ∅.

Definition small_pool_one_allocated
  : Z * memory_pool_t * gmap Z memory_block_t * list event :=
  pool_malloc true 1000 small_pool_init.1.1.2 small_pool_init.1.2.

Definition huge_pool_init
  : bool * memory_pool_t * gmap Z memory_block_t * list event :=
  init_memory_pool 0x3FFC8000 0x3FFA0030 0x3FF90003 huge_config 4 ∅.

(** The pools of the program after [app_main], and a registry with the three
    size classes 64, 256 and 1024 only. *)
Definition booted : list memory_pool_t * gmap Z memory_block_t :=
  let '(_, pools, mem) := init_pools boot_env 0 pool_configs ∅ in (pools, mem).

Definition booted3 : list memory_pool_t * gmap Z memory_block_t :=
  let '(_, pools, mem) := init_pools boot_env 0 (take 3 pool_configs) ∅ in
  (pools, mem).

(** [booted3] after sixteen allocations from its 256-byte pool. *)
Definition booted3_medium_full : list memory_pool_t * gmap Z memory_block_t :=
  match booted3 with
  | ([small; medium; large], mem) =>
      let '(_, medium', mem') :=
        pool_malloc_n (replicate 16 (true, 0)) medium mem in
      ([small; medium'; large], mem')
  | s => s
  end.

(** *** [pool_stress_task]

    One turn of the endless loop of the task, on its locals [ptrs] (an array
    of 50 pointers) and [count].  [r1] and [r2] are what the first and the
    second call of [esp_random] return in this turn (the second call is made
    only in the two branches that use it); the other inputs are those of the
    dispatcher. *)
Definition STRESS_SLOTS : Z := 50.

Definition pool_stress_turn (r1 r2 : Z) (take : nat -> bool) (now raw : Z)
    (ptrs : list Z) (count : Z)
    (pools : list memory_pool_t) (mem : gmap Z memory_block_t)
  : list Z * Z * list memory_pool_t * gmap Z memory_block_t * list event :=
  let action := wrap32 r1 mod 3 in
  if (action =? 0) && (count <? STRESS_SLOTS) then
    let sz := wrap32 (32 + wrap32 r2 mod 2000) in
    let '(p, pools', mem', ev) := smart_pool_malloc take now raw pools mem sz in
    (<[Z.to_nat count := p]> ptrs, count + 1, pools', mem',
     ev ++ [vTaskDelay 500])
  else if (action =? 1) && (0 <? count) then
    let idx := wrap32 r2 mod count in
    let p := default 0 (ptrs !! Z.to_nat idx) in
    if negb (p =? 0) then
      let '(_, pools', mem', ev) := smart_pool_free take pools mem p in
      (<[Z.to_nat idx := 0]> ptrs, count, pools', mem', ev ++ [vTaskDelay 500])
    else (ptrs, count, pools, mem, [vTaskDelay 500])
  else (ptrs, count, pools, mem, [vTaskDelay 500]).

(** The inputs of one turn, and a run of turns from the state the task starts
    in. *)
Record stress_input := {
  si_r1 : Z; si_r2 : Z; si_take : nat -> bool; si_now : Z; si_raw : Z
}.

Definition stress_step
    (st : list Z * Z * list memory_pool_t * gmap Z memory_block_t * list event)
    (i : stress_input)
  : list Z * Z * list memory_pool_t * gmap Z memory_block_t * list event :=
  let '(ptrs, count, pools, mem, trace) := st in
  let '(ptrs', count', pools', mem', ev) :=
    pool_stress_turn (si_r1 i) (si_r2 i) (si_take i) (si_now i) (si_raw i)
      ptrs count pools mem in
  (ptrs', count', pools', mem', trace ++ ev).

Definition stress_run (inputs : list stress_input)
    (pools : list memory_pool_t) (mem : gmap Z memory_block_t)
  : list Z * Z * list memory_pool_t * gmap Z memory_block_t * list event :=
  fold_left stress_step inputs
    (replicate (Z.to_nat STRESS_SLOTS) 0, 0, pools, mem, []).

End MemoryPools.

(** ** Lab 1: the allocation tracker *)

Module HeapManagement.

Definition LED_MEMORY_ERROR : Z := 5.
Definition MAX_ALLOCATIONS : nat := 100.

Record memory_allocation_t := {
  ptr : Z;
  size : Z;
  caps : Z;
  description : string;
  timestamp : Z;
  is_active : bool
}.

Record memory_stats_t := {
  total_allocations : Z;
  total_deallocations : Z;
  current_allocations : Z;
  total_bytes_allocated : Z;
  total_bytes_deallocated : Z;
  peak_usage : Z;
  allocation_failures : Z;
  fragmentation_events : Z;
  low_memory_events : Z
}.

(** The file-scope variables of the lab. *)
Record globals := {
  allocations : list memory_allocation_t;
  stats : memory_stats_t;
  memory_mutex : Z;
  memory_monitoring_enabled : bool
}.

(** The cast [(int)x] of a [size_t]. *)
Definition to_int (x : Z) : Z :=
  if wrap32 x <? 2 ^ 31 then wrap32 x else wrap32 x - 2 ^ 32.

(** The two search loops, over the slots from index [i] on; [-1] when the
    loop runs to its end. *)
Fixpoint find_free_from (i : Z) (l : list memory_allocation_t) : Z :=
  match l with
  | [] => -1
  | e :: l' => if negb (is_active e) then i else find_free_from (i + 1) l'
  end.

Definition find_free_allocation_slot (allocations : list memory_allocation_t) : Z :=
  find_free_from 0 (take MAX_ALLOCATIONS allocations).

Fixpoint find_by_ptr_from (p : Z) (i : Z) (l : list memory_allocation_t) : Z :=
  match l with
  | [] => -1
  | e :: l' =>
      if is_active e && (ptr e =? p) then i else find_by_ptr_from p (i + 1) l'
  end.

Definition find_allocation_by_ptr (allocations : list memory_allocation_t)
    (p : Z) : Z :=
  find_by_ptr_from p 0 (take MAX_ALLOCATIONS allocations).

(** [raw] is what [heap_caps_malloc] returns, [took] whether the mutex was
    obtained within 100 ms, [now] what [esp_timer_get_time] returns. *)
Definition tracked_malloc (raw : Z) (took : bool) (now : Z) (g : globals)
    (sz cp : Z) (desc : string) : Z * globals * list event :=
  let ev_malloc := heap_caps_malloc sz cp raw in
  if memory_monitoring_enabled g && negb (memory_mutex g =? 0) then
    if took then
      if negb (raw =? 0) then
        let slot := find_free_allocation_slot (allocations g) in
        if 0 <=? slot then
          let entry := {| ptr := raw; size := sz; caps := cp;
                          description := desc; timestamp := wrap64 now;
                          is_active := true |} in
          let st := stats g in
          let bytes := wrap64 (total_bytes_allocated st + sz) in
          let current_usage := wrap32 (wrap64 (bytes - total_bytes_deallocated st)) in
          (raw,
           {| allocations := <[Z.to_nat slot := entry]> (allocations g);
              stats :=
                {| total_allocations := wrap32 (total_allocations st + 1);
                   total_deallocations := total_deallocations st;
                   current_allocations := wrap32 (current_allocations st + 1);
                   total_bytes_allocated := bytes;
                   total_bytes_deallocated := total_bytes_deallocated st;
                   peak_usage := if peak_usage st <? current_usage
                                 then current_usage else peak_usage st;
                   allocation_failures := allocation_failures st;
                   fragmentation_events := fragmentation_events st;
                   low_memory_events := low_memory_events st |};
              memory_mutex := memory_mutex g;
              memory_monitoring_enabled := memory_monitoring_enabled g |},
           [ev_malloc;
            esp_log LOGI "Alloc %dB @%p (%s) slot=%d" [to_int sz; raw; slot]])
        else
          (raw, g, [ev_malloc; esp_log LOGW "Tracking slots full" []])
      else
        let st := stats g in
        (raw,
         {| allocations := allocations g;
            stats :=
              {| total_allocations := total_allocations st;
                 total_deallocations := total_deallocations st;
                 current_allocations := current_allocations st;
                 total_bytes_allocated := total_bytes_allocated st;
                 total_bytes_deallocated := total_bytes_deallocated st;
                 peak_usage := peak_usage st;
                 allocation_failures := wrap32 (allocation_failures st + 1);
                 fragmentation_events := fragmentation_events st;
                 low_memory_events := low_memory_events st |};
            memory_mutex := memory_mutex g;
            memory_monitoring_enabled := memory_monitoring_enabled g |},
         [ev_malloc; esp_log LOGE "Alloc FAIL %dB (%s)" [to_int sz]])
    else (raw, g, [ev_malloc])
  else (raw, g, [ev_malloc]).

Definition deactivate (e : memory_allocation_t) : memory_allocation_t :=
  {| ptr := ptr e; size := size e; caps := caps e;
     description := description e; timestamp := timestamp e;
     is_active := false |}.

Definition zero_allocation : memory_allocation_t :=
  {| ptr := 0; size := 0; caps := 0; description := "";
     timestamp := 0; is_active := false |}.

Definition tracked_free (took : bool) (g : globals) (p : Z) (desc : string)
  : globals * list event :=
  if p =? 0 then (g, [])
  else if memory_monitoring_enabled g && negb (memory_mutex g =? 0) then
    if took then
      let slot := find_allocation_by_ptr (allocations g) p in
      if 0 <=? slot then
        let e := default zero_allocation (allocations g !! Z.to_nat slot) in
        let st := stats g in
        ({| allocations := <[Z.to_nat slot := deactivate e]> (allocations g);
            stats :=
              {| total_allocations := total_allocations st;
                 total_deallocations := wrap32 (total_deallocations st + 1);
                 current_allocations := wrap32 (current_allocations st - 1);
                 total_bytes_allocated := total_bytes_allocated st;
                 total_bytes_deallocated :=
                   wrap64 (total_bytes_deallocated st + size e);
                 peak_usage := peak_usage st;
                 allocation_failures := allocation_failures st;
                 fragmentation_events := fragmentation_events st;
                 low_memory_events := low_memory_events st |};
            memory_mutex := memory_mutex g;
            memory_monitoring_enabled := memory_monitoring_enabled g |},
         [esp_log LOGI "Free %dB @%p (%s) slot=%d" [to_int (size e); p; slot];
          heap_caps_free p])
      else
        (g, [esp_log LOGW "Untracked free @%p (%s)" [p]; heap_caps_free p])
    else (g, [heap_caps_free p])
  else (g, [heap_caps_free p]).

(** [age_ms] of the scan loop: the 64-bit difference of two readings of the
    microsecond timer, in whole milliseconds. *)
Definition age_ms (now ts : Z) : Z := wrap64 (now - ts) / 1000.

Definition LEAK_FMT : string := "LEAK? slot=%d %dB @%p age=%llums desc=%s".

(** The scan loop of [detect_memory_leaks] over the slots from index [i] on,
    with the running [leaks] and [leaked_bytes]. *)
Fixpoint leak_scan_loop (now : Z) (i : Z) (l : list memory_allocation_t)
    (leaks leaked_bytes : Z) : list event * Z * Z :=
  match l with
  | [] => ([], leaks, leaked_bytes)
  | e :: l' =>
      if is_active e then
        let age_ms := age_ms now (timestamp e) in
        if 30000 <? age_ms then
          let '(ev, n, b) :=
            leak_scan_loop now (i + 1) l' (leaks + 1)
              (wrap32 (leaked_bytes + size e)) in
          (esp_log LOGW LEAK_FMT [i; to_int (size e); ptr e; age_ms] :: ev,
           n, b)
        else leak_scan_loop now (i + 1) l' leaks leaked_bytes
      else leak_scan_loop now (i + 1) l' leaks leaked_bytes
  end.

Definition detect_memory_leaks (took : bool) (now : Z) (g : globals)
  : globals * list event :=
  if memory_mutex g =? 0 then (g, [])
  else if negb took then (g, [])
  else
    let '(ev, leaks, leaked_bytes) :=
      leak_scan_loop (wrap64 now) 0 (take MAX_ALLOCATIONS (allocations g)) 0 0 in
    (g,
     esp_log LOGI "LEAK SCAN (age>30s)" [] :: ev ++
     (if 0 <? leaks then
        [esp_log LOGW "Found %d potential leaks (%d bytes)"
           [leaks; to_int leaked_bytes];
         gpio_set_level LED_MEMORY_ERROR 1]
      else [esp_log LOGI "No potential leaks" []])).

(** *** Vocabulary of the statements *)

(** The slots a trace reports as potential leaks, in order. *)
Definition leak_reports (ev : list event) : list Z :=
  omap (λ e, match e with
             | esp_log LOGW fmt (slot :: _) =>
                 if String.eqb fmt LEAK_FMT then Some slot else None
             | _ => None
             end) ev.

(** No two active entries of the table record the same pointer. *)
Definition active_ptrs_distinct (allocations : list memory_allocation_t) : Prop :=
  ∀ i j e1 e2,
    allocations !! i = Some e1 → allocations !! j = Some e2 →
    is_active e1 = true → is_active e2 = true → ptr e1 = ptr e2 → i = j.

(** The leak scan as the specification words it: the slots of the active
    entries whose age [now - timestamp] exceeds the threshold, all three in
    the unit of the timer. *)
Fixpoint scan_leaks_spec_from (threshold now : Z) (i : Z)
    (l : list memory_allocation_t) : list Z :=
  match l with
  | [] => []
  | e :: l' =>
      if is_active e && (threshold <? now - timestamp e)
      then i :: scan_leaks_spec_from threshold now (i + 1) l'
      else scan_leaks_spec_from threshold now (i + 1) l'
  end.

Definition scan_leaks_spec (threshold now : Z)
    (allocations : list memory_allocation_t) : list Z :=
  scan_leaks_spec_from threshold now 0 allocations.

(** The thirty seconds of the scan, in microseconds. *)
Definition LEAK_AGE_US : Z := 30000 * 1000.

(** The globals after [app_main], for the worked examples, and a table all
    of whose slots are taken. *)
Definition zero_stats : memory_stats_t :=
  {| total_allocations := 0; total_deallocations := 0;
     current_allocations := 0; total_bytes_allocated := 0;
     total_bytes_deallocated := 0; peak_usage := 0; allocation_failures := 0;
     fragmentation_events := 0; low_memory_events := 0 |}.

Definition boot_globals : globals :=
  {| allocations := replicate MAX_ALLOCATIONS zero_allocation;
     stats := zero_stats; memory_mutex := 0x3FF90000;
     memory_monitoring_enabled := true |}.

Definition full_globals : globals :=
  {| allocations :=
       (λ i, {| ptr := 0x3FFB0000 + 64 * Z.of_nat i; size := 64;
                caps := MALLOC_CAP_INTERNAL; description := "Pool";
                timestamp := 1000; is_active := true |})
       <$> seq 0 MAX_ALLOCATIONS;
     stats := zero_stats; memory_mutex := 0x3FF90000;
     memory_monitoring_enabled := true |}.

(** The globals at the point of [app_main] where the mutex has been created
    and the table cleared with [memset] ([app_main] returns before that
    when the mutex is [NULL]).  The call of [analyze_memory_status] that
    [app_main] makes next, and every later call of the tasks, is an
    operation of the sequences below. *)
Definition app_main_globals (mtx : Z) : globals :=
  {| allocations := replicate MAX_ALLOCATIONS zero_allocation;
     stats := zero_stats; memory_mutex := mtx;
     memory_monitoring_enabled := true |}.

Definition LOW_MEMORY_THRESHOLD : Z := 50000.
Definition CRITICAL_MEMORY_THRESHOLD : Z := 20000.

(** What [analyze_memory_status] does to the file-scope variables.
    [internal_free] is what [heap_caps_get_free_size] returns for the
    internal heap, [fragmented] the outcome of the comparison of the
    floating-point [internal_frag] with [FRAGMENTATION_THRESHOLD]; the LEDs
    and the log lines of the function are not part of this. *)
Definition analyze_memory_status_stats (internal_free : Z) (fragmented : bool)
    (g : globals) : globals :=
  let st := stats g in
  {| allocations := allocations g;
     stats :=
       {| total_allocations := total_allocations st;
          total_deallocations := total_deallocations st;
          current_allocations := current_allocations st;
          total_bytes_allocated := total_bytes_allocated st;
          total_bytes_deallocated := total_bytes_deallocated st;
          peak_usage := peak_usage st;
          allocation_failures := allocation_failures st;
          fragmentation_events :=
            if fragmented then wrap32 (fragmentation_events st + 1)
            else fragmentation_events st;
          low_memory_events :=
            if internal_free <? CRITICAL_MEMORY_THRESHOLD
            then wrap32 (low_memory_events st + 1)
            else if internal_free <? LOW_MEMORY_THRESHOLD
            then wrap32 (low_memory_events st + 1)
            else low_memory_events st |};
     memory_mutex := memory_mutex g;
     memory_monitoring_enabled := memory_monitoring_enabled g |}.

(** One call on the tracker, with what the environment answers to it, and a
    sequence of such calls: the four functions of the lab that write the
    statistics or the table, in any order. *)
Inductive tracker_op :=
| op_tracked_malloc (raw : Z) (took : bool) (now sz cp : Z) (desc : string)
| op_tracked_free (took : bool) (p : Z) (desc : string)
| op_detect_memory_leaks (took : bool) (now : Z)
| op_analyze_memory_status (internal_free : Z) (fragmented : bool).

Definition tracker_step (g : globals) (op : tracker_op) : globals :=
  match op with
  | op_tracked_malloc raw took now sz cp desc =>
      (tracked_malloc raw took now g sz cp desc).1.2
  | op_tracked_free took p desc => (tracked_free took g p desc).1
  | op_detect_memory_leaks took now => (detect_memory_leaks took now g).1
  | op_analyze_memory_status internal_free fragmented =>
      analyze_memory_status_stats internal_free fragmented g
  end.

Definition tracker_run (ops : list tracker_op) (g : globals) : globals :=
  fold_left tracker_step ops g.

(** The sum of [f] over the active entries of a table: their number, and
    the bytes they record. *)
Definition sum_active (f : memory_allocation_t -> Z)
    (l : list memory_allocation_t) : Z :=
  foldr (λ e n, (if is_active e then f e else 0) + n) 0 l.

Definition active_count (l : list memory_allocation_t) : Z :=
  sum_active (λ _, 1) l.

Definition active_bytes (l : list memory_allocation_t) : Z :=
  sum_active size l.

(** The bytes the [tracked_malloc] calls of a sequence ask for. *)
Definition requested_bytes (ops : list tracker_op) : Z :=
  foldr (λ op n, match op with
                 | op_tracked_malloc _ _ _ sz _ _ => sz + n
                 | _ => n
                 end) 0 ops.

(** Every size of the sequence is a [size_t]. *)
Definition sizes_in_range (ops : list tracker_op) : Prop :=
  Forall (λ op, match op with
                | op_tracked_malloc _ _ _ sz _ _ => 0 ≤ sz < 2 ^ 32
                | _ => True
                end) ops.

(** The entries the leak scan counts at time [now], and the bytes they
    record. *)
Definition aged (now : Z) (e : memory_allocation_t) : bool :=
  is_active e && (30000 <? age_ms now (timestamp e)).

Definition aged_entries (now : Z) (g : globals) : list memory_allocation_t :=
  filter (λ e, aged (wrap64 now) e = true)
         (take MAX_ALLOCATIONS (allocations g)).

Definition sum_sizes (l : list memory_allocation_t) : Z :=
  foldr (λ e n, size e + n) 0 l.

End HeapManagement.

(** * Properties *)

(** Closed statements about worked examples are settled by evaluation. *)
Ltac by_evaluation :=
  vm_compute;
  repeat match goal with |- _ ∧ _ => split end;
  first [reflexivity | discriminate].

(** The side condition [frees_block_pointers] on a given sequence of
    calls. *)
Ltac block_pointers :=
  repeat (constructor;
          [first [exact I
                 | left; reflexivity
                 | right;
                   match goal with
                   | |- ?P => apply (bool_decide_unpack P)
                   end; vm_compute; exact I]|]);
  constructor.

(** ** Machine words *)

Lemma wrap32_small z : 0 ≤ z < 2 ^ 32 → wrap32 z = z.
Proof. intros. unfold wrap32. by apply Z.mod_small. Qed.

Lemma wrap64_small z : 0 ≤ z < 2 ^ 64 → wrap64 z = z.
Proof. intros. unfold wrap64. by apply Z.mod_small. Qed.

Module PoolTheory.
Import MemoryPools.

(** ** Memory and free-list chains *)

Lemma load_store_eq mem a b : load (store mem a b) a = b.
Proof. unfold load, store. by rewrite lookup_insert_eq. Qed.

Lemma load_store_ne mem a a' b : a ≠ a' → load (store mem a b) a' = load mem a'.
Proof. intros. unfold load, store. by rewrite lookup_insert_ne. Qed.

Lemma chain_store mem head l a b :
  a ∉ l → chain mem head l → chain (store mem a b) head l.
Proof.
  revert head. induction l as [|x l IH]; simpl; intros head Hnin Hc; [done|].
  destruct Hc as (-> & Hx & Hc). apply not_elem_of_cons in Hnin as [Hne Hnin].
  repeat split; [done|]. rewrite load_store_ne by done. by apply IH.
Qed.

Lemma chain_null mem l : chain mem 0 l → l = [].
Proof. destruct l; simpl; [done|]. intros (<- & ? & _). done. Qed.

Lemma chain_nonnull mem head l :
  head ≠ 0 → chain mem head l →
  ∃ l', l = head :: l' ∧ chain mem (next (load mem head)) l'.
Proof.
  destruct l; simpl; [done|]. intros _ (-> & _ & Hc). eauto.
Qed.

(** ** Initialisation *)

Lemma block_addrs_S base tbs i n :
  block_addrs base tbs i (S n) =
  block_addr base tbs i :: block_addrs base tbs (i + 1) n.
Proof.
  unfold block_addrs. rewrite seqZ_cons by lia. simpl.
  do 3 f_equal; lia.
Qed.

Lemma elem_of_block_addrs base tbs i n a :
  a ∈ block_addrs base tbs i n ↔
  ∃ j, a = block_addr base tbs j ∧ i ≤ j < i + Z.of_nat n.
Proof.
  unfold block_addrs. rewrite list_elem_of_fmap.
  split; intros (j & -> & Hj); exists j; split; try done;
    by apply elem_of_seqZ.
Qed.

Lemma block_addr_mono base tbs i j :
  0 < tbs → i < j → block_addr base tbs i < block_addr base tbs j.
Proof. unfold block_addr. nia. Qed.

Lemma block_addrs_NoDup base tbs i n :
  0 < tbs → NoDup (block_addrs base tbs i n).
Proof.
  intros Htbs. revert i. induction n as [|n IH]; intros i.
  - constructor.
  - rewrite block_addrs_S. constructor; [|apply IH].
    rewrite elem_of_block_addrs. intros (j & Heq & Hj).
    assert (block_addr base tbs i < block_addr base tbs j)
      by (apply block_addr_mono; lia).
    lia.
Qed.

Lemma init_free_list_spec base tbs id n : ∀ i head mem fl,
  0 < base → 0 < tbs → 0 ≤ i →
  base + (i + Z.of_nat n) * tbs < 2 ^ 32 →
  chain mem head fl →
  (∀ a, a ∈ fl → a < block_addr base tbs i) →
  ∃ head' mem',
    init_free_list base tbs id i n head mem = (head', mem') ∧
    chain mem' head' (reverse (block_addrs base tbs i n) ++ fl) ∧
    (∀ a, a ∈ block_addrs base tbs i n →
          magic (load mem' a) = POOL_MAGIC_FREE ∧
          block_pool_id (load mem' a) = id) ∧
    (∀ a, a ∉ block_addrs base tbs i n → load mem' a = load mem a).
Proof.
  induction n as [|n IH]; intros i head mem fl Hbase Htbs Hi Hfit Hc Hlow.
  - exists head, mem. simpl. split; [done|]. split; [done|]. split; [|done].
    intros a Ha. by apply elem_of_nil in Ha.
  - simpl init_free_list.
    assert (Hblock : wrap32 (base + wrap32 (i * tbs)) = block_addr base tbs i).
    { unfold block_addr. rewrite (wrap32_small (i * tbs)) by nia.
      apply wrap32_small. nia. }
    rewrite Hblock. set (block := block_addr base tbs i).
    set (mem1 := store mem block _).
    destruct (IH (i + 1) block mem1 (block :: fl)) as
      (head' & mem' & Heq & Hc' & Hnew & Hold); try done; try lia.
    + simpl. repeat split.
      * unfold block, block_addr. nia.
      * unfold mem1. rewrite load_store_eq. simpl.
        apply chain_store; [|done].
        intros Hin. apply Hlow in Hin. lia.
    + intros a [->|Ha]%elem_of_cons.
      * apply block_addr_mono; lia.
      * apply Hlow in Ha.
        assert (block_addr base tbs i < block_addr base tbs (i + 1))
          by (apply block_addr_mono; lia). lia.
    + exists head', mem'. split; [done|].
      assert (Hnotin : block ∉ block_addrs base tbs (i + 1) n).
      { rewrite elem_of_block_addrs. intros (j & Hj & Hr).
        assert (block_addr base tbs i < block_addr base tbs j)
          by (apply block_addr_mono; lia).
        unfold block in Hj. lia. }
      rewrite block_addrs_S. fold block. repeat split.
      * rewrite reverse_cons, <- app_assoc. done.
      * apply elem_of_cons in H as [->|Ha]; [|by apply Hnew].
        rewrite Hold by done. unfold mem1. by rewrite load_store_eq.
      * apply elem_of_cons in H as [->|Ha]; [|by apply Hnew].
        rewrite Hold by done. unfold mem1. by rewrite load_store_eq.
      * intros a [Hne Ha]%not_elem_of_cons. rewrite Hold by done.
        unfold mem1. by rewrite load_store_ne.
Qed.

Lemma init_memory_pool_true config id base bitmap mtx mem0 pool0 mem1 ev :
  init_memory_pool base bitmap mtx config id mem0 = (true, pool0, mem1, ev) →
  ∃ head,
    init_free_list base (total_block_size_of (cfg_block_size config)) id 0
      (Z.to_nat (cfg_block_count config)) 0 mem0 = (head, mem1) ∧
    free_list pool0 = head ∧ mutex pool0 = mtx ∧ pool_id pool0 = id ∧
    block_count pool0 = cfg_block_count config ∧
    block_size pool0 = cfg_block_size config ∧
    pool_memory pool0 = base ∧
    allocated_blocks pool0 = 0 ∧ peak_usage pool0 = 0 ∧
    total_allocations pool0 = 0 ∧ total_deallocations pool0 = 0 ∧
    allocation_failures pool0 = 0.
Proof.
  unfold init_memory_pool.
  destruct (base =? 0); [discriminate|].
  destruct (bitmap =? 0); [discriminate|].
  cbn [alignment].
  change (wrap32 (sizeof_memory_block_t +
                  aligned_block_size_of (cfg_block_size config) 4))
    with (total_block_size_of (cfg_block_size config)).
  destruct (init_free_list _ _ _ _ _ _ _) as [head mem'].
  intros [= <- <- <-]. exists head. simpl. repeat split; done.
Qed.

Lemma backing_ok_blocks config base a :
  backing_ok config base →
  a ∈ block_addrs base (total_block_size_of (cfg_block_size config)) 0
        (Z.to_nat (cfg_block_count config)) →
  0 < a ∧ a + sizeof_memory_block_t < 2 ^ 32.
Proof.
  intros (Hb & Hc & Hh & Hfit) (j & -> & Hj)%elem_of_block_addrs.
  unfold block_addr. unfold sizeof_memory_block_t in *. nia.
Qed.

Lemma init_memory_pool_blocks config id base bitmap mtx mem0 pool0 mem1 ev :
  backing_ok config base →
  init_memory_pool base bitmap mtx config id mem0 = (true, pool0, mem1, ev) →
  let blocks :=
    block_addrs base (total_block_size_of (cfg_block_size config)) 0
      (Z.to_nat (cfg_block_count config)) in
  chain mem1 (free_list pool0) (reverse blocks) ∧
  NoDup blocks ∧
  (∀ a, a ∈ blocks → magic (load mem1 a) = POOL_MAGIC_FREE ∧
                     block_pool_id (load mem1 a) = id) ∧
  (∀ a, a ∉ blocks → load mem1 a = load mem0 a).
Proof.
  intros Hok Hinit.
  destruct (init_memory_pool_true _ _ _ _ _ _ _ _ _ Hinit)
    as (head & Hloop & Hfl & _).
  pose proof Hok as (Hb & Hc & Hh & Hfit).
  set (tbs := total_block_size_of (cfg_block_size config)) in *.
  set (n := Z.to_nat (cfg_block_count config)) in *.
  assert (Htbs : 0 < tbs) by (unfold sizeof_memory_block_t in Hh; lia).
  destruct (init_free_list_spec base tbs id n 0 0 mem0 [])
    as (head' & mem' & Heq & Hchain & Hnew & Hold); try done; try lia;
    [by intros a Ha%elem_of_nil|].
  rewrite Hloop in Heq. injection Heq as <- <-.
  rewrite app_nil_r in Hchain. simpl. rewrite Hfl.
  repeat split; try done; try (by apply Hnew).
  by apply block_addrs_NoDup.
Qed.

Lemma init_memory_pool_inv config id base bitmap mtx mem0 pool0 mem1 ev :
  backing_ok config base →
  (∀ a, valid_header id (load mem0 a) = false) →
  init_memory_pool base bitmap mtx config id mem0 = (true, pool0, mem1, ev) →
  ∃ blocks, pool_inv blocks (reverse blocks) 0 0 pool0 mem1.
Proof.
  intros Hok Hclean Hinit.
  destruct (init_memory_pool_true _ _ _ _ _ _ _ _ _ Hinit)
    as (head & Hloop & Hfl & Hmtx & Hid & Hcnt & _ & _ & Hab & _ & Hta & Htd & _).
  destruct (init_memory_pool_blocks _ _ _ _ _ _ _ _ _ Hok Hinit)
    as (Hchain & Hndb & Hnew & Hold).
  pose proof Hok as (Hb & Hc & Hh & Hfit).
  set (tbs := total_block_size_of (cfg_block_size config)) in *.
  set (n := Z.to_nat (cfg_block_count config)) in *.
  assert (Htbs : 0 < tbs) by (unfold sizeof_memory_block_t in Hh; lia).
  exists (block_addrs base tbs 0 n).
  constructor.
  - done.
  - by rewrite reverse_Permutation.
  - intros a Ha. rewrite elem_of_reverse in Ha. split; [done|].
    destruct (Hnew a Ha) as [-> _]. done.
  - intros a Hv. exfalso. rewrite Hid in Hv.
    destruct (decide (a ∈ block_addrs base tbs 0 n)) as [Ha|Ha].
    + destruct (Hnew a Ha) as [Hm _]. unfold valid_header in Hv.
      rewrite Hm in Hv. done.
    + rewrite (Hold a Ha), Hclean in Hv. done.
  - intros a Ha. rewrite Hid. by destruct (Hnew a Ha).
  - intros a Ha. by eapply backing_ok_blocks.
  - apply block_addrs_NoDup, Htbs.
  - rewrite Hcnt. unfold block_addrs. rewrite length_fmap, length_seqZ.
    unfold n. lia.
  - rewrite Hcnt. unfold sizeof_memory_block_t in Hh. nia.
  - rewrite Hab, length_reverse. lia.
  - by rewrite Hta.
  - by rewrite Htd.
  - rewrite Hab. lia.
Qed.

(** ** The invariant is kept by every call *)

Lemma pool_inv_free_le blocks fl A D pool mem :
  pool_inv blocks fl A D pool mem → (length fl ≤ length blocks)%nat.
Proof.
  intros Hinv. apply submseteq_length, NoDup_submseteq.
  - apply Hinv.
  - intros a Ha. by apply (inv_free _ _ _ _ _ _ Hinv).
Qed.

Lemma wrap64_succ A : wrap64 (wrap64 A + 1) = wrap64 (A + 1).
Proof. unfold wrap64. by rewrite Zplus_mod_idemp_l. Qed.

Lemma pool_malloc_inv blocks fl A D pool mem took now :
  pool_inv blocks fl A D pool mem →
  ∃ fl' A',
    pool_inv blocks fl' A' D (pool_step (pool, mem) (op_malloc took now)).1
      (pool_step (pool, mem) (op_malloc took now)).2 ∧
    A ≤ A' ≤ A + 1.
Proof.
  intros Hinv. pose proof (pool_inv_free_le _ _ _ _ _ _ Hinv) as Hle.
  unfold pool_step, pool_malloc. simpl fst. simpl snd.
  destruct (mutex pool =? 0); [exists fl, A; split; [done|lia]|].
  destruct took; [|exists fl, A; split; [done|lia]].
  destruct (free_list pool =? 0) eqn:Hnull; simpl negb; cbv iota.
  - exists fl, A. split; [|lia]. destruct Hinv. by constructor.
  - apply Z.eqb_neq in Hnull.
    destruct (chain_nonnull _ _ _ Hnull (inv_chain _ _ _ _ _ _ Hinv))
      as (fl' & -> & Hc).
    pose proof (inv_nodup _ _ _ _ _ _ Hinv) as [Hnin Hnd]%NoDup_cons.
    destruct (inv_free _ _ _ _ _ _ Hinv (free_list pool)) as [Hin _];
      [by left|].
    simpl length in Hle.
    exists fl', (A + 1). split; [|lia].
    destruct Hinv as [_ _ Hfree Hlive Hown Hrange Hbl Hcnt Hc32 Hab Hta Htd Hg].
    simpl length in Hab.
    assert (Hab' : wrap32 (allocated_blocks pool + 1) = allocated_blocks pool + 1)
      by (apply wrap32_small; lia).
    constructor; simpl; try done.
    + by apply chain_store.
    + intros a Ha. destruct (Hfree a) as [? ?]; [by right|]. split; [done|].
      rewrite load_store_ne; [done|]. intros <-. done.
    + intros a Hv. destruct (decide (a = free_list pool)) as [->|Hne].
      * done.
      * rewrite load_store_ne in Hv by done. destruct (Hlive a Hv) as [? Hn].
        split; [done|]. intros ?. apply Hn. by right.
    + intros a Ha. destruct (decide (a = free_list pool)) as [->|Hne].
      * rewrite load_store_eq. simpl. by apply Hown.
      * rewrite load_store_ne by done. by apply Hown.
    + rewrite Hab'. lia.
    + rewrite Hta. apply wrap64_succ.
    + rewrite Hab'. lia.
Qed.

Lemma pool_free_inv blocks fl A D pool mem took p :
  pool_inv blocks fl A D pool mem →
  ∃ fl' D',
    pool_inv blocks fl' A D' (pool_step (pool, mem) (op_free took p)).1
      (pool_step (pool, mem) (op_free took p)).2 ∧
    D ≤ D' ≤ D + 1.
Proof.
  intros Hinv. unfold pool_step, pool_free. simpl fst. simpl snd.
  destruct ((p =? 0) || (mutex pool =? 0)); [exists fl, D; split; [done|lia]|].
  destruct took; [|exists fl, D; split; [done|lia]].
  set (block := wrap32 (p - sizeof_memory_block_t)).
  fold (valid_header (pool_id pool) (load mem block)).
  destruct (valid_header _ _) eqn:Hv; [|exists fl, D; split; [done|lia]].
  destruct (inv_live _ _ _ _ _ _ Hinv block Hv) as [Hin Hnin].
  assert (Hnd : NoDup (block :: fl))
    by (apply NoDup_cons; split; [done|apply Hinv]).
  assert (Hle : (length (block :: fl) ≤ length blocks)%nat).
  { apply submseteq_length, NoDup_submseteq; [done|].
    intros a [->|Ha]%elem_of_cons; [done|].
    by apply (inv_free _ _ _ _ _ _ Hinv). }
  simpl length in Hle.
  exists (block :: fl), (D + 1). split; [|lia].
  destruct Hinv as [Hc _ Hfree Hlive Hown Hrange Hbl Hcnt Hc32 Hab Hta Htd Hg].
  assert (Hab' : wrap32 (allocated_blocks pool - 1) = allocated_blocks pool - 1)
    by (apply wrap32_small; lia).
  constructor; simpl; try done.
  - repeat split.
    + destruct (Hrange block Hin). lia.
    + rewrite load_store_eq. simpl. by apply chain_store.
  - intros a [->|Ha]%elem_of_cons.
    + split; [done|]. rewrite load_store_eq. simpl. done.
    + destruct (Hfree a Ha). split; [done|].
      rewrite load_store_ne; [done|]. intros <-. done.
  - intros a Hva. destruct (decide (a = block)) as [->|Hne].
    + rewrite load_store_eq in Hva. done.
    + rewrite load_store_ne in Hva by done. destruct (Hlive a Hva) as [? Hn].
      split; [done|]. intros [?|?]%elem_of_cons; done.
  - intros a Ha. destruct (decide (a = block)) as [->|Hne].
    + rewrite load_store_eq. simpl. by apply Hown.
    + rewrite load_store_ne by done. by apply Hown.
  - rewrite Hab'. lia.
  - rewrite Htd. apply wrap64_succ.
  - rewrite Hab'. lia.
Qed.

Lemma run_ops_inv ops : ∀ blocks fl A D pool mem,
  pool_inv blocks fl A D pool mem →
  ∃ fl' A' D',
    pool_inv blocks fl' A' D' (run_ops ops (pool, mem)).1
      (run_ops ops (pool, mem)).2 ∧
    A' + D' ≤ A + D + Z.of_nat (length ops).
Proof.
  induction ops as [|op ops IH]; intros blocks fl A D pool mem Hinv.
  - exists fl, A, D. simpl. split; [done|lia].
  - unfold run_ops. simpl fold_left. fold (run_ops ops).
    destruct op as [took now|took p].
    + destruct (pool_malloc_inv _ _ _ _ _ _ took now Hinv)
        as (fl1 & A1 & Hinv1 & HA).
      destruct (pool_step (pool, mem) (op_malloc took now)) as [pool1 mem1].
      destruct (IH _ _ _ _ _ _ Hinv1) as (fl' & A' & D' & Hinv' & Hle).
      exists fl', A', D'. split; [done|]. simpl length. lia.
    + destruct (pool_free_inv _ _ _ _ _ _ took p Hinv)
        as (fl1 & D1 & Hinv1 & HD).
      destruct (pool_step (pool, mem) (op_free took p)) as [pool1 mem1].
      destruct (IH _ _ _ _ _ _ Hinv1) as (fl' & A' & D' & Hinv' & Hle).
      exists fl', A', D'. split; [done|]. simpl length. lia.
Qed.

Lemma pool_inv_counters blocks fl A D pool mem :
  pool_inv blocks fl A D pool mem →
  0 ≤ allocated_blocks pool ≤ block_count pool ∧
  allocated_blocks pool =
    wrap64 (total_allocations pool - total_deallocations pool).
Proof.
  intros Hinv. pose proof (pool_inv_free_le _ _ _ _ _ _ Hinv) as Hle.
  destruct Hinv as [_ _ _ _ _ _ _ Hcnt Hc32 Hab Hta Htd Hg].
  split; [lia|].
  rewrite Hta, Htd. unfold wrap64. rewrite <- Zminus_mod.
  transitivity (A - D); [lia|]. symmetry. apply Z.mod_small. lia.
Qed.

(** C4: on a freshly initialised pool whose headers nobody else writes,
    after every sequence of [pool_malloc] calls and of [pool_free] calls on
    [NULL] or on block pointers of the pool (in any order, a block released
    twice or never allocated included, whatever the outcomes of taking the
    mutex and the clock) [allocated_blocks] lies between [0] and
    [block_count] and equals
    [total_allocations - total_deallocations], both as the 64-bit difference
    the program computes and, as long as fewer than [2^64] calls were made,
    as a difference of integers. *)
Theorem pool_counters_invariant config id base bitmap mtx mem0 pool0 mem1 ev
    ops :
  backing_ok config base →
  (∀ a, valid_header id (load mem0 a) = false) →
  init_memory_pool base bitmap mtx config id mem0 = (true, pool0, mem1, ev) →
  frees_block_pointers config base ops →
  let pool := (run_ops ops (pool0, mem1)).1 in
  0 ≤ allocated_blocks pool ≤ block_count pool ∧
  block_count pool = cfg_block_count config ∧
  allocated_blocks pool =
    wrap64 (total_allocations pool - total_deallocations pool) ∧
  (Z.of_nat (length ops) < 2 ^ 64 →
   allocated_blocks pool = total_allocations pool - total_deallocations pool).
Proof.
  intros Hok Hclean Hinit _ pool.
  destruct (init_memory_pool_inv _ _ _ _ _ _ _ _ _ Hok Hclean Hinit)
    as (blocks & Hinv0).
  destruct (run_ops_inv ops _ _ _ _ _ _ Hinv0)
    as (fl & A & D & Hinv & Hsum).
  fold pool in Hinv.
  destruct (pool_inv_counters _ _ _ _ _ _ Hinv) as [Hrange Heq].
  repeat split; try lia; try done.
  - rewrite <- (inv_count _ _ _ _ _ _ Hinv), (inv_count _ _ _ _ _ _ Hinv0).
    by destruct (init_memory_pool_true _ _ _ _ _ _ _ _ _ Hinit)
      as (? & _ & _ & _ & _ & ? & _).
  - intros Hlen. destruct Hinv as [_ _ _ _ _ _ _ _ _ _ Hta Htd Hg].
    rewrite Hta, Htd, !wrap64_small by lia. lia.
Qed.

(** ** Exhaustion *)

Lemma pool_malloc_n_pops envs : ∀ pool mem fl ptrs pool' mem',
  chain mem (free_list pool) fl → NoDup fl →
  pool_malloc_n envs pool mem = (ptrs, pool', mem') →
  Forall (λ p, p ≠ 0) ptrs →
  ∃ used fl',
    fl = used ++ fl' ∧ length used = length envs ∧
    chain mem' (free_list pool') fl' ∧
    allocation_failures pool' = allocation_failures pool ∧
    mutex pool' = mutex pool.
Proof.
  induction envs as [|[took now] envs IH];
    intros pool mem fl ptrs pool' mem' Hc Hnd Hrun Hall.
  - injection Hrun as <- <- <-. by exists [], fl.
  - simpl in Hrun.
    destruct (pool_malloc took now pool mem) as [[[p pool1] mem1] ev1] eqn:Hm.
    destruct (pool_malloc_n envs pool1 mem1) as [[ps pool2] mem2] eqn:Hn.
    injection Hrun as <- <- <-.
    apply Forall_cons in Hall as [Hp Hall].
    unfold pool_malloc in Hm.
    destruct (mutex pool =? 0); [by injection Hm as <-|].
    destruct took; [|by injection Hm as <-].
    destruct (free_list pool =? 0) eqn:Hnull; simpl negb in Hm; cbv iota in Hm;
      [by injection Hm as <-|].
    apply Z.eqb_neq in Hnull.
    destruct (chain_nonnull _ _ _ Hnull Hc) as (fl1 & -> & Hc1).
    apply NoDup_cons in Hnd as [Hnin Hnd1].
    injection Hm as _ <- <- _.
    opose proof (IH _ _ fl1 _ _ _ _ Hnd1 Hn Hall)
      as (used & fl' & -> & Hlen & Hc' & Hfail & Hmtx).
    { simpl. by apply chain_store. }
    exists (free_list pool :: used), fl'. simpl in *.
    repeat split; try done. by rewrite Hlen.
Qed.

(** C5: on a pool initialised with [block_count = K], once [K] calls of
    [pool_malloc] in a row have each returned a block, the next call (its
    mutex obtained) returns [NULL] at once, takes [allocation_failures] from
    [0] to [1] and changes nothing else of the pool or of the memory. *)
Theorem pool_exhausted_after_block_count config id base bitmap mtx mem0 pool0
    mem1 ev envs ptrs pool mem now :
  backing_ok config base → mtx ≠ 0 →
  init_memory_pool base bitmap mtx config id mem0 = (true, pool0, mem1, ev) →
  Z.of_nat (length envs) = cfg_block_count config →
  pool_malloc_n envs pool0 mem1 = (ptrs, pool, mem) →
  Forall (λ p, p ≠ 0) ptrs →
  allocation_failures pool = 0 ∧
  pool_malloc true now pool mem =
    (0, with_allocation_failures pool 1, mem,
     [gpio_set_level LED_POOL_FULL 1]).
Proof.
  intros Hok Hmtx Hinit Hlen Hrun Hall.
  destruct (init_memory_pool_true _ _ _ _ _ _ _ _ _ Hinit)
    as (_ & _ & _ & Hm0 & _ & _ & _ & _ & _ & _ & _ & _ & Hf0).
  destruct (init_memory_pool_blocks _ _ _ _ _ _ _ _ _ Hok Hinit)
    as (Hchain & Hndb & _ & _).
  destruct (pool_malloc_n_pops _ _ _ _ _ _ _ Hchain
              ltac:(by rewrite reverse_Permutation) Hrun Hall)
    as (used & fl' & Hfl & Hused & Hc' & Hfail & Hmutex).
  assert (Hnil : fl' = []).
  { apply (f_equal length) in Hfl.
    rewrite length_reverse, length_app in Hfl.
    unfold block_addrs in Hfl. rewrite length_fmap, length_seqZ in Hfl.
    apply length_zero_iff_nil. lia. }
  subst fl'. simpl in Hc'.
  rewrite Hf0 in Hfail. split; [done|].
  assert (Hmp : (mutex pool =? 0) = false) by (apply Z.eqb_neq; congruence).
  unfold pool_malloc, with_allocation_failures.
  rewrite Hmp, Hc', Hfail. reflexivity.
Qed.

(** ** Validation failures and LIFO reuse *)

Lemma pool_free_invalid pool mem p :
  p ≠ 0 → mutex pool ≠ 0 →
  valid_header (pool_id pool)
    (load mem (wrap32 (p - sizeof_memory_block_t))) = false →
  pool_free true pool mem p =
    (true, pool, mem, [gpio_set_level LED_POOL_ERROR 1]).
Proof.
  intros Hp Hm Hv. unfold pool_free.
  apply Z.eqb_neq in Hp, Hm. rewrite Hp, Hm. simpl orb. cbv iota.
  fold (valid_header (pool_id pool)
          (load mem (wrap32 (p - sizeof_memory_block_t)))).
  by rewrite Hv.
Qed.

Lemma pool_free_valid pool mem p :
  p ≠ 0 → mutex pool ≠ 0 →
  valid_header (pool_id pool)
    (load mem (wrap32 (p - sizeof_memory_block_t))) = true →
  ∃ pool1 mem1,
    pool_free true pool mem p = (true, pool1, mem1, []) ∧
    free_list pool1 = wrap32 (p - sizeof_memory_block_t) ∧
    mutex pool1 = mutex pool ∧ pool_id pool1 = pool_id pool ∧
    next (load mem1 (wrap32 (p - sizeof_memory_block_t))) = free_list pool ∧
    magic (load mem1 (wrap32 (p - sizeof_memory_block_t))) = POOL_MAGIC_FREE.
Proof.
  intros Hp Hm Hv. unfold pool_free.
  apply Z.eqb_neq in Hp, Hm. rewrite Hp, Hm. simpl orb. cbv iota.
  fold (valid_header (pool_id pool)
          (load mem (wrap32 (p - sizeof_memory_block_t)))).
  rewrite Hv. eexists _, _. split; [reflexivity|]. simpl.
  rewrite load_store_eq. done.
Qed.





(** C2: what the program does on a second release of the same pointer.
    The first [pool_free] of an allocated block of the pool returns [true]
    and puts the block back; the second finds the header invalid and leaves
    the pool and the memory exactly as they were, and yet returns [true] as
    well: the caller cannot tell the rejected release from the accepted
    one. *)
Theorem pool_free_second_release_returns_true pool mem p :
  mutex pool ≠ 0 → 0 < p < 2 ^ 32 →
  valid_header (pool_id pool)
    (load mem (wrap32 (p - sizeof_memory_block_t))) = true →
  ∃ pool1 mem1,
    pool_free true pool mem p = (true, pool1, mem1, []) ∧
    valid_header (pool_id pool1)
      (load mem1 (wrap32 (p - sizeof_memory_block_t))) = false ∧
    pool_free true pool1 mem1 p =
      (true, pool1, mem1, [gpio_set_level LED_POOL_ERROR 1]).
Proof.
  intros Hm Hp Hv.
  destruct (pool_free_valid pool mem p) as
    (pool1 & mem1 & Hfree & _ & Hm1 & Hid & _ & Hmagic); [lia|done|done|].
  exists pool1, mem1. split; [done|].
  assert (Hinvalid : valid_header (pool_id pool1)
            (load mem1 (wrap32 (p - sizeof_memory_block_t))) = false)
    by (unfold valid_header; rewrite Hmagic; done).
  split; [done|].
  apply pool_free_invalid; [lia|congruence|done].
Qed.

(** ** [peak_usage] *)

Lemma pool_step_peak_usage s op : peak_usage (pool_step s op).1 = peak_usage s.1.
Proof.
  destruct s as [pool mem], op as [took now|took p]; simpl.
  - unfold pool_malloc.
    destruct (mutex pool =? 0), took, (free_list pool =? 0); done.
  - unfold pool_free.
    destruct ((p =? 0) || (mutex pool =? 0)), took; try done.
    by destruct (_ && _).
Qed.

Lemma run_ops_peak_usage ops : ∀ s, peak_usage (run_ops ops s).1 = peak_usage s.1.
Proof.
  induction ops as [|op ops IH]; intros s; [done|].
  unfold run_ops. simpl. fold (run_ops ops). by rewrite IH, pool_step_peak_usage.
Qed.

Lemma run_ops_app ops ops' s :
  run_ops (ops ++ ops') s = run_ops ops' (run_ops ops s).
Proof. unfold run_ops. apply fold_left_app. Qed.

(** C3, as the program has it: no call writes [peak_usage].  On a freshly
    initialised pool it is [0] after every sequence of [pool_malloc] and
    [pool_free] calls, so it never decreases along a sequence of calls;
    it is not kept at or above [allocated_blocks]. *)
Theorem pool_malloc_leaves_peak_usage config id base bitmap mtx mem0 pool0
    mem1 ev ops ops' :
  init_memory_pool base bitmap mtx config id mem0 = (true, pool0, mem1, ev) →
  peak_usage (run_ops ops (pool0, mem1)).1 = 0 ∧
  peak_usage (run_ops ops (pool0, mem1)).1
    ≤ peak_usage (run_ops (ops ++ ops') (pool0, mem1)).1.
Proof.
  intros Hinit. rewrite run_ops_app, !run_ops_peak_usage. simpl.
  destruct (init_memory_pool_true _ _ _ _ _ _ _ _ _ Hinit)
    as (? & _ & _ & _ & _ & _ & _ & _ & _ & -> & _).
  done.
Qed.

(** C3, as the specification words it, fails on the program: after the first
    allocation from a freshly initialised pool one block is allocated and
    [peak_usage] is still [0], below [allocated_blocks] and not the maximum
    of the two. *)
Lemma pool_malloc_peak_usage_below_allocated :
  let pool0 := huge_pool_init.1.1.2 in
  let pool := (run_ops [op_malloc true 1000] (pool0, huge_pool_init.1.2)).1 in
  huge_pool_init.1.1.1 = true ∧
  allocated_blocks pool = 1 ∧ peak_usage pool = 0 ∧
  peak_usage pool < allocated_blocks pool ∧
  peak_usage pool ≠ Z.max (peak_usage pool0) (allocated_blocks pool).
Proof. by_evaluation. Qed.

(** ** The dispatcher *)

Lemma pool_malloc_trace took now pool mem :
  raw_mallocs (pool_malloc took now pool mem).2 = [] ∧
  raw_frees (pool_malloc took now pool mem).2 = [] ∧
  ∀ m, pool_malloc_result took now pool m =
       (pool_malloc took now pool mem).1.1.1.
Proof.
  unfold pool_malloc_result, pool_malloc.
  destruct (mutex pool =? 0), took, (free_list pool =? 0); done.
Qed.

Lemma smart_pool_malloc_loop_spec take now required : ∀ pools i0 mem,
  let '(r, pools', _, ev) :=
    smart_pool_malloc_loop take now required i0 pools mem in
  raw_mallocs ev = [] ∧
  (∀ k p, pools !! k = Some p → block_size p < required →
          pools' !! k = Some p) ∧
  match r with
  | Some ptr =>
      ptr ≠ 0 ∧
      ∃ k p, pools !! k = Some p ∧ required ≤ block_size p ∧
        (∀ m, pool_malloc_result (take (i0 + k)%nat) now p m = ptr) ∧
        (∀ j q, (j < k)%nat → pools !! j = Some q → required ≤ block_size q →
                ∀ m, pool_malloc_result (take (i0 + j)%nat) now q m = 0)
  | None =>
      ∀ j q, pools !! j = Some q → required ≤ block_size q →
             ∀ m, pool_malloc_result (take (i0 + j)%nat) now q m = 0
  end.
Proof.
  induction pools as [|p rest IH]; intros i0 mem.
  - simpl. repeat split; done.
  - simpl smart_pool_malloc_loop.
    destruct (required <=? block_size p) eqn:Hfit.
    + apply Z.leb_le in Hfit.
      destruct (pool_malloc_trace (take i0) now p mem) as (Hrm & _ & Hind).
      destruct (pool_malloc (take i0) now p mem) as [[[ptr p'] mem1] ev1].
      simpl in Hrm, Hind.
      destruct (ptr =? 0) eqn:Hz; simpl negb; cbv iota.
      * apply Z.eqb_eq in Hz. subst ptr.
        specialize (IH (S i0) mem1).
        destruct (smart_pool_malloc_loop take now required (S i0) rest mem1)
          as [[[r ps'] mem2] ev2].
        destruct IH as (Hev & Hsmall & IH).
        split; [unfold raw_mallocs in *; by rewrite omap_app, Hrm, Hev|].
        split.
        { intros [|k] q Hq Hlt; simpl in *; [injection Hq as <-; lia|eauto]. }
        destruct r as [ptr|].
        -- destruct IH as (Hnz & k & q & Hk & Hfk & Hres & Hprev).
           split; [done|]. exists (S k), q. split; [done|]. split; [done|].
           split.
           ++ intros m. replace (i0 + S k)%nat with (S i0 + k)%nat by lia.
              apply Hres.
           ++ intros [|j] q' Hj Hq' Hq'fit m; simpl in Hq'.
              ** injection Hq' as <-. rewrite Nat.add_0_r. apply Hind.
              ** replace (i0 + S j)%nat with (S i0 + j)%nat by lia.
                 eapply Hprev; [|done|done]. lia.
        -- intros [|j] q' Hq' Hq'fit m; simpl in Hq'.
           ++ injection Hq' as <-. rewrite Nat.add_0_r. apply Hind.
           ++ replace (i0 + S j)%nat with (S i0 + j)%nat by lia.
              by eapply IH.
      * apply Z.eqb_neq in Hz.
        split; [unfold raw_mallocs in *; by rewrite omap_app, Hrm|].
        split.
        { intros [|k] q Hq Hlt; simpl in *; [injection Hq as <-; lia|done]. }
        split; [done|]. exists 0%nat, p. split; [done|]. split; [done|].
        split.
        -- intros m. rewrite Nat.add_0_r. apply Hind.
        -- intros j q Hj. lia.
    + apply Z.leb_gt in Hfit.
      specialize (IH (S i0) mem).
      destruct (smart_pool_malloc_loop take now required (S i0) rest mem)
        as [[[r ps'] mem2] ev2].
      destruct IH as (Hev & Hsmall & IH).
      split; [done|]. split.
      { intros [|k] q Hq Hlt; simpl in *; [done|eauto]. }
      destruct r as [ptr|].
      -- destruct IH as (Hnz & k & q & Hk & Hfk & Hres & Hprev).
         split; [done|]. exists (S k), q. split; [done|]. split; [done|].
         split.
         ++ intros m. replace (i0 + S k)%nat with (S i0 + k)%nat by lia.
            apply Hres.
         ++ intros [|j] q' Hj Hq' Hq'fit m; simpl in Hq'.
            ** injection Hq' as <-. lia.
            ** replace (i0 + S j)%nat with (S i0 + j)%nat by lia.
               eapply Hprev; [|done|done]. lia.
      -- intros [|j] q' Hq' Hq'fit m; simpl in Hq'.
         ++ injection Hq' as <-. lia.
         ++ replace (i0 + S j)%nat with (S i0 + j)%nat by lia.
            by eapply IH.
Qed.

(** C1, as the program has it: a request is served by the first size class,
    in array order, whose blocks hold [size + 16] bytes and whose
    [pool_malloc] returns a block; the classes before it that are large
    enough have each been tried and have failed, a class that is too small is
    left untouched, and the raw heap is called, once, only when every class
    that is large enough has failed. *)
Theorem smart_pool_malloc_first_serving_class take now raw pools mem size :
  0 ≤ size → size + 16 < 2 ^ 32 →
  let '(ptr, pools', _, ev) := smart_pool_malloc take now raw pools mem size in
  (∀ k p, pools !! k = Some p → block_size p < size + 16 →
          pools' !! k = Some p) ∧
  ((∃ i p, pools !! i = Some p ∧ size + 16 ≤ block_size p ∧ ptr ≠ 0 ∧
           pool_malloc_result (take i) now p mem = ptr ∧
           (∀ j q, (j < i)%nat → pools !! j = Some q →
                   size + 16 ≤ block_size q →
                   pool_malloc_result (take j) now q mem = 0) ∧
           raw_mallocs ev = [])
   ∨ ((∀ j q, pools !! j = Some q → size + 16 ≤ block_size q →
              pool_malloc_result (take j) now q mem = 0) ∧
      ptr = raw ∧ raw_mallocs ev = [(size, MALLOC_CAP_DEFAULT, raw)])).
Proof.
  intros Hsize Hfit. unfold smart_pool_malloc.
  rewrite wrap32_small by lia.
  pose proof (smart_pool_malloc_loop_spec take now (size + 16) pools 0%nat mem)
    as Hspec.
  destruct (smart_pool_malloc_loop take now (size + 16) 0 pools mem)
    as [[[r pools'] mem'] ev].
  destruct Hspec as (Hev & Hsmall & Hr).
  destruct r as [ptr|]; (split; [done|]).
  - left. destruct Hr as (Hnz & k & p & Hk & Hfk & Hres & Hprev).
    exists k, p. split; [done|]. split; [done|]. split; [done|].
    split; [apply Hres|]. split; [|done].
    intros j q Hj Hq Hqfit. by eapply (Hprev j q).
  - right. split; [|split].
    + intros j q Hq Hqfit. by eapply (Hr j q).
    + done.
    + unfold raw_mallocs in *. by rewrite omap_app, Hev.
Qed.

(** C1, as the specification words it, fails on the program: with the size
    classes 64, 256 and 1024 and the 256-byte pool exhausted, a request for
    200 bytes is served from the 1024-byte pool, and the raw heap is not
    called. *)
Lemma smart_pool_malloc_cascades :
  let '(pools, mem) := booted3_medium_full in
  let '(ptr, pools', _, ev) :=
    smart_pool_malloc always_taken 77 0x3FFE0000 pools mem 200 in
  block_size <$> pools = [64; 256; 1024] ∧
  free_list <$> pools = [0x3FFB0AA8; 0; 0x3FFC1CA8] ∧
  ptr = 0x3FFC1CA8 + sizeof_memory_block_t ∧
  allocated_blocks <$> pools' = [0; 16; 1] ∧
  raw_mallocs ev = [] ∧
  dispatch_allocate_spec always_taken 77 0x3FFE0000 pools mem 200
    = 0x3FFE0000 ∧
  ptr ≠ dispatch_allocate_spec always_taken 77 0x3FFE0000 pools mem 200.
Proof. by_evaluation. Qed.

Example request_200_served_by_256_pool :
  let '(pools, mem) := booted3 in
  let '(ptr, pools', _, ev) :=
    smart_pool_malloc always_taken 77 0x3FFE0000 pools mem 200 in
  allocated_blocks <$> pools' = [0; 1; 0] ∧
  ev = [gpio_set_level LED_MEDIUM_POOL 1; vTaskDelay 30;
        gpio_set_level LED_MEDIUM_POOL 0].
Proof. by_evaluation. Qed.

Example request_2000_bypasses_three_classes :
  let '(pools, mem) := booted3 in
  smart_pool_malloc always_taken 77 0x3FFE0000 pools mem 2000 =
    (0x3FFE0000, pools, mem,
     [heap_caps_malloc 2000 MALLOC_CAP_DEFAULT 0x3FFE0000]).
Proof. by_evaluation. Qed.

(** The program itself has a fourth class, of 4096 bytes, which takes the
    2000-byte request. *)
Example request_2000_served_by_huge_pool :
  let '(pools, mem) := booted in
  let '(ptr, pools', _, ev) :=
    smart_pool_malloc always_taken 77 0x3FFE0000 pools mem 2000 in
  block_size <$> pools = [64; 256; 1024; 4096] ∧
  allocated_blocks <$> pools' = [0; 0; 0; 1] ∧ raw_mallocs ev = [].
Proof. by_evaluation. Qed.

(** C7: what the program does with a pointer no pool owns.  As soon as the
    pools are initialised and the pointer is not [NULL], [smart_pool_free]
    returns from the [pool_free] of the first pool, which reports [true]
    whatever the header says: no other pool is tried, the other pools are
    left as they were, and [heap_caps_free] is not called. *)
Theorem smart_pool_free_never_reaches_raw_heap take pool rest mem p :
  p ≠ 0 → mutex pool ≠ 0 →
  ∃ pool' mem' ev,
    pool_free (take 0%nat) pool mem p = (true, pool', mem', ev) ∧
    smart_pool_free take (pool :: rest) mem p = (true, pool' :: rest, mem', ev) ∧
    raw_frees ev = [].
Proof.
  intros Hp Hm. apply Z.eqb_neq in Hp, Hm.
  unfold smart_pool_free. simpl smart_pool_free_loop.
  unfold pool_free. rewrite Hp, Hm. simpl orb. cbv iota.
  destruct (take 0%nat); [|by eexists _, _, _].
  destruct (_ && _); by eexists _, _, _.
Qed.

(** On the booted board: a request for 5000 bytes fits no class and is
    served by the raw heap, and its release ends in the first pool; a block
    of the 256-byte pool is never given back to its pool. *)
Example smart_pool_free_on_booted_board :
  let '(pools, mem) := booted in
  let '(p, pools1, mem1, ev1) :=
    smart_pool_malloc always_taken 77 0x3FFE0000 pools mem 5000 in
  let '(r, pools2, _, ev2) := smart_pool_free always_taken pools1 mem1 p in
  let '(q, pools3, mem3, _) :=
    smart_pool_malloc always_taken 78 0x3FFE0000 pools mem 200 in
  let '(_, pools4, _, ev4) := smart_pool_free always_taken pools3 mem3 q in
  (p = 0x3FFE0000 ∧
   raw_mallocs ev1 = [(5000, MALLOC_CAP_DEFAULT, 0x3FFE0000)] ∧
   r = true ∧ ev2 = [gpio_set_level LED_POOL_ERROR 1] ∧ raw_frees ev2 = []) ∧
  (allocated_blocks <$> pools3 = [0; 1; 0; 0] ∧
   allocated_blocks <$> pools4 = [0; 1; 0; 0] ∧
   ev4 = [gpio_set_level LED_POOL_ERROR 1]).
Proof. by_evaluation. Qed.

(** ** The hypotheses above can be met *)

Lemma empty_memory_clean id (a : Z) : valid_header id (load ∅ a) = false.
Proof. unfold load. rewrite lookup_empty. reflexivity. Defined.

(** The small pool of the program, two allocations, a release, a second
    release of the same block and a release of [NULL]. *)
Lemma pool_counters_invariant_witness :
  backing_ok small_config 0x3FFB0000 ∧
  (∀ a, valid_header 1 (load ∅ a) = false) ∧
  init_memory_pool 0x3FFB0000 0x3FFA0000 0x3FF90000 small_config 1 ∅ =
    (true, small_pool_init.1.1.2, small_pool_init.1.2, small_pool_init.2) ∧
  let ops := [op_malloc true 10; op_malloc false 15; op_malloc true 20;
              op_free true 0x3FFB0AC0; op_free true 0x3FFB0AC0;
              op_free true 0] in
  let pool :=
    (run_ops ops (small_pool_init.1.1.2, small_pool_init.1.2)).1 in
  frees_block_pointers small_config 0x3FFB0000 ops ∧
  Z.of_nat (length ops) < 2 ^ 64 ∧
  0 ≤ allocated_blocks pool ≤ block_count pool ∧
  block_count pool = cfg_block_count small_config ∧
  allocated_blocks pool =
    wrap64 (total_allocations pool - total_deallocations pool) ∧
  allocated_blocks pool = total_allocations pool - total_deallocations pool.
Proof.
  assert (Hok : backing_ok small_config 0x3FFB0000) by by_evaluation.
  assert (Hinit :
    init_memory_pool 0x3FFB0000 0x3FFA0000 0x3FF90000 small_config 1 ∅ =
    (true, small_pool_init.1.1.2, small_pool_init.1.2, small_pool_init.2))
    by by_evaluation.
  split; [exact Hok|]. split; [exact (empty_memory_clean 1)|].
  split; [exact Hinit|].
  intros ops pool.
  assert (Hfrees : frees_block_pointers small_config 0x3FFB0000 ops)
    by (unfold frees_block_pointers, ops; block_pointers).
  assert (Hlen : Z.of_nat (length ops) < 2 ^ 64) by reflexivity.
  destruct (pool_counters_invariant small_config 1 0x3FFB0000 0x3FFA0000
              0x3FF90000 ∅ small_pool_init.1.1.2 small_pool_init.1.2
              small_pool_init.2 ops Hok (empty_memory_clean 1) Hinit Hfrees)
    as (Hrange & Hcount & Hwrap & Hexact).
  split; [exact Hfrees|]. split; [exact Hlen|]. split; [exact Hrange|]. split; [exact Hcount|].
  split; [exact Hwrap|]. exact (Hexact Hlen).
Defined.

(** The huge pool of the program: four allocations, then a fifth. *)
Lemma pool_exhausted_after_block_count_witness :
  let envs := replicate 4 (true, 5) in
  let r := pool_malloc_n envs huge_pool_init.1.1.2 huge_pool_init.1.2 in
  backing_ok huge_config 0x3FFC8000 ∧ 0x3FF90003 ≠ 0 ∧
  init_memory_pool 0x3FFC8000 0x3FFA0030 0x3FF90003 huge_config 4 ∅ =
    (true, huge_pool_init.1.1.2, huge_pool_init.1.2, huge_pool_init.2) ∧
  Z.of_nat (length envs) = cfg_block_count huge_config ∧
  pool_malloc_n envs huge_pool_init.1.1.2 huge_pool_init.1.2 =
    (r.1.1, r.1.2, r.2) ∧
  Forall (λ p, p ≠ 0) r.1.1 ∧
  allocation_failures r.1.2 = 0 ∧
  pool_malloc true 99 r.1.2 r.2 =
    (0, with_allocation_failures r.1.2 1, r.2,
     [gpio_set_level LED_POOL_FULL 1]).
Proof.
  intros envs r.
  assert (Hok : backing_ok huge_config 0x3FFC8000) by by_evaluation.
  assert (Hmtx : 0x3FF90003 ≠ 0) by discriminate.
  assert (Hinit :
    init_memory_pool 0x3FFC8000 0x3FFA0030 0x3FF90003 huge_config 4 ∅ =
    (true, huge_pool_init.1.1.2, huge_pool_init.1.2, huge_pool_init.2))
    by by_evaluation.
  assert (Hlen : Z.of_nat (length envs) = cfg_block_count huge_config)
    by by_evaluation.
  assert (Hrun : pool_malloc_n envs huge_pool_init.1.1.2 huge_pool_init.1.2
                 = (r.1.1, r.1.2, r.2)) by by_evaluation.
  assert (Hall : Forall (λ p, p ≠ 0) r.1.1)
    by (vm_compute; repeat constructor; discriminate).
  split; [exact Hok|]. split; [exact Hmtx|]. split; [exact Hinit|].
  split; [exact Hlen|]. split; [exact Hrun|]. split; [exact Hall|].
  exact (pool_exhausted_after_block_count huge_config 4 0x3FFC8000 0x3FFA0030
           0x3FF90003 ∅ huge_pool_init.1.1.2 huge_pool_init.1.2
           huge_pool_init.2 envs r.1.1 r.1.2 r.2 99
           Hok Hmtx Hinit Hlen Hrun Hall).
Defined.


(** A request for 200 bytes on the three size classes 64, 256 and 1024. *)
Lemma smart_pool_malloc_first_serving_class_witness :
  0 ≤ 200 ∧ 200 + 16 < 2 ^ 32 ∧
  let '(ptr, pools', _, ev) :=
    smart_pool_malloc always_taken 77 0x3FFE0000 booted3.1 booted3.2 200 in
  (∀ k p, booted3.1 !! k = Some p → block_size p < 200 + 16 →
          pools' !! k = Some p) ∧
  ((∃ i p, booted3.1 !! i = Some p ∧ 200 + 16 ≤ block_size p ∧ ptr ≠ 0 ∧
           pool_malloc_result (always_taken i) 77 p booted3.2 = ptr ∧
           (∀ j q, (j < i)%nat → booted3.1 !! j = Some q →
                   200 + 16 ≤ block_size q →
                   pool_malloc_result (always_taken j) 77 q booted3.2 = 0) ∧
           raw_mallocs ev = [])
   ∨ ((∀ j q, booted3.1 !! j = Some q → 200 + 16 ≤ block_size q →
              pool_malloc_result (always_taken j) 77 q booted3.2 = 0) ∧
      ptr = 0x3FFE0000 ∧
      raw_mallocs ev = [(200, MALLOC_CAP_DEFAULT, 0x3FFE0000)])).
Proof.
  assert (H1 : 0 ≤ 200) by discriminate.
  assert (H2 : 200 + 16 < 2 ^ 32) by reflexivity.
  split; [exact H1|]. split; [exact H2|].
  exact (smart_pool_malloc_first_serving_class always_taken 77 0x3FFE0000
           booted3.1 booted3.2 200 H1 H2).
Defined.

(** The first block of the small pool, released twice. *)
Lemma pool_free_second_release_returns_true_witness :
  let pool := small_pool_one_allocated.1.1.2 in
  let mem := small_pool_one_allocated.1.2 in
  let p := 0x3FFB0AC0 in
  small_pool_one_allocated.1.1.1 = p ∧
  ∃ pool1 mem1,
    pool_free true pool mem p = (true, pool1, mem1, []) ∧
    valid_header (pool_id pool1)
      (load mem1 (wrap32 (p - sizeof_memory_block_t))) = false ∧
    pool_free true pool1 mem1 p =
      (true, pool1, mem1, [gpio_set_level LED_POOL_ERROR 1]).
Proof.
  intros pool mem p.
  assert (H0 : small_pool_one_allocated.1.1.1 = p) by by_evaluation.
  assert (H1 : mutex pool ≠ 0) by by_evaluation.
  assert (H2 : 0 < p < 2 ^ 32) by by_evaluation.
  assert (H3 : valid_header (pool_id pool)
                 (load mem (wrap32 (p - sizeof_memory_block_t))) = true)
    by by_evaluation.
  split; [exact H0|].
  exact (pool_free_second_release_returns_true pool mem p H1 H2 H3).
Defined.

(** The huge pool of the program after one, and after three, calls. *)
Lemma pool_malloc_leaves_peak_usage_witness :
  let ops := [op_malloc true 1000] in
  let ops' := [op_malloc true 2000; op_free true 0x3FFCB05C] in
  let s := (huge_pool_init.1.1.2, huge_pool_init.1.2) in
  init_memory_pool 0x3FFC8000 0x3FFA0030 0x3FF90003 huge_config 4 ∅ =
    (true, huge_pool_init.1.1.2, huge_pool_init.1.2, huge_pool_init.2) ∧
  peak_usage (run_ops ops s).1 = 0 ∧
  peak_usage (run_ops ops s).1 ≤ peak_usage (run_ops (ops ++ ops') s).1.
Proof.
  intros ops ops' s.
  assert (Hinit :
    init_memory_pool 0x3FFC8000 0x3FFA0030 0x3FF90003 huge_config 4 ∅ =
    (true, huge_pool_init.1.1.2, huge_pool_init.1.2, huge_pool_init.2))
    by by_evaluation.
  split; [exact Hinit|].
  exact (pool_malloc_leaves_peak_usage huge_config 4 0x3FFC8000 0x3FFA0030
           0x3FF90003 ∅ huge_pool_init.1.1.2 huge_pool_init.1.2
           huge_pool_init.2 ops ops' Hinit).
Defined.

(** The release of a pointer of the raw heap on the booted board. *)
Lemma smart_pool_free_never_reaches_raw_heap_witness :
  let pool := small_pool_init.1.1.2 in
  let rest := drop 1 booted.1 in
  0x3FFE0000 ≠ 0 ∧ mutex pool ≠ 0 ∧
  ∃ pool' mem' ev,
    pool_free (always_taken 0%nat) pool booted.2 0x3FFE0000
      = (true, pool', mem', ev) ∧
    smart_pool_free always_taken (pool :: rest) booted.2 0x3FFE0000
      = (true, pool' :: rest, mem', ev) ∧
    raw_frees ev = [].
Proof.
  intros pool rest.
  assert (H1 : 0x3FFE0000 ≠ 0) by discriminate.
  assert (H2 : mutex pool ≠ 0) by by_evaluation.
  split; [exact H1|]. split; [exact H2|].
  exact (smart_pool_free_never_reaches_raw_heap always_taken pool rest
           booted.2 0x3FFE0000 H1 H2).
Defined.

End PoolTheory.

Module TrackerTheory.
Import HeapManagement.

(** ** The search loops *)

Lemma find_free_from_all_active l : ∀ i,
  Forall (λ e, is_active e = true) l → find_free_from i l = -1.
Proof.
  induction l as [|e l IH]; intros i Hall; [done|].
  apply Forall_cons in Hall as [He Hall]. simpl. rewrite He. simpl.
  by apply IH.
Qed.

Lemma find_free_allocation_slot_full allocations :
  Forall (λ e, is_active e = true) allocations →
  find_free_allocation_slot allocations = -1.
Proof.
  intros Hall. apply find_free_from_all_active.
  by apply Forall_take.
Qed.

(** C8: with every slot of the table active, a [tracked_malloc] whose raw
    allocation succeeded returns the pointer of the raw heap and leaves the
    table and every counter as they were; besides the call to the raw heap
    the only thing that leaves the function is the warning, and that only
    when monitoring is on and the mutex was obtained. *)
Theorem tracked_malloc_full_table raw took now g sz cp desc :
  raw ≠ 0 →
  Forall (λ e, is_active e = true) (allocations g) →
  tracked_malloc raw took now g sz cp desc =
    (raw, g,
     heap_caps_malloc sz cp raw ::
     if memory_monitoring_enabled g && negb (memory_mutex g =? 0) && took
     then [esp_log LOGW "Tracking slots full" []] else []).
Proof.
  intros Hraw Hfull. unfold tracked_malloc.
  rewrite (find_free_allocation_slot_full _ Hfull).
  apply Z.eqb_neq in Hraw. rewrite Hraw.
  destruct (memory_monitoring_enabled g && negb (memory_mutex g =? 0)), took;
    reflexivity.
Qed.

(** A table whose hundred slots are all taken. *)
Lemma tracked_malloc_full_table_witness :
  0x3FFE0000 ≠ 0 ∧
  Forall (λ e, is_active e = true) (allocations full_globals) ∧
  length (allocations full_globals) = MAX_ALLOCATIONS ∧
  tracked_malloc 0x3FFE0000 true 5000 full_globals 128 MALLOC_CAP_INTERNAL
    "Stress" =
    (0x3FFE0000, full_globals,
     heap_caps_malloc 128 MALLOC_CAP_INTERNAL 0x3FFE0000 ::
     if memory_monitoring_enabled full_globals
        && negb (memory_mutex full_globals =? 0) && true
     then [esp_log LOGW "Tracking slots full" []] else []).
Proof.
  assert (H1 : 0x3FFE0000 ≠ 0) by discriminate.
  assert (H2 : Forall (λ e, is_active e = true) (allocations full_globals)).
  { apply Forall_fmap, Forall_forall. intros i _. reflexivity. }
  split; [exact H1|]. split; [exact H2|]. split; [reflexivity|].
  exact (tracked_malloc_full_table 0x3FFE0000 true 5000 full_globals 128
           MALLOC_CAP_INTERNAL "Stress" H1 H2).
Defined.

Lemma find_by_ptr_from_none p l : ∀ i,
  (∀ e, e ∈ l → is_active e && (ptr e =? p) = false) →
  find_by_ptr_from p i l = -1.
Proof.
  induction l as [|e l IH]; intros i Hnone; [done|].
  simpl. rewrite (Hnone e) by left. apply IH.
  intros e' He'. apply Hnone. by right.
Qed.

Lemma find_by_ptr_from_found p l : ∀ i,
  0 ≤ i → 0 ≤ find_by_ptr_from p i l →
  ∃ k e, find_by_ptr_from p i l = i + Z.of_nat k ∧ l !! k = Some e ∧
         is_active e = true ∧ ptr e = p.
Proof.
  induction l as [|e l IH]; intros i Hi Hfound; simpl in *; [lia|].
  destruct (is_active e && (ptr e =? p)) eqn:Htest.
  - apply andb_true_iff in Htest as [Ha Hp]. apply Z.eqb_eq in Hp.
    exists 0%nat, e. repeat split; try done. lia.
  - destruct (IH (i + 1)) as (k & e' & Heq & Hk & Ha & Hp); [lia|done|].
    exists (S k), e'. repeat split; try done. lia.
Qed.

Lemma find_by_ptr_from_deactivated p l i k e :
  l !! k = Some e → is_active e = true → ptr e = p →
  active_ptrs_distinct l →
  find_by_ptr_from p i (<[k := deactivate e]> l) = -1.
Proof.
  intros Hk Ha Hp Hdist. apply find_by_ptr_from_none.
  intros e' (j & Hj)%list_elem_of_lookup.
  destruct (decide (k = j)) as [<-|Hne].
  - rewrite list_lookup_insert_eq in Hj by (by eapply lookup_lt_Some).
    by injection Hj as <-.
  - rewrite list_lookup_insert_ne in Hj by done.
    destruct (is_active e') eqn:Ha'; [|done]. simpl.
    apply Z.eqb_neq. intros Hp'. apply Hne.
    apply (Hdist k j e e'); congruence.
Qed.

Lemma active_ptrs_distinct_take n l :
  active_ptrs_distinct l → active_ptrs_distinct (take n l).
Proof.
  intros Hdist i j e1 e2 [H1 _]%lookup_take_Some [H2 _]%lookup_take_Some.
  by apply Hdist.
Qed.

Lemma find_allocation_by_ptr_found allocations p :
  0 ≤ find_allocation_by_ptr allocations p →
  ∃ k e, find_allocation_by_ptr allocations p = Z.of_nat k ∧
         (k < MAX_ALLOCATIONS)%nat ∧ allocations !! k = Some e ∧
         is_active e = true ∧ ptr e = p.
Proof.
  intros Hfound. unfold find_allocation_by_ptr in *.
  destruct (find_by_ptr_from_found p _ 0 ltac:(lia) Hfound)
    as (k & e & Heq & [Hk Hlt]%lookup_take_Some & Ha & Hp).
  exists k, e. rewrite Heq. repeat split; done.
Qed.

(** ** [tracked_free] *)

Lemma tracked_free_raw_free took g p desc :
  p ≠ 0 → raw_frees (tracked_free took g p desc).2 = [p].
Proof.
  intros Hp%Z.eqb_neq. unfold tracked_free. rewrite Hp.
  destruct (memory_monitoring_enabled g && negb (memory_mutex g =? 0)), took;
    try done.
  by destruct (0 <=? find_allocation_by_ptr (allocations g) p).
Qed.

Lemma tracked_free_untracked took g p desc :
  find_allocation_by_ptr (allocations g) p = -1 →
  (tracked_free took g p desc).1 = g.
Proof.
  intros Hnone. unfold tracked_free. rewrite Hnone.
  destruct (p =? 0); [done|].
  by destruct (memory_monitoring_enabled g && negb (memory_mutex g =? 0)), took.
Qed.

Lemma tracked_free_cases g p desc :
  p ≠ 0 →
  let g1 := (tracked_free true g p desc).1 in
  (memory_monitoring_enabled g && negb (memory_mutex g =? 0) = false ∧ g1 = g)
  ∨ (find_allocation_by_ptr (allocations g) p = -1 ∧ g1 = g)
  ∨ ∃ k e, find_allocation_by_ptr (allocations g) p = Z.of_nat k ∧
         (k < MAX_ALLOCATIONS)%nat ∧ allocations g !! k = Some e ∧
         is_active e = true ∧ ptr e = p ∧
         allocations g1 = <[k := deactivate e]> (allocations g) ∧
         memory_mutex g1 = memory_mutex g.
Proof.
  intros Hnz%Z.eqb_neq. unfold tracked_free. rewrite Hnz.
  destruct (memory_monitoring_enabled g && negb (memory_mutex g =? 0));
    [|by left].
  right.
  destruct (0 <=? find_allocation_by_ptr (allocations g) p) eqn:Hfound.
  - apply Z.leb_le in Hfound.
    destruct (find_allocation_by_ptr_found _ _ Hfound)
      as (k & e & Heq & Hlt & Hk & Ha & Hp).
    right. exists k, e. rewrite Heq, Nat2Z.id, Hk. simpl. done.
  - left. apply Z.leb_gt in Hfound.
    split; [|done].
    unfold find_allocation_by_ptr in *.
    destruct (find_by_ptr_from p 0 (take MAX_ALLOCATIONS (allocations g)))
      eqn:Hr; try lia.
    assert (Hcases : ∀ l i, 0 ≤ i →
              find_by_ptr_from p i l = -1 ∨ 0 ≤ find_by_ptr_from p i l).
    { clear. induction l as [|e l IH]; intros i Hi; simpl; [by left|].
      destruct (_ && _); [right; lia|]. apply IH. lia. }
    destruct (Hcases (take MAX_ALLOCATIONS (allocations g)) 0 ltac:(lia));
      lia.
Qed.

(** C10: for a pointer that is not [NULL], every call of [tracked_free]
    calls [heap_caps_free] on it exactly once, whatever the table holds,
    whether the mutex is obtained and whether monitoring is on.  So a second
    call on the same pointer frees it again; it leaves the table and the
    counters as the first call left them whenever no active entry records
    the pointer any more, which is the case once the first call has obtained
    the mutex on a table whose active entries record distinct pointers.  A
    first call that does not obtain the mutex frees the block and leaves its
    entry active, and a second call that obtains the mutex then changes the
    table. *)
Theorem tracked_free_always_frees_raw g p :
  p ≠ 0 →
  (∀ took desc, raw_frees (tracked_free took g p desc).2 = [p]) ∧
  (∀ took1 took2 d1 d2,
     let g1 := (tracked_free took1 g p d1).1 in
     raw_frees (tracked_free took2 g1 p d2).2 = [p] ∧
     (find_allocation_by_ptr (allocations g1) p = -1 →
      (tracked_free took2 g1 p d2).1 = g1)) ∧
  (∀ took2 d1 d2,
     active_ptrs_distinct (allocations g) →
     let g1 := (tracked_free true g p d1).1 in
     (tracked_free took2 g1 p d2).1 = g1) ∧
  (∀ d1 d2,
     memory_monitoring_enabled g = true → memory_mutex g ≠ 0 →
     0 ≤ find_allocation_by_ptr (allocations g) p →
     let g1 := (tracked_free false g p d1).1 in
     g1 = g ∧ allocations (tracked_free true g1 p d2).1 ≠ allocations g1).
Proof.
  intros Hp. split; [|split; [|split]].
  - intros took desc. by apply tracked_free_raw_free.
  - intros took1 took2 d1 d2 g1. split.
    + by apply tracked_free_raw_free.
    + apply tracked_free_untracked.
  - intros took2 d1 d2 Hdist g1.
    destruct (tracked_free_cases g p d1 Hp)
      as [[Hoff Hsame]|[[Hnone Hsame]|
           (k & e & Heq & Hlt & Hk & Ha & Hpe & Hallocs & _)]];
      fold g1 in Hsame || fold g1 in Hallocs.
    + rewrite Hsame. unfold tracked_free. rewrite Hoff.
      by destruct (p =? 0).
    + rewrite Hsame. by apply tracked_free_untracked.
    + apply tracked_free_untracked. rewrite Hallocs.
      unfold find_allocation_by_ptr. rewrite take_insert_lt by done.
      apply find_by_ptr_from_deactivated; try done.
      * by apply lookup_take_Some.
      * by apply active_ptrs_distinct_take.
  - intros d1 d2 Hen Hm Hfound g1.
    assert (Hg1 : g1 = g).
    { unfold g1, tracked_free. destruct (p =? 0); [done|].
      by destruct (memory_monitoring_enabled g && negb (memory_mutex g =? 0)). }
    split; [done|]. rewrite Hg1.
    destruct (tracked_free_cases g p d2 Hp)
      as [[Hoff _]|[[Hnone _]|(k & e & _ & _ & Hk & Ha & _ & Hallocs & _)]].
    + apply Z.eqb_neq in Hm. by rewrite Hen, Hm in Hoff.
    + lia.
    + rewrite Hallocs. intros Heq.
      assert (Hnew : <[k := deactivate e]> (allocations g) !! k
                     = Some (deactivate e)).
      { apply list_lookup_insert_eq. by eapply lookup_lt_Some. }
      rewrite Heq, Hk in Hnew.
      assert (Hact : is_active e = is_active (deactivate e)) by congruence.
      rewrite Ha in Hact. discriminate.
Qed.

Lemma one_tracked_distinct e n :
  active_ptrs_distinct (e :: replicate n zero_allocation).
Proof.
  assert (Hrest : ∀ k e', (e :: replicate n zero_allocation) !! S k = Some e' →
                          is_active e' = true → False).
  { intros k e' Hk Ha.
    change (replicate n zero_allocation !! k = Some e') in Hk.
    apply lookup_replicate in Hk as [-> _]. discriminate. }
  intros [|i] [|j] e1 e2 H1 H2 A1 A2 _; [done| | |]; exfalso; eauto.
Defined.

(** The double release of the one block a booted tracker records. *)
Lemma tracked_free_always_frees_raw_witness :
  let g := (tracked_malloc 0x3FFE0000 true 1000000 boot_globals 128
              MALLOC_CAP_INTERNAL "Stress").1.2 in
  let p := 0x3FFE0000 in
  let g1 := (tracked_free true g p "Stress").1 in
  p ≠ 0 ∧ active_ptrs_distinct (allocations g) ∧
  raw_frees (tracked_free true g p "Stress").2 = [p] ∧
  raw_frees (tracked_free true g1 p "Stress").2 = [p] ∧
  (tracked_free true g1 p "Stress").1 = g1.
Proof.
  intros g p g1.
  assert (Hp : p ≠ 0) by discriminate.
  assert (Hallocs : allocations g =
            {| ptr := 0x3FFE0000; size := 128; caps := MALLOC_CAP_INTERNAL;
               description := "Stress"; timestamp := 1000000;
               is_active := true |} :: replicate 99 zero_allocation)
    by by_evaluation.
  assert (Hdist : active_ptrs_distinct (allocations g))
    by (rewrite Hallocs; apply one_tracked_distinct).
  destruct (tracked_free_always_frees_raw g p Hp)
    as (Hraw & Htwice & Hsame & _).
  split; [exact Hp|]. split; [exact Hdist|].
  split; [exact (Hraw true "Stress")|].
  split; [exact (proj1 (Htwice true true "Stress" "Stress"))|].
  exact (Hsame true "Stress" "Stress" Hdist).
Defined.

(** C10, as the specification words it, fails on the program: with one
    block recorded, a first [tracked_free] that does not get the mutex frees
    the block and leaves the tracker as it was, its entry still active; the
    second [tracked_free] of the same pointer, which gets the mutex, frees
    again and this time marks the entry inactive and moves the counters. *)
Lemma tracked_free_second_call_after_timeout :
  let g := (tracked_malloc 0x3FFE0000 true 1000000 boot_globals 128
              MALLOC_CAP_INTERNAL "Stress").1.2 in
  let p := 0x3FFE0000 in
  let r1 := tracked_free false g p "Stress" in
  let r2 := tracked_free true r1.1 p "Stress" in
  raw_frees r1.2 = [p] ∧ raw_frees r2.2 = [p] ∧
  is_active <$> allocations r1.1 !! 0%nat = Some true ∧
  is_active <$> allocations r2.1 !! 0%nat = Some false ∧
  current_allocations (stats r1.1) = 1 ∧
  current_allocations (stats r2.1) = 0 ∧
  total_deallocations (stats r1.1) = 0 ∧
  total_deallocations (stats r2.1) = 1 ∧
  total_bytes_deallocated (stats r2.1) = 128 ∧
  r2.1 ≠ r1.1.
Proof.
  intros g p r1 r2.
  assert (Hc : current_allocations (stats r1.1) = 1 ∧
               current_allocations (stats r2.1) = 0) by by_evaluation.
  split; [by_evaluation|]. split; [by_evaluation|].
  split; [by_evaluation|]. split; [by_evaluation|].
  split; [exact (proj1 Hc)|]. split; [exact (proj2 Hc)|].
  split; [by_evaluation|]. split; [by_evaluation|]. split; [by_evaluation|].
  intros Heq. destruct Hc as [H1 H2]. rewrite Heq, H1 in H2. discriminate.
Qed.

(** ** The leak scan *)

Lemma leak_scan_loop_reports now l : ∀ i leaks bytes z,
  z ∈ leak_reports (leak_scan_loop now i l leaks bytes).1.1 ↔
  ∃ k e, l !! k = Some e ∧ z = i + Z.of_nat k ∧ is_active e = true ∧
         30000 < age_ms now (timestamp e).
Proof.
  induction l as [|e l IH]; intros i leaks bytes z.
  - simpl. split; [by intros ?%elem_of_nil|]. by intros (k & e & ? & _).
  - simpl leak_scan_loop.
    assert (Hshift : (∃ k e', l !! k = Some e' ∧ z = i + 1 + Z.of_nat k ∧
                        is_active e' = true ∧
                        30000 < age_ms now (timestamp e')) →
                     ∃ k e', (e :: l) !! k = Some e' ∧ z = i + Z.of_nat k ∧
                        is_active e' = true ∧
                        30000 < age_ms now (timestamp e')).
    { intros (k & e' & Hk & -> & Ha & Hage). exists (S k), e'.
      repeat split; try done. lia. }
    assert (Hunshift : ∀ k e', (e :: l) !! S k = Some e' →
                       z = i + Z.of_nat (S k) → is_active e' = true →
                       30000 < age_ms now (timestamp e') →
                       ∃ k e', l !! k = Some e' ∧ z = i + 1 + Z.of_nat k ∧
                          is_active e' = true ∧
                          30000 < age_ms now (timestamp e')).
    { intros k e' Hk -> Ha Hage. exists k, e'. repeat split; try done. lia. }
    destruct (is_active e) eqn:Hact;
      [destruct (30000 <? age_ms now (timestamp e)) eqn:Hold|].
    + specialize (IH (i + 1) (leaks + 1) (wrap32 (bytes + size e)) z).
      destruct (leak_scan_loop now (i + 1) l (leaks + 1)
                  (wrap32 (bytes + size e))) as [[ev n] b].
      simpl in *. rewrite elem_of_cons, IH. split.
      * intros [->|Hex]; [|by apply Hshift].
        exists 0%nat, e. apply Z.ltb_lt in Hold. repeat split; try done. lia.
      * intros ([|k] & e' & Hk & Hz & Ha & Hage).
        -- left. lia.
        -- right. by eapply Hunshift.
    + rewrite IH. split; [apply Hshift|].
      intros ([|k] & e' & Hk & Hz & Ha & Hage).
      * injection Hk as <-. apply Z.ltb_ge in Hold. lia.
      * by eapply Hunshift.
    + rewrite IH. split; [apply Hshift|].
      intros ([|k] & e' & Hk & Hz & Ha & Hage).
      * injection Hk as <-. congruence.
      * by eapply Hunshift.
Qed.

Lemma detect_memory_leaks_reports now g z :
  memory_mutex g ≠ 0 →
  z ∈ leak_reports (detect_memory_leaks true now g).2 ↔
  ∃ k e, (k < MAX_ALLOCATIONS)%nat ∧ allocations g !! k = Some e ∧
         z = Z.of_nat k ∧ is_active e = true ∧
         30000 < age_ms (wrap64 now) (timestamp e).
Proof.
  intros Hm%Z.eqb_neq. unfold detect_memory_leaks. rewrite Hm. simpl negb.
  cbv iota.
  pose proof (leak_scan_loop_reports (wrap64 now)
                (take MAX_ALLOCATIONS (allocations g)) 0 0 0 z) as Hloop.
  destruct (leak_scan_loop (wrap64 now) 0
              (take MAX_ALLOCATIONS (allocations g)) 0 0) as [[ev n] b].
  simpl in Hloop. simpl snd.
  assert (Hrep : leak_reports
            (esp_log LOGI "LEAK SCAN (age>30s)" [] :: ev ++
             (if 0 <? n
              then [esp_log LOGW "Found %d potential leaks (%d bytes)"
                      [n; to_int b];
                    gpio_set_level LED_MEMORY_ERROR 1]
              else [esp_log LOGI "No potential leaks" []]))
          = leak_reports ev).
  { unfold leak_reports. simpl. rewrite omap_app.
    destruct (0 <? n); simpl; by rewrite app_nil_r. }
  rewrite Hrep, Hloop. split.
  - intros (k & e & [Hk Hlt]%lookup_take_Some & -> & Ha & Hage).
    exists k, e. repeat split; try done.
  - intros (k & e & Hlt & Hk & -> & Ha & Hage).
    exists k, e. repeat split; try done. by apply lookup_take_Some.
Qed.

(** C9, as the program has it: the scan changes nothing, and with the mutex
    obtained it reports exactly the active entries among the first
    [MAX_ALLOCATIONS] whose age in whole milliseconds, [(now - timestamp) /
    1000] on 64-bit words, exceeds 30000.  So an active entry recorded at
    time [T] is reported by every scan at [T + 30001000] microseconds or
    later, and an entry that a [tracked_free] has matched and marked
    inactive is reported by no scan. *)
Theorem leak_scan_reports_aged_entries now g :
  memory_mutex g ≠ 0 →
  (detect_memory_leaks true now g).1 = g ∧
  (∀ z, z ∈ leak_reports (detect_memory_leaks true now g).2 ↔
        ∃ k e, (k < MAX_ALLOCATIONS)%nat ∧ allocations g !! k = Some e ∧
               z = Z.of_nat k ∧ is_active e = true ∧
               30000 < age_ms (wrap64 now) (timestamp e)) ∧
  (∀ k e, (k < MAX_ALLOCATIONS)%nat → allocations g !! k = Some e →
          is_active e = true → 0 ≤ timestamp e →
          timestamp e + 30001000 ≤ now → now < 2 ^ 64 →
          Z.of_nat k ∈ leak_reports (detect_memory_leaks true now g).2) ∧
  (∀ k p desc, p ≠ 0 →
          find_allocation_by_ptr (allocations g) p = Z.of_nat k →
          memory_monitoring_enabled g = true →
          Z.of_nat k ∉ leak_reports
            (detect_memory_leaks true now (tracked_free true g p desc).1).2).
Proof.
  intros Hm. split; [|split; [|split]].
  - unfold detect_memory_leaks. destruct (memory_mutex g =? 0); [done|].
    simpl. by destruct (leak_scan_loop _ _ _ _ _) as [[? ?] ?].
  - intros z. by apply detect_memory_leaks_reports.
  - intros k e Hlt Hk Ha Hts Hage Hnow.
    apply detect_memory_leaks_reports; [done|].
    exists k, e. repeat split; try done.
    unfold age_ms. rewrite (wrap64_small now) by lia.
    rewrite wrap64_small by lia.
    apply Z.lt_le_trans with 30001; [lia|].
    apply Z.div_le_lower_bound; lia.
  - intros k p desc Hp Hfind Hon.
    destruct (tracked_free_cases g p desc Hp)
      as [[Hoff _]|[[Hnone _]|
           (k' & e & Heq & Hlt & Hk & Ha & Hpe & Hallocs & Hmutex)]].
    + rewrite Hon in Hoff. apply Z.eqb_neq in Hm. rewrite Hm in Hoff. done.
    + lia.
    + assert (k' = k) as -> by lia.
      rewrite detect_memory_leaks_reports by (by rewrite Hmutex).
      intros (j & e' & _ & Hj & Hz & Ha' & _).
      assert (j = k) as -> by lia.
      rewrite Hallocs, list_lookup_insert_eq in Hj
        by (by eapply lookup_lt_Some).
      by injection Hj as <-.
Qed.

(** C9, as the specification words it, fails on the program: an entry
    recorded at one second of timer time and still active is older than
    thirty seconds half a millisecond after the thirty seconds have passed,
    and the scan does not report it. *)
Lemma leak_scan_misses_sub_millisecond_age :
  let g := (tracked_malloc 0x3FFE0000 true 1000000 boot_globals 128
              MALLOC_CAP_INTERNAL "Stress").1.2 in
  let now := 1000000 + LEAK_AGE_US + 500 in
  timestamp <$> allocations g !! 0%nat = Some 1000000 ∧
  is_active <$> allocations g !! 0%nat = Some true ∧
  LEAK_AGE_US < now - 1000000 ∧
  scan_leaks_spec LEAK_AGE_US now (allocations g) = [0] ∧
  leak_reports (detect_memory_leaks true now g).2 = [] ∧
  leak_reports (detect_memory_leaks true now g).2
    ≠ scan_leaks_spec LEAK_AGE_US now (allocations g).
Proof. by_evaluation. Qed.

(** One tracked block, scanned 30.001 seconds after it was recorded, before
    and after its release. *)
Lemma leak_scan_reports_aged_entries_witness :
  let g := (tracked_malloc 0x3FFE0000 true 1000000 boot_globals 128
              MALLOC_CAP_INTERNAL "Stress").1.2 in
  let now := 1000000 + 30001000 in
  memory_mutex g ≠ 0 ∧
  (detect_memory_leaks true now g).1 = g ∧
  leak_reports (detect_memory_leaks true now g).2 = [0] ∧
  0 ∈ leak_reports (detect_memory_leaks true now g).2 ∧
  0 ∉ leak_reports
        (detect_memory_leaks true now
           (tracked_free true g 0x3FFE0000 "Stress").1).2.
Proof.
  intros g now.
  assert (Hm : memory_mutex g ≠ 0) by by_evaluation.
  assert (Hrep : leak_reports (detect_memory_leaks true now g).2 = [0])
    by by_evaluation.
  pose proof (leak_scan_reports_aged_entries now g Hm)
    as (Hsame & _ & Hold & Hfreed).
  split; [exact Hm|]. split; [exact Hsame|]. split; [exact Hrep|]. split.
  - refine (Hold 0%nat
              {| ptr := 0x3FFE0000; size := 128; caps := MALLOC_CAP_INTERNAL;
                 description := "Stress"; timestamp := 1000000;
                 is_active := true |} _ _ _ _ _ _);
      first [by_evaluation | unfold MAX_ALLOCATIONS; lia].
  - refine (Hfreed 0%nat 0x3FFE0000 "Stress" _ _ _); by_evaluation.
Defined.

End TrackerTheory.

(** * Further properties of the memory pools *)

Module PoolMore.
Import MemoryPools PoolTheory.

(** ** Reachable pool states *)

Lemma init_memory_pool_inv_slots config id base bitmap mtx mem0 pool0 mem1 ev :
  backing_ok config base →
  (∀ a, valid_header id (load mem0 a) = false) →
  init_memory_pool base bitmap mtx config id mem0 = (true, pool0, mem1, ev) →
  let blocks :=
    block_addrs base (total_block_size_of (cfg_block_size config)) 0
      (Z.to_nat (cfg_block_count config)) in
  pool_inv blocks (reverse blocks) 0 0 pool0 mem1.
Proof.
  intros Hok Hclean Hinit blocks.
  destruct (init_memory_pool_true _ _ _ _ _ _ _ _ _ Hinit)
    as (head & Hloop & Hfl & Hmtx & Hid & Hcnt & _ & _ & Hab & _ & Hta & Htd & _).
  destruct (init_memory_pool_blocks _ _ _ _ _ _ _ _ _ Hok Hinit)
    as (Hchain & Hndb & Hnew & Hold).
  fold blocks in Hchain, Hndb, Hnew, Hold.
  pose proof Hok as (Hb & Hc & Hh & Hfit).
  constructor.
  - done.
  - by rewrite reverse_Permutation.
  - intros a Ha. rewrite elem_of_reverse in Ha. split; [done|].
    destruct (Hnew a Ha) as [-> _]. done.
  - intros a Hv. exfalso. rewrite Hid in Hv.
    destruct (decide (a ∈ blocks)) as [Ha|Ha].
    + destruct (Hnew a Ha) as [Hm _]. unfold valid_header in Hv.
      rewrite Hm in Hv. done.
    + rewrite (Hold a Ha), Hclean in Hv. done.
  - intros a Ha. rewrite Hid. by destruct (Hnew a Ha).
  - intros a Ha. by eapply backing_ok_blocks.
  - done.
  - rewrite Hcnt. unfold blocks, block_addrs.
    rewrite length_fmap, length_seqZ. lia.
  - rewrite Hcnt. unfold sizeof_memory_block_t in Hh. nia.
  - rewrite Hab, length_reverse. lia.
  - by rewrite Hta.
  - by rewrite Htd.
  - rewrite Hab. lia.
Qed.

Lemma reachable_pool_inv config id base bitmap mtx mem0 pool0 mem1 ev ops :
  backing_ok config base →
  (∀ a, valid_header id (load mem0 a) = false) →
  init_memory_pool base bitmap mtx config id mem0 = (true, pool0, mem1, ev) →
  ∃ fl A D,
    pool_inv
      (block_addrs base (total_block_size_of (cfg_block_size config)) 0
         (Z.to_nat (cfg_block_count config)))
      fl A D (run_ops ops (pool0, mem1)).1 (run_ops ops (pool0, mem1)).2.
Proof.
  intros Hok Hclean Hinit.
  pose proof (init_memory_pool_inv_slots _ _ _ _ _ _ _ _ _ Hok Hclean Hinit)
    as Hinv0.
  destruct (run_ops_inv ops _ _ _ _ _ _ Hinv0) as (fl & A & D & Hinv & _).
  eauto.
Qed.

Lemma pool_step_static s op :
  mutex (pool_step s op).1 = mutex s.1 ∧
  pool_id (pool_step s op).1 = pool_id s.1 ∧
  block_size (pool_step s op).1 = block_size s.1 ∧
  pool_memory (pool_step s op).1 = pool_memory s.1.
Proof.
  destruct s as [pool mem], op as [took now|took p]; simpl.
  - unfold pool_malloc.
    destruct (mutex pool =? 0), took, (free_list pool =? 0); done.
  - unfold pool_free.
    destruct ((p =? 0) || (mutex pool =? 0)), took; try done.
    by destruct (_ && _).
Qed.

Lemma run_ops_static ops : ∀ s,
  mutex (run_ops ops s).1 = mutex s.1 ∧
  pool_id (run_ops ops s).1 = pool_id s.1 ∧
  block_size (run_ops ops s).1 = block_size s.1 ∧
  pool_memory (run_ops ops s).1 = pool_memory s.1.
Proof.
  induction ops as [|op ops IH]; intros s; [done|].
  change (run_ops (op :: ops) s) with (run_ops ops (pool_step s op)).
  destruct (IH (pool_step s op)) as (-> & -> & -> & ->).
  apply pool_step_static.
Qed.

(** X1: After a successful [init_memory_pool] the free list visits every slot of
    the buffer exactly once, last slot first; every slot is tagged
    [POOL_MAGIC_FREE] with the pool's identifier, the memory outside the
    slots is as it was, and all counters are zero. *)
Theorem init_memory_pool_threads_every_slot config id base bitmap mtx mem0
    pool0 mem1 ev :
  backing_ok config base →
  init_memory_pool base bitmap mtx config id mem0 = (true, pool0, mem1, ev) →
  let slots :=
    block_addrs base (total_block_size_of (cfg_block_size config)) 0
      (Z.to_nat (cfg_block_count config)) in
  chain mem1 (free_list pool0) (reverse slots) ∧
  NoDup slots ∧ Z.of_nat (length slots) = cfg_block_count config ∧
  (∀ a, a ∈ slots → magic (load mem1 a) = POOL_MAGIC_FREE ∧
                    block_pool_id (load mem1 a) = id) ∧
  (∀ a, a ∉ slots → load mem1 a = load mem0 a) ∧
  allocated_blocks pool0 = 0 ∧ total_allocations pool0 = 0 ∧
  total_deallocations pool0 = 0 ∧ allocation_failures pool0 = 0.
Proof.
  intros Hok Hinit slots.
  destruct (init_memory_pool_blocks _ _ _ _ _ _ _ _ _ Hok Hinit)
    as (Hchain & Hnd & Hnew & Hold).
  destruct (init_memory_pool_true _ _ _ _ _ _ _ _ _ Hinit)
    as (_ & _ & _ & _ & _ & _ & _ & _ & Hab & _ & Hta & Htd & Hfail).
  destruct Hok as (_ & Hc & _).
  repeat split; try done; try (by apply Hnew).
  unfold slots, block_addrs. rewrite length_fmap, length_seqZ. lia.
Qed.

(** The huge pool of the program. *)
Lemma init_memory_pool_threads_every_slot_witness :
  backing_ok huge_config 0x3FFC8000 ∧
  init_memory_pool 0x3FFC8000 0x3FFA0030 0x3FF90003 huge_config 4 ∅ =
    (true, huge_pool_init.1.1.2, huge_pool_init.1.2, huge_pool_init.2) ∧
  let slots :=
    block_addrs 0x3FFC8000 (total_block_size_of (cfg_block_size huge_config))
      0 (Z.to_nat (cfg_block_count huge_config)) in
  chain huge_pool_init.1.2 (free_list huge_pool_init.1.1.2) (reverse slots) ∧
  NoDup slots ∧ Z.of_nat (length slots) = cfg_block_count huge_config ∧
  (∀ a, a ∈ slots → magic (load huge_pool_init.1.2 a) = POOL_MAGIC_FREE ∧
                    block_pool_id (load huge_pool_init.1.2 a) = 4) ∧
  (∀ a, a ∉ slots → load huge_pool_init.1.2 a = load ∅ a) ∧
  allocated_blocks huge_pool_init.1.1.2 = 0 ∧
  total_allocations huge_pool_init.1.1.2 = 0 ∧
  total_deallocations huge_pool_init.1.1.2 = 0 ∧
  allocation_failures huge_pool_init.1.1.2 = 0.
Proof.
  assert (Hok : backing_ok huge_config 0x3FFC8000) by by_evaluation.
  assert (Hinit :
    init_memory_pool 0x3FFC8000 0x3FFA0030 0x3FF90003 huge_config 4 ∅ =
    (true, huge_pool_init.1.1.2, huge_pool_init.1.2, huge_pool_init.2))
    by by_evaluation.
  split; [exact Hok|]. split; [exact Hinit|].
  exact (init_memory_pool_threads_every_slot huge_config 4 0x3FFC8000
           0x3FFA0030 0x3FF90003 ∅ huge_pool_init.1.1.2 huge_pool_init.1.2
           huge_pool_init.2 Hok Hinit).
Defined.

(** ** A pool without mutex *)

Lemma pool_step_no_mutex s op : mutex s.1 = 0 → pool_step s op = s.
Proof.
  destruct s as [pool mem], op as [took now|took p]; simpl; intros Hm.
  - unfold pool_malloc. by rewrite Hm.
  - unfold pool_free. rewrite Hm. simpl. by rewrite orb_true_r.
Qed.

Lemma run_ops_no_mutex ops : ∀ s, mutex s.1 = 0 → run_ops ops s = s.
Proof.
  induction ops as [|op ops IH]; intros s Hm; [done|].
  change (run_ops (op :: ops) s) with (run_ops ops (pool_step s op)).
  rewrite pool_step_no_mutex by done. by apply IH.
Qed.

(** X2: [init_memory_pool] does not look at what [xSemaphoreCreateMutex]
    returns: when both raw allocations succeed and the mutex is [NULL] it
    still reports success, and the pool it leaves never allocates: every
    [pool_malloc] returns [NULL], every [pool_free] returns [false], and no
    sequence of calls changes the pool or the memory. *)
Theorem init_memory_pool_ignores_mutex_failure config id base bitmap mem0 :
  base ≠ 0 → bitmap ≠ 0 →
  ∃ pool0 mem1 ev,
    init_memory_pool base bitmap 0 config id mem0 = (true, pool0, mem1, ev) ∧
    (∀ took now, pool_malloc took now pool0 mem1 = (0, pool0, mem1, [])) ∧
    (∀ took p, pool_free took pool0 mem1 p = (false, pool0, mem1, [])) ∧
    (∀ ops, run_ops ops (pool0, mem1) = (pool0, mem1)).
Proof.
  intros Hb%Z.eqb_neq Hm%Z.eqb_neq.
  destruct (init_memory_pool base bitmap 0 config id mem0)
    as [[[ok pool0] mem1] ev] eqn:Hinit.
  assert (ok = true) as ->.
  { unfold init_memory_pool in Hinit. rewrite Hb, Hm in Hinit.
    destruct (init_free_list _ _ _ _ _ _ _). by injection Hinit as <-. }
  destruct (init_memory_pool_true _ _ _ _ _ _ _ _ _ Hinit)
    as (_ & _ & _ & Hmtx & _).
  exists pool0, mem1, ev. split; [done|]. split; [|split].
  - intros took now. unfold pool_malloc. by rewrite Hmtx.
  - intros took p. unfold pool_free. rewrite Hmtx. simpl.
    by rewrite orb_true_r.
  - intros ops. by apply run_ops_no_mutex.
Qed.

(** The huge pool of the program, its mutex not created. *)
Lemma init_memory_pool_ignores_mutex_failure_witness :
  0x3FFC8000 ≠ 0 ∧ 0x3FFA0030 ≠ 0 ∧
  ∃ pool0 mem1 ev,
    init_memory_pool 0x3FFC8000 0x3FFA0030 0 huge_config 4 ∅
      = (true, pool0, mem1, ev) ∧
    (∀ took now, pool_malloc took now pool0 mem1 = (0, pool0, mem1, [])) ∧
    (∀ took p, pool_free took pool0 mem1 p = (false, pool0, mem1, [])) ∧
    (∀ ops, run_ops ops (pool0, mem1) = (pool0, mem1)).
Proof.
  assert (H1 : 0x3FFC8000 ≠ 0) by discriminate.
  assert (H2 : 0x3FFA0030 ≠ 0) by discriminate.
  split; [exact H1|]. split; [exact H2|].
  exact (init_memory_pool_ignores_mutex_failure huge_config 4 0x3FFC8000
           0x3FFA0030 ∅ H1 H2).
Defined.

(** ** Runs of allocations *)

Lemma pool_malloc_n_all_taken envs : ∀ pool mem fl,
  mutex pool ≠ 0 →
  chain mem (free_list pool) fl → NoDup fl →
  (∀ a, a ∈ fl → 0 < a ∧ a + sizeof_memory_block_t < 2 ^ 32) →
  Forall (λ e, e.1 = true) envs →
  (length envs ≤ length fl)%nat →
  ∃ pool' mem',
    pool_malloc_n envs pool mem =
      ((λ a, a + sizeof_memory_block_t) <$> take (length envs) fl,
       pool', mem') ∧
    chain mem' (free_list pool') (drop (length envs) fl) ∧
    mutex pool' = mutex pool ∧
    allocated_blocks pool' =
      Nat.iter (length envs) (λ x, wrap32 (x + 1)) (allocated_blocks pool) ∧
    allocation_failures pool' = allocation_failures pool.
Proof.
  induction envs as [|[took now] envs IH];
    intros pool mem fl Hm Hc Hnd Hrange Htook Hlen.
  - exists pool, mem. simpl. by rewrite drop_0.
  - apply Forall_cons in Htook as [Ht Htook]. simpl in Ht. subst took.
    destruct fl as [|a fl]; simpl in Hlen; [lia|].
    destruct Hc as (Hhead & Ha & Hc).
    apply NoDup_cons in Hnd as [Hnin Hnd].
    simpl pool_malloc_n. unfold pool_malloc.
    apply Z.eqb_neq in Hm. rewrite Hm.
    rewrite Hhead. apply Z.eqb_neq in Ha. rewrite Ha. simpl negb. cbv iota.
    match goal with
    | |- context [pool_malloc_n envs ?p ?m] =>
        destruct (IH p m fl) as (pool' & mem' & Hrun & Hc' & Hm' & Hab & Hf)
    end; try done.
    + simpl. by apply Z.eqb_neq.
    + simpl. by apply chain_store.
    + intros b Hb. apply Hrange. by right.
    + lia.
    + rewrite Hrun. exists pool', mem'. simpl.
      rewrite wrap32_small.
      * split; [done|]. split; [done|]. split; [done|].
        split; [|done]. rewrite Hab. symmetry.
        exact (Nat.iter_succ_r (length envs) (λ x, wrap32 (x + 1))
                 (allocated_blocks pool)).
      * destruct (Hrange a) as [? ?]; [by left|].
        unfold sizeof_memory_block_t in *. lia.
Qed.

Lemma iter_wrap32_succ n x :
  0 ≤ x → x + Z.of_nat n < 2 ^ 32 →
  Nat.iter n (λ x, wrap32 (x + 1)) x = x + Z.of_nat n.
Proof.
  revert x. induction n as [|n IH]; intros x Hx Hn; simpl; [lia|].
  rewrite IH by lia. rewrite wrap32_small by lia. lia.
Qed.

(** X3: On a freshly initialised pool, [n] calls of [pool_malloc] in a row, each
    with the mutex obtained, return the payload addresses of the slots
    [K-1], [K-2], ..., [K-n], whatever [n ≤ K] is: all succeed, and the
    first allocation gets the last slot of the buffer. *)
Theorem fresh_pool_allocation_order config id base bitmap mtx mem0 pool0 mem1
    ev envs :
  backing_ok config base → mtx ≠ 0 →
  init_memory_pool base bitmap mtx config id mem0 = (true, pool0, mem1, ev) →
  Forall (λ e, e.1 = true) envs →
  Z.of_nat (length envs) ≤ cfg_block_count config →
  (pool_malloc_n envs pool0 mem1).1.1 =
    (λ a, a + sizeof_memory_block_t) <$>
      take (length envs)
        (reverse (block_addrs base
                    (total_block_size_of (cfg_block_size config)) 0
                    (Z.to_nat (cfg_block_count config)))) ∧
  allocated_blocks (pool_malloc_n envs pool0 mem1).1.2
    = Z.of_nat (length envs).
Proof.
  intros Hok Hmtx Hinit Htook Hlen.
  destruct (init_memory_pool_blocks _ _ _ _ _ _ _ _ _ Hok Hinit)
    as (Hchain & Hnd & _ & _).
  destruct (init_memory_pool_true _ _ _ _ _ _ _ _ _ Hinit)
    as (_ & _ & _ & Hm0 & _ & _ & _ & _ & Hab & _).
  set (slots := block_addrs _ _ _ _) in *.
  assert (Hslots : length slots = Z.to_nat (cfg_block_count config)).
  { unfold slots, block_addrs. by rewrite length_fmap, length_seqZ, Nat2Z.id. }
  destruct (pool_malloc_n_all_taken envs pool0 mem1 (reverse slots))
    as (pool' & mem' & Hrun & _ & _ & Hab' & _); try done.
  - congruence.
  - by rewrite reverse_Permutation.
  - intros a Ha. rewrite elem_of_reverse in Ha. by eapply backing_ok_blocks.
  - rewrite length_reverse. lia.
  - rewrite Hrun. simpl. split; [done|].
    rewrite Hab', Hab, iter_wrap32_succ; try lia.
    destruct Hok as (? & ? & Hh & Hfit). unfold sizeof_memory_block_t in Hh.
    nia.
Qed.

(** Three allocations from the huge pool of the program. *)
Lemma fresh_pool_allocation_order_witness :
  let envs := replicate 3 (true, 5) in
  backing_ok huge_config 0x3FFC8000 ∧ 0x3FF90003 ≠ 0 ∧
  init_memory_pool 0x3FFC8000 0x3FFA0030 0x3FF90003 huge_config 4 ∅ =
    (true, huge_pool_init.1.1.2, huge_pool_init.1.2, huge_pool_init.2) ∧
  Forall (λ e : bool * Z, e.1 = true) envs ∧
  Z.of_nat (length envs) ≤ cfg_block_count huge_config ∧
  (pool_malloc_n envs huge_pool_init.1.1.2 huge_pool_init.1.2).1.1 =
    (λ a, a + sizeof_memory_block_t) <$>
      take (length envs)
        (reverse (block_addrs 0x3FFC8000
                    (total_block_size_of (cfg_block_size huge_config)) 0
                    (Z.to_nat (cfg_block_count huge_config)))) ∧
  allocated_blocks
    (pool_malloc_n envs huge_pool_init.1.1.2 huge_pool_init.1.2).1.2
    = Z.of_nat (length envs).
Proof.
  intros envs.
  assert (Hok : backing_ok huge_config 0x3FFC8000) by by_evaluation.
  assert (Hinit :
    init_memory_pool 0x3FFC8000 0x3FFA0030 0x3FF90003 huge_config 4 ∅ =
    (true, huge_pool_init.1.1.2, huge_pool_init.1.2, huge_pool_init.2))
    by by_evaluation.
  assert (Hmtx : 0x3FF90003 ≠ 0) by discriminate.
  assert (Hall : Forall (λ e : bool * Z, e.1 = true) envs)
    by (repeat constructor).
  assert (Hlen : Z.of_nat (length envs) ≤ cfg_block_count huge_config)
    by (vm_compute; discriminate).
  split; [exact Hok|]. split; [exact Hmtx|]. split; [exact Hinit|].
  split; [exact Hall|]. split; [exact Hlen|].
  exact (fresh_pool_allocation_order huge_config 4 0x3FFC8000 0x3FFA0030
           0x3FF90003 ∅ huge_pool_init.1.1.2 huge_pool_init.1.2
           huge_pool_init.2 envs Hok Hmtx Hinit Hall Hlen).
Defined.

(** X4: In every state a pool reaches from initialisation by allocations and
    by releases of [NULL] or of block pointers, [pool_malloc] never hands
    out a block twice: as long as free blocks remain, the calls of a
    run (mutex obtained) all succeed and return pointers that are pairwise
    distinct, not [NULL], each the payload address of a slot of the pool
    whose header was not tagged as allocated before the run. *)
Theorem pool_malloc_n_distinct_slots config id base bitmap mtx mem0 pool0 mem1
    ev ops envs :
  backing_ok config base → mtx ≠ 0 →
  (∀ a, valid_header id (load mem0 a) = false) →
  init_memory_pool base bitmap mtx config id mem0 = (true, pool0, mem1, ev) →
  frees_block_pointers config base ops →
  let s := run_ops ops (pool0, mem1) in
  Forall (λ e, e.1 = true) envs →
  Z.of_nat (length envs) ≤ block_count s.1 - allocated_blocks s.1 →
  let ptrs := (pool_malloc_n envs s.1 s.2).1.1 in
  length ptrs = length envs ∧ NoDup ptrs ∧
  ∀ p, p ∈ ptrs →
    p ≠ 0 ∧
    p - sizeof_memory_block_t ∈
      block_addrs base (total_block_size_of (cfg_block_size config)) 0
        (Z.to_nat (cfg_block_count config)) ∧
    magic (load s.2 (p - sizeof_memory_block_t)) ≠ POOL_MAGIC_ALLOC.
Proof.
  intros Hok Hmtx Hclean Hinit _ s Htook Hlen ptrs.
  destruct (reachable_pool_inv _ _ _ _ _ _ _ _ _ ops Hok Hclean Hinit)
    as (fl & A & D & Hinv).
  fold s in Hinv.
  destruct (run_ops_static ops (pool0, mem1)) as (Hm & _). fold s in Hm.
  destruct (init_memory_pool_true _ _ _ _ _ _ _ _ _ Hinit)
    as (_ & _ & _ & Hm0 & _).
  simpl in Hm. rewrite Hm0 in Hm.
  pose proof Hinv as [Hc Hnd Hfree _ _ Hrange _ Hcnt _ Hab _ _ _].
  destruct (pool_malloc_n_all_taken envs s.1 s.2 fl)
    as (pool' & mem' & Hrun & _); try done; try congruence.
  - intros a Ha. apply Hrange. by apply Hfree.
  - lia.
  - unfold ptrs. rewrite Hrun. simpl.
    split; [|split].
    + rewrite length_fmap, length_take. lia.
    + apply NoDup_fmap_2_strong; [intros x y _ _; lia|].
      eapply sublist_NoDup; [done|apply sublist_take].
    + intros p (a & -> & Ha)%list_elem_of_fmap.
      apply elem_of_take in Ha as (i & Ha%list_elem_of_lookup_2 & _).
      destruct (Hfree a Ha) as [Hin Hmagic].
      destruct (Hrange a Hin).
      replace (a + sizeof_memory_block_t - sizeof_memory_block_t) with a
        by lia.
      repeat split; try done. unfold sizeof_memory_block_t. lia.
Qed.

(** The huge pool of the program after two allocations and a release, then
    three allocations in a row. *)
Lemma pool_malloc_n_distinct_slots_witness :
  let ops := [op_malloc true 1; op_malloc true 2; op_free true 0x3FFCB060] in
  let envs := replicate 3 (true, 5) in
  backing_ok huge_config 0x3FFC8000 ∧ 0x3FF90003 ≠ 0 ∧
  (∀ a, valid_header 4 (load ∅ a) = false) ∧
  init_memory_pool 0x3FFC8000 0x3FFA0030 0x3FF90003 huge_config 4 ∅ =
    (true, huge_pool_init.1.1.2, huge_pool_init.1.2, huge_pool_init.2) ∧
  frees_block_pointers huge_config 0x3FFC8000 ops ∧
  let s := run_ops ops (huge_pool_init.1.1.2, huge_pool_init.1.2) in
  Forall (λ e : bool * Z, e.1 = true) envs ∧
  Z.of_nat (length envs) ≤ block_count s.1 - allocated_blocks s.1 ∧
  let ptrs := (pool_malloc_n envs s.1 s.2).1.1 in
  length ptrs = length envs ∧ NoDup ptrs ∧
  ∀ p, p ∈ ptrs →
    p ≠ 0 ∧
    p - sizeof_memory_block_t ∈
      block_addrs 0x3FFC8000
        (total_block_size_of (cfg_block_size huge_config)) 0
        (Z.to_nat (cfg_block_count huge_config)) ∧
    magic (load s.2 (p - sizeof_memory_block_t)) ≠ POOL_MAGIC_ALLOC.
Proof.
  intros ops envs.
  assert (Hok : backing_ok huge_config 0x3FFC8000) by by_evaluation.
  assert (Hinit :
    init_memory_pool 0x3FFC8000 0x3FFA0030 0x3FF90003 huge_config 4 ∅ =
    (true, huge_pool_init.1.1.2, huge_pool_init.1.2, huge_pool_init.2))
    by by_evaluation.
  assert (Hmtx : 0x3FF90003 ≠ 0) by discriminate.
  split; [exact Hok|]. split; [exact Hmtx|].
  assert (Hfrees : frees_block_pointers huge_config 0x3FFC8000 ops)
    by (unfold frees_block_pointers, ops; block_pointers).
  split; [exact (empty_memory_clean 4)|]. split; [exact Hinit|].
  split; [exact Hfrees|].
  intros s.
  assert (Hall : Forall (λ e : bool * Z, e.1 = true) envs)
    by (repeat constructor).
  assert (Hlen : Z.of_nat (length envs)
                 ≤ block_count s.1 - allocated_blocks s.1)
    by (vm_compute; discriminate).
  split; [exact Hall|]. split; [exact Hlen|].
  exact (pool_malloc_n_distinct_slots huge_config 4 0x3FFC8000 0x3FFA0030
           0x3FF90003 ∅ huge_pool_init.1.1.2 huge_pool_init.1.2
           huge_pool_init.2 ops envs Hok Hmtx (empty_memory_clean 4) Hinit
           Hfrees Hall Hlen).
Defined.
(** ** Integrity of the free list *)

Lemma chain_unique mem : ∀ l1 l2 head,
  chain mem head l1 → chain mem head l2 → l1 = l2.
Proof.
  induction l1 as [|a l1 IH]; intros [|b l2] head; simpl.
  - done.
  - intros -> (<- & ? & _). done.
  - intros (<- & ? & _) ->. done.
  - intros (<- & _ & H1) (<- & _ & H2). f_equal. by eapply IH.
Qed.

Lemma pool_step_tags blocks fl A D s op :
  pool_inv blocks fl A D s.1 s.2 →
  (∀ a, a ∈ blocks → a ∉ fl → valid_header (pool_id s.1) (load s.2 a) = true) →
  ∀ fl' A' D',
    pool_inv blocks fl' A' D' (pool_step s op).1 (pool_step s op).2 →
    ∀ a, a ∈ blocks → a ∉ fl' →
         valid_header (pool_id (pool_step s op).1)
           (load (pool_step s op).2 a) = true.
Proof.
  destruct s as [pool mem]. simpl fst. simpl snd.
  intros Hinv Htags fl' A' D' Hinv'.
  assert (Hsame : ∀ pool', free_list pool' = free_list pool →
            pool_id pool' = pool_id pool →
            pool_inv blocks fl' A' D' pool' mem →
            ∀ a, a ∈ blocks → a ∉ fl' →
                 valid_header (pool_id pool') (load mem a) = true).
  { intros pool' Hfl Hid Hi a Ha Hnin. rewrite Hid.
    assert (fl' = fl) as ->; [|by apply Htags].
    eapply chain_unique; [apply Hi|]. rewrite Hfl. apply Hinv. }
  destruct op as [took now|took p]; simpl in *.
  - unfold pool_malloc in *.
    destruct (mutex pool =? 0); [by apply Hsame|].
    destruct took; [|by apply Hsame].
    destruct (free_list pool =? 0) eqn:Hnull; simpl negb in *;
      cbv iota in *; [by apply Hsame|].
    apply Z.eqb_neq in Hnull.
    destruct (chain_nonnull _ _ _ Hnull (inv_chain _ _ _ _ _ _ Hinv))
      as (fl1 & -> & Hc).
    pose proof (inv_nodup _ _ _ _ _ _ Hinv) as [Hnin Hnd]%NoDup_cons.
    assert (fl' = fl1) as ->.
    { eapply chain_unique; [apply Hinv'|]. simpl. by apply chain_store. }
    intros a Ha Hna. simpl.
    destruct (decide (a = free_list pool)) as [->|Hne].
    + rewrite load_store_eq. unfold valid_header. simpl.
      rewrite (inv_owner _ _ _ _ _ _ Hinv _ Ha), !Z.eqb_refl. done.
    + rewrite load_store_ne by done. apply Htags; [done|].
      intros [?|?]%elem_of_cons; done.
  - unfold pool_free in *.
    destruct ((p =? 0) || (mutex pool =? 0)); [by apply Hsame|].
    destruct took; [|by apply Hsame].
    set (block := wrap32 (p - sizeof_memory_block_t)) in *.
    fold (valid_header (pool_id pool) (load mem block)) in *.
    destruct (valid_header _ _) eqn:Hv; [|by apply Hsame].
    destruct (inv_live _ _ _ _ _ _ Hinv block Hv) as [Hin Hnin].
    assert (fl' = block :: fl) as ->.
    { eapply chain_unique; [apply Hinv'|]. simpl.
      destruct (inv_range _ _ _ _ _ _ Hinv block Hin).
      repeat split; [lia|]. rewrite load_store_eq. simpl.
      apply chain_store; [done|apply Hinv]. }
    intros a Ha [Hne Hna]%not_elem_of_cons. simpl.
    rewrite load_store_ne by done. by apply Htags.
Qed.

Lemma run_ops_tags ops : ∀ blocks fl A D s,
  pool_inv blocks fl A D s.1 s.2 →
  (∀ a, a ∈ blocks → a ∉ fl → valid_header (pool_id s.1) (load s.2 a) = true) →
  ∃ fl' A' D',
    pool_inv blocks fl' A' D' (run_ops ops s).1 (run_ops ops s).2 ∧
    ∀ a, a ∈ blocks → a ∉ fl' →
         valid_header (pool_id (run_ops ops s).1) (load (run_ops ops s).2 a)
           = true.
Proof.
  induction ops as [|op ops IH]; intros blocks fl A D s Hinv Htags.
  - by exists fl, A, D.
  - change (run_ops (op :: ops) s) with (run_ops ops (pool_step s op)).
    assert (∃ fl1 A1 D1,
              pool_inv blocks fl1 A1 D1 (pool_step s op).1 (pool_step s op).2)
      as (fl1 & A1 & D1 & Hinv1).
    { destruct s as [pool mem], op as [took now|took p].
      - destruct (pool_malloc_inv _ _ _ _ _ _ took now Hinv)
          as (fl1 & A1 & ? & _). eauto.
      - destruct (pool_free_inv _ _ _ _ _ _ took p Hinv)
          as (fl1 & D1 & ? & _). eauto. }
    apply (IH _ _ _ _ _ Hinv1).
    by eapply pool_step_tags.
Qed.

(** X5: In every state a pool reaches from initialisation by allocations and
    by releases of [NULL] or of block pointers the free list is sound:
    following [next] from the head visits [block_count -
    allocated_blocks] slots of the pool, without repetition, and ends in
    [NULL]; and a slot of the pool is on the free list exactly when its
    header is not tagged [POOL_MAGIC_ALLOC]. *)
Theorem free_list_integrity config id base bitmap mtx mem0 pool0 mem1 ev ops :
  backing_ok config base →
  (∀ a, valid_header id (load mem0 a) = false) →
  init_memory_pool base bitmap mtx config id mem0 = (true, pool0, mem1, ev) →
  frees_block_pointers config base ops →
  let s := run_ops ops (pool0, mem1) in
  let slots :=
    block_addrs base (total_block_size_of (cfg_block_size config)) 0
      (Z.to_nat (cfg_block_count config)) in
  ∃ fl,
    chain s.2 (free_list s.1) fl ∧ NoDup fl ∧
    Z.of_nat (length fl) = block_count s.1 - allocated_blocks s.1 ∧
    (∀ a, a ∈ fl → a ∈ slots) ∧
    (∀ a, a ∈ slots → (a ∈ fl ↔ magic (load s.2 a) ≠ POOL_MAGIC_ALLOC)).
Proof.
  intros Hok Hclean Hinit _ s slots.
  pose proof (init_memory_pool_inv_slots _ _ _ _ _ _ _ _ _ Hok Hclean Hinit)
    as Hinv0.
  destruct (run_ops_tags ops _ _ _ _ (pool0, mem1) Hinv0)
    as (fl & A & D & Hinv & Htags).
  { intros a Ha Hna. rewrite elem_of_reverse in Hna. done. }
  fold s in Hinv, Htags. fold slots in Hinv, Htags.
  exists fl. destruct Hinv as [Hc Hnd Hfree _ _ _ _ Hcnt _ Hab _ _ _].
  split; [done|]. split; [done|]. split; [lia|]. split.
  - intros a Ha. by apply Hfree.
  - intros a Ha. split.
    + intros Hin. by apply Hfree.
    + intros Hm. destruct (decide (a ∈ fl)) as [|Hnin]; [done|].
      specialize (Htags a Ha Hnin). unfold valid_header in Htags.
      apply andb_true_iff in Htags as [Hmagic%Z.eqb_eq _]. done.
Qed.

(** The huge pool of the program after two allocations, a release, a
    second release of the same block and an allocation without the mutex. *)
Lemma free_list_integrity_witness :
  let ops := [op_malloc true 1; op_malloc true 2; op_free true 0x3FFCB060;
              op_free true 0x3FFCB060; op_malloc false 3] in
  backing_ok huge_config 0x3FFC8000 ∧
  (∀ a, valid_header 4 (load ∅ a) = false) ∧
  init_memory_pool 0x3FFC8000 0x3FFA0030 0x3FF90003 huge_config 4 ∅ =
    (true, huge_pool_init.1.1.2, huge_pool_init.1.2, huge_pool_init.2) ∧
  frees_block_pointers huge_config 0x3FFC8000 ops ∧
  let s := run_ops ops (huge_pool_init.1.1.2, huge_pool_init.1.2) in
  let slots :=
    block_addrs 0x3FFC8000 (total_block_size_of (cfg_block_size huge_config))
      0 (Z.to_nat (cfg_block_count huge_config)) in
  ∃ fl,
    chain s.2 (free_list s.1) fl ∧ NoDup fl ∧
    Z.of_nat (length fl) = block_count s.1 - allocated_blocks s.1 ∧
    (∀ a, a ∈ fl → a ∈ slots) ∧
    (∀ a, a ∈ slots → (a ∈ fl ↔ magic (load s.2 a) ≠ POOL_MAGIC_ALLOC)).
Proof.
  intros ops.
  assert (Hok : backing_ok huge_config 0x3FFC8000) by by_evaluation.
  assert (Hinit :
    init_memory_pool 0x3FFC8000 0x3FFA0030 0x3FF90003 huge_config 4 ∅ =
    (true, huge_pool_init.1.1.2, huge_pool_init.1.2, huge_pool_init.2))
    by by_evaluation.
  assert (Hfrees : frees_block_pointers huge_config 0x3FFC8000 ops)
    by (unfold frees_block_pointers, ops; block_pointers).
  split; [exact Hok|]. split; [exact (empty_memory_clean 4)|].
  split; [exact Hinit|]. split; [exact Hfrees|].
  exact (free_list_integrity huge_config 4 0x3FFC8000 0x3FFA0030 0x3FF90003 ∅
           huge_pool_init.1.1.2 huge_pool_init.1.2 huge_pool_init.2 ops
           Hok (empty_memory_clean 4) Hinit Hfrees).
Defined.

(** X6: In every state a pool reaches from initialisation by allocations and
    by releases of [NULL] or of block pointers, a block that [pool_malloc]
    hands out can be given back at once: the [pool_free] of
    the returned pointer is accepted, and the pair leaves the free list (the
    same slots in the same order) and [allocated_blocks] as they were, each
    of the two totals being one higher. *)
Theorem pool_malloc_free_round_trip config id base bitmap mtx mem0 pool0 mem1
    ev ops now p pool' mem' ev' :
  backing_ok config base →
  (∀ a, valid_header id (load mem0 a) = false) →
  init_memory_pool base bitmap mtx config id mem0 = (true, pool0, mem1, ev) →
  frees_block_pointers config base ops →
  let s := run_ops ops (pool0, mem1) in
  pool_malloc true now s.1 s.2 = (p, pool', mem', ev') → p ≠ 0 →
  ∃ pool'' mem'' fl,
    pool_free true pool' mem' p = (true, pool'', mem'', []) ∧
    chain s.2 (free_list s.1) fl ∧ chain mem'' (free_list pool'') fl ∧
    free_list pool'' = free_list s.1 ∧
    allocated_blocks pool'' = allocated_blocks s.1 ∧
    total_allocations pool'' = wrap64 (total_allocations s.1 + 1) ∧
    total_deallocations pool'' = wrap64 (total_deallocations s.1 + 1).
Proof.
  intros Hok Hclean Hinit _ s Hmalloc Hp.
  destruct (reachable_pool_inv _ _ _ _ _ _ _ _ _ ops Hok Hclean Hinit)
    as (fl & A & D & Hinv).
  fold s in Hinv. destruct s as [pool mem]. simpl in *.
  pose proof (pool_inv_free_le _ _ _ _ _ _ Hinv) as Hle.
  unfold pool_malloc in Hmalloc.
  destruct (mutex pool =? 0) eqn:Hm; [by injection Hmalloc as <-|].
  destruct (free_list pool =? 0) eqn:Hnull; simpl negb in Hmalloc;
    cbv iota in Hmalloc; [by injection Hmalloc as <-|].
  apply Z.eqb_neq in Hnull.
  destruct (chain_nonnull _ _ _ Hnull (inv_chain _ _ _ _ _ _ Hinv))
    as (fl1 & -> & Hc).
  pose proof (inv_nodup _ _ _ _ _ _ Hinv) as [Hnin Hnd]%NoDup_cons.
  destruct (inv_free _ _ _ _ _ _ Hinv (free_list pool)) as [Hin _];
    [by left|].
  destruct (inv_range _ _ _ _ _ _ Hinv _ Hin) as [Hpos Hfit].
  pose proof (inv_owner _ _ _ _ _ _ Hinv _ Hin) as Hown.
  destruct Hinv as [_ _ _ _ _ _ _ Hcnt Hc32 Hab _ _ _].
  simpl length in Hab, Hle.
  injection Hmalloc as <- <- <- _.
  unfold pool_free. simpl mutex. rewrite Hm.
  rewrite wrap32_small by (unfold sizeof_memory_block_t in *; lia).
  destruct (free_list pool + sizeof_memory_block_t =? 0) eqn:Hz;
    [apply Z.eqb_eq in Hz; unfold sizeof_memory_block_t in *; lia|].
  simpl orb. cbv iota.
  replace (free_list pool + sizeof_memory_block_t - sizeof_memory_block_t)
    with (free_list pool) by lia.
  rewrite (wrap32_small (free_list pool))
    by (unfold sizeof_memory_block_t in *; lia).
  rewrite load_store_eq. simpl.
  rewrite Hown, !Z.eqb_refl. simpl.
  eexists _, _, (free_list pool :: fl1).
  split; [reflexivity|]. simpl.
  split; [done|]. split.
  { repeat split; [done|]. rewrite load_store_eq. simpl.
    apply chain_store; [done|]. by apply chain_store. }
  split; [done|]. split; [|done].
  rewrite (wrap32_small (allocated_blocks pool + 1)) by lia.
  rewrite wrap32_small by lia. lia.
Qed.

(** The huge pool of the program after two allocations and a release: one
    more allocation, released at once. *)
Lemma pool_malloc_free_round_trip_witness :
  let ops := [op_malloc true 1; op_malloc true 2; op_free true 0x3FFCB060] in
  backing_ok huge_config 0x3FFC8000 ∧
  (∀ a, valid_header 4 (load ∅ a) = false) ∧
  init_memory_pool 0x3FFC8000 0x3FFA0030 0x3FF90003 huge_config 4 ∅ =
    (true, huge_pool_init.1.1.2, huge_pool_init.1.2, huge_pool_init.2) ∧
  frees_block_pointers huge_config 0x3FFC8000 ops ∧
  let s := run_ops ops (huge_pool_init.1.1.2, huge_pool_init.1.2) in
  let r := pool_malloc true 7 s.1 s.2 in
  pool_malloc true 7 s.1 s.2 = (r.1.1.1, r.1.1.2, r.1.2, r.2) ∧
  r.1.1.1 ≠ 0 ∧
  ∃ pool'' mem'' fl,
    pool_free true r.1.1.2 r.1.2 r.1.1.1 = (true, pool'', mem'', []) ∧
    chain s.2 (free_list s.1) fl ∧ chain mem'' (free_list pool'') fl ∧
    free_list pool'' = free_list s.1 ∧
    allocated_blocks pool'' = allocated_blocks s.1 ∧
    total_allocations pool'' = wrap64 (total_allocations s.1 + 1) ∧
    total_deallocations pool'' = wrap64 (total_deallocations s.1 + 1).
Proof.
  intros ops.
  assert (Hok : backing_ok huge_config 0x3FFC8000) by by_evaluation.
  assert (Hinit :
    init_memory_pool 0x3FFC8000 0x3FFA0030 0x3FF90003 huge_config 4 ∅ =
    (true, huge_pool_init.1.1.2, huge_pool_init.1.2, huge_pool_init.2))
    by by_evaluation.
  assert (Hfrees : frees_block_pointers huge_config 0x3FFC8000 ops)
    by (unfold frees_block_pointers, ops; block_pointers).
  split; [exact Hok|]. split; [exact (empty_memory_clean 4)|].
  split; [exact Hinit|]. split; [exact Hfrees|].
  intros s r.
  assert (Hm : pool_malloc true 7 s.1 s.2 = (r.1.1.1, r.1.1.2, r.1.2, r.2))
    by by_evaluation.
  assert (Hp : r.1.1.1 ≠ 0) by (vm_compute; discriminate).
  split; [exact Hm|]. split; [exact Hp|].
  exact (pool_malloc_free_round_trip huge_config 4 0x3FFC8000 0x3FFA0030
           0x3FF90003 ∅ huge_pool_init.1.1.2 huge_pool_init.1.2
           huge_pool_init.2 ops 7 r.1.1.1 r.1.1.2 r.1.2 r.2
           Hok (empty_memory_clean 4) Hinit Hfrees Hm Hp).
Defined.

(** ** More on the dispatcher *)

Lemma smart_pool_free_loop_spec take p : ∀ pools i mem,
  let '(r, pools', mem', ev) := smart_pool_free_loop take i pools mem p in
  raw_frees ev = [] ∧
  (r = false → pools' = pools ∧ mem' = mem ∧ ev = []) ∧
  (r = false ↔ p = 0 ∨ Forall (λ q, mutex q = 0) pools ∨ pools = []).
Proof.
  induction pools as [|q rest IH]; intros i mem.
  - simpl. repeat split; auto.
  - simpl smart_pool_free_loop. unfold pool_free.
    destruct (p =? 0) eqn:Hp; simpl orb; cbv iota.
    + apply Z.eqb_eq in Hp.
      specialize (IH (S i) mem).
      destruct (smart_pool_free_loop take (S i) rest mem p)
        as [[[r ps] m] e].
      destruct IH as (Hraw & Hsame & Hiff).
      assert (r = false) as -> by (apply Hiff; by left).
      destruct (Hsame eq_refl) as (-> & -> & ->).
      repeat split; auto.
    + destruct (mutex q =? 0) eqn:Hm; cbv iota.
      * apply Z.eqb_eq in Hm. specialize (IH (S i) mem).
        destruct (smart_pool_free_loop take (S i) rest mem p)
          as [[[r ps] m] e].
        destruct IH as (Hraw & Hsame & Hiff).
        split; [done|]. split.
        { intros Hr. destruct (Hsame Hr) as (-> & -> & ->). done. }
        rewrite Hiff. apply Z.eqb_neq in Hp. split.
        -- intros [?|[Hall| ->]]; [done| |].
           ++ right. left. by constructor.
           ++ right. left. by constructor.
        -- intros [?|[Hall|?]]; [done| |done].
           apply Forall_cons in Hall as [_ Hall]. right. by left.
      * apply Z.eqb_neq in Hm, Hp.
        assert (Hno : ¬ (p = 0 ∨ Forall (λ q, mutex q = 0) (q :: rest)
                          ∨ q :: rest = [])).
        { intros [?|[Hall|?]]; [done| |done].
          by apply Forall_cons in Hall as [? _]. }
        destruct (take i); [|by repeat split].
        destruct (_ && _); by repeat split.
Qed.

(** X7: [smart_pool_free] calls [heap_caps_free] exactly when the pointer is
    [NULL] or no pool has a mutex (the pools are not initialised), and then
    it calls it once, on the pointer, and leaves every pool and the memory as
    they were; in every other case the raw heap is not called. *)
Theorem smart_pool_free_raw_heap_iff take pools mem p :
  let '(r, pools', mem', ev) := smart_pool_free take pools mem p in
  r = true ∧
  (p = 0 ∨ Forall (λ q, mutex q = 0) pools →
   pools' = pools ∧ mem' = mem ∧ ev = [heap_caps_free p]) ∧
  (p ≠ 0 → Exists (λ q, mutex q ≠ 0) pools → raw_frees ev = []).
Proof.
  unfold smart_pool_free.
  pose proof (smart_pool_free_loop_spec take p pools 0%nat mem) as Hloop.
  destruct (smart_pool_free_loop take 0 pools mem p) as [[[r ps] m] e].
  destruct Hloop as (Hraw & Hsame & Hiff).
  destruct r.
  - split; [done|]. split; [|done].
    intros Hcase. assert (true = false); [|done].
    apply Hiff. destruct Hcase; auto.
  - destruct (Hsame eq_refl) as (-> & -> & ->).
    split; [done|]. split; [done|].
    intros Hp Hex. exfalso.
    destruct (proj1 Hiff eq_refl) as [?|[Hall| ->]]; [done| |].
    + apply Exists_exists in Hex as (q & Hq & Hm).
      rewrite Forall_forall in Hall. by apply Hm, Hall.
    + by apply Exists_nil in Hex.
Qed.

Lemma smart_pool_malloc_loop_unfit take now required : ∀ pools i mem,
  Forall (λ q, block_size q < required) pools →
  smart_pool_malloc_loop take now required i pools mem = (None, pools, mem, []).
Proof.
  induction pools as [|q rest IH]; intros i mem Hall; [done|].
  apply Forall_cons in Hall as [Hq Hall]. simpl.
  apply Z.leb_gt in Hq. rewrite Hq. by rewrite IH.
Qed.

(** X8: A request that no size class can hold (every [block_size] is below
    [size + 16], computed on 32 bits) goes to the raw heap at once: the
    pools and the memory are untouched, no failure is counted, and the
    pointer of [heap_caps_malloc] is returned, [NULL] included. *)
Theorem smart_pool_malloc_oversize take now raw pools mem size :
  Forall (λ q, block_size q < wrap32 (size + 16)) pools →
  smart_pool_malloc take now raw pools mem size =
    (raw, pools, mem, [heap_caps_malloc size MALLOC_CAP_DEFAULT raw]).
Proof.
  intros Hall. unfold smart_pool_malloc.
  by rewrite smart_pool_malloc_loop_unfit.
Qed.

(** A request for 2000 bytes on the three size classes 64, 256 and 1024. *)
Lemma smart_pool_malloc_oversize_witness :
  Forall (λ q, block_size q < wrap32 (2000 + 16)) booted3.1 ∧
  smart_pool_malloc always_taken 77 0x3FFE0000 booted3.1 booted3.2 2000 =
    (0x3FFE0000, booted3.1, booted3.2,
     [heap_caps_malloc 2000 MALLOC_CAP_DEFAULT 0x3FFE0000]).
Proof.
  assert (Hall : Forall (λ q, block_size q < wrap32 (2000 + 16)) booted3.1)
    by (vm_compute; repeat constructor).
  split; [exact Hall|].
  exact (smart_pool_malloc_oversize always_taken 77 0x3FFE0000 booted3.1
           booted3.2 2000 Hall).
Defined.

(** X9: The sum [size + 16] is computed on 32 bits: a request for one of the
    sixteen largest sizes wraps to a requirement below 16 bytes and is served
    by the first pool if that has a free block, blocks of 16 bytes being
    enough for it; the raw heap is not asked. *)
Theorem smart_pool_malloc_size_wraps take now raw q rest mem size :
  2 ^ 32 - 16 ≤ size < 2 ^ 32 →
  16 ≤ block_size q → mutex q ≠ 0 → take 0%nat = true →
  0 < free_list q → free_list q + sizeof_memory_block_t < 2 ^ 32 →
  (smart_pool_malloc take now raw (q :: rest) mem size).1.1.1
    = free_list q + sizeof_memory_block_t ∧
  raw_mallocs (smart_pool_malloc take now raw (q :: rest) mem size).2 = [].
Proof.
  intros Hsize Hbs Hm Htake Hfl Hfit.
  assert (Hreq : wrap32 (size + 16) = size + 16 - 2 ^ 32).
  { unfold wrap32. symmetry. apply (Z.mod_unique _ _ 1); lia. }
  unfold smart_pool_malloc. rewrite Hreq. simpl smart_pool_malloc_loop.
  destruct (size + 16 - 2 ^ 32 <=? block_size q) eqn:Hle;
    [|apply Z.leb_gt in Hle; lia].
  unfold pool_malloc. rewrite Htake.
  apply Z.eqb_neq in Hm. rewrite Hm.
  destruct (free_list q =? 0) eqn:Hz; [apply Z.eqb_eq in Hz; lia|].
  simpl negb. cbv iota.
  rewrite wrap32_small by (unfold sizeof_memory_block_t in *; lia).
  destruct (free_list q + sizeof_memory_block_t =? 0) eqn:Hz';
    [apply Z.eqb_eq in Hz'; unfold sizeof_memory_block_t in *; lia|].
  simpl. repeat split; try done.
Qed.

(** A request for 2^32 - 16 bytes on the small pool of the program. *)
Lemma smart_pool_malloc_size_wraps_witness :
  let q := small_pool_init.1.1.2 in
  let mem := small_pool_init.1.2 in
  2 ^ 32 - 16 ≤ 4294967280 < 2 ^ 32 ∧
  16 ≤ block_size q ∧ mutex q ≠ 0 ∧ always_taken 0%nat = true ∧
  0 < free_list q ∧ free_list q + sizeof_memory_block_t < 2 ^ 32 ∧
  (smart_pool_malloc always_taken 77 0x3FFE0000 [q] mem 4294967280).1.1.1
    = free_list q + sizeof_memory_block_t ∧
  raw_mallocs
    (smart_pool_malloc always_taken 77 0x3FFE0000 [q] mem 4294967280).2 = [].
Proof.
  intros q mem.
  assert (H1 : 2 ^ 32 - 16 ≤ 4294967280 < 2 ^ 32) by (split; [discriminate|reflexivity]).
  assert (H2 : 16 ≤ block_size q) by (vm_compute; discriminate).
  assert (H3 : mutex q ≠ 0) by by_evaluation.
  assert (H4 : always_taken 0%nat = true) by reflexivity.
  assert (H5 : 0 < free_list q) by by_evaluation.
  assert (H6 : free_list q + sizeof_memory_block_t < 2 ^ 32) by by_evaluation.
  split; [exact H1|]. split; [exact H2|]. split; [exact H3|].
  split; [exact H4|]. split; [exact H5|]. split; [exact H6|].
  exact (smart_pool_malloc_size_wraps always_taken 77 0x3FFE0000 q [] mem
           4294967280 H1 H2 H3 H4 H5 H6).
Defined.
(** ** The stress task *)

Lemma pool_free_total_allocations took pool mem p :
  total_allocations (pool_free took pool mem p).1.1.2 = total_allocations pool ∧
  raw_mallocs (pool_free took pool mem p).2 = [].
Proof.
  unfold pool_free.
  destruct ((p =? 0) || (mutex pool =? 0)), took; try done.
  by destruct (_ && _).
Qed.

Lemma smart_pool_free_loop_total_allocations take p : ∀ pools i mem,
  total_allocations <$> (smart_pool_free_loop take i pools mem p).1.1.2
    = total_allocations <$> pools ∧
  raw_mallocs (smart_pool_free_loop take i pools mem p).2 = [].
Proof.
  induction pools as [|q rest IH]; intros i mem; [done|].
  simpl smart_pool_free_loop.
  destruct (pool_free_total_allocations (take i) q mem p) as [Hq Hev].
  destruct (pool_free (take i) q mem p) as [[[ok q'] mem'] ev].
  simpl in Hq, Hev. destruct ok; simpl.
  - by rewrite Hq.
  - specialize (IH (S i) mem').
    destruct (smart_pool_free_loop take (S i) rest mem' p)
      as [[[r ps] m] e]. destruct IH as [IH He]. simpl in IH, He |- *.
    rewrite Hq. split; [by f_equal|].
    unfold raw_mallocs in *. by rewrite omap_app, Hev, He.
Qed.

Lemma smart_pool_free_total_allocations take pools mem p :
  total_allocations <$> (smart_pool_free take pools mem p).1.1.2
    = total_allocations <$> pools ∧
  raw_mallocs (smart_pool_free take pools mem p).2 = [].
Proof.
  unfold smart_pool_free.
  destruct (smart_pool_free_loop_total_allocations take p pools 0%nat mem)
    as [Hp Hev].
  destruct (smart_pool_free_loop take 0 pools mem p) as [[[r ps] m] e].
  simpl in *. destruct r; simpl; [done|]. split; [done|].
  unfold raw_mallocs in *. by rewrite omap_app, Hev.
Qed.

Lemma pool_stress_turn_count r1 r2 take now raw ptrs count pools mem :
  0 ≤ count ≤ STRESS_SLOTS → length ptrs = Z.to_nat STRESS_SLOTS →
  (∀ i, (Z.to_nat count ≤ i)%nat → (i < Z.to_nat STRESS_SLOTS)%nat →
        ptrs !! i = Some 0) →
  let '(ptrs', count', _, _, _) :=
    pool_stress_turn r1 r2 take now raw ptrs count pools mem in
  0 ≤ count' ≤ STRESS_SLOTS ∧ count ≤ count' ≤ count + 1 ∧
  length ptrs' = Z.to_nat STRESS_SLOTS ∧
  (∀ i, (Z.to_nat count' ≤ i)%nat → (i < Z.to_nat STRESS_SLOTS)%nat →
        ptrs' !! i = Some 0).
Proof.
  intros Hcount Hlen Hnull. unfold pool_stress_turn.
  destruct ((wrap32 r1 mod 3 =? 0) && (count <? STRESS_SLOTS)) eqn:Halloc.
  - apply andb_true_iff in Halloc as [_ Hlt%Z.ltb_lt].
    destruct (smart_pool_malloc _ _ _ _ _ _) as [[[p pools'] mem'] ev].
    rewrite length_insert. repeat split; try lia.
    intros i Hi Hi'. rewrite list_lookup_insert_ne by lia.
    apply Hnull; lia.
  - destruct ((wrap32 r1 mod 3 =? 1) && (0 <? count)) eqn:Hfree;
      [|repeat split; try done; lia].
    apply andb_true_iff in Hfree as [_ Hpos%Z.ltb_lt].
    destruct (negb (default 0 (ptrs !! Z.to_nat (wrap32 r2 mod count)) =? 0));
      [|repeat split; try done; lia].
    destruct (smart_pool_free _ _ _ _) as [[[r pools'] mem'] ev].
    rewrite length_insert. repeat split; try lia.
    intros i Hi Hi'.
    pose proof (Z.mod_pos_bound (wrap32 r2) count Hpos).
    rewrite list_lookup_insert_ne by lia. by apply Hnull.
Qed.

(** X10: Over every run of turns of the stress task, whatever the random numbers
    and the allocators answer, [count] stays between 0 and 50 and is at most
    the number of turns, the array keeps its fifty entries, and the entries
    from index [count] on are still [NULL]. *)
Theorem pool_stress_count_bounded inputs pools mem :
  let '(ptrs, count, _, _, _) := stress_run inputs pools mem in
  0 ≤ count ≤ STRESS_SLOTS ∧ count ≤ Z.of_nat (length inputs) ∧
  length ptrs = Z.to_nat STRESS_SLOTS ∧
  (∀ i, (Z.to_nat count ≤ i)%nat → (i < Z.to_nat STRESS_SLOTS)%nat →
        ptrs !! i = Some 0).
Proof.
  unfold stress_run.
  assert (Hgen : ∀ inputs st,
    (let '(ptrs, count, _, _, _) := st in
     0 ≤ count ≤ STRESS_SLOTS ∧ length ptrs = Z.to_nat STRESS_SLOTS ∧
     (∀ i, (Z.to_nat count ≤ i)%nat → (i < Z.to_nat STRESS_SLOTS)%nat →
           ptrs !! i = Some 0)) →
    let '(ptrs', count', _, _, _) := fold_left stress_step inputs st in
    0 ≤ count' ≤ STRESS_SLOTS ∧
    count' ≤ st.1.1.1.2 + Z.of_nat (length inputs) ∧
    length ptrs' = Z.to_nat STRESS_SLOTS ∧
    (∀ i, (Z.to_nat count' ≤ i)%nat → (i < Z.to_nat STRESS_SLOTS)%nat →
          ptrs' !! i = Some 0)).
  { clear. induction inputs as [|i inputs IH];
      intros [[[[ptrs count] pools] mem] trace] (Hc & Hl & Hn).
    - simpl. repeat split; try done; lia.
    - cbn [fold_left].
      pose proof (pool_stress_turn_count (si_r1 i) (si_r2 i) (si_take i)
                    (si_now i) (si_raw i) ptrs count pools mem Hc Hl Hn)
        as Hturn.
      assert (Hstep1 : stress_step (ptrs, count, pools, mem, trace) i =
                let '(ptrs', count', pools', mem', ev) :=
                  pool_stress_turn (si_r1 i) (si_r2 i) (si_take i) (si_now i)
                    (si_raw i) ptrs count pools mem in
                (ptrs', count', pools', mem', trace ++ ev)) by reflexivity.
      destruct (pool_stress_turn _ _ _ _ _ _ _ _ _)
        as [[[[ptrs1 count1] pools1] mem1] ev1].
      rewrite Hstep1.
      destruct Hturn as (Hc1 & Hstep & Hl1 & Hn1).
      specialize (IH (ptrs1, count1, pools1, mem1, trace ++ ev1)
                    (conj Hc1 (conj Hl1 Hn1))).
      destruct (fold_left stress_step inputs _)
        as [[[[ptrs' count'] pools'] mem'] trace'].
      simpl in *. destruct IH as (? & ? & ? & ?).
      repeat split; try done; lia. }
  set (ptrs0 := replicate (Z.to_nat STRESS_SLOTS) 0).
  specialize (Hgen inputs (ptrs0, 0, pools, mem, [])).
  destruct (fold_left stress_step inputs _)
    as [[[[ptrs' count'] pools'] mem'] trace'].
  cbn beta iota delta [fst snd] in Hgen. rewrite Z.add_0_l in Hgen.
  apply Hgen.
  split; [unfold STRESS_SLOTS; lia|]. split; [apply length_replicate|].
  intros i _ Hi. by apply lookup_replicate.
Qed.

(** X11: Once its fifty slots have been used the stress task never allocates
    again: a turn with [count = 50] calls neither a pool's allocation nor
    the raw heap's, whatever the random numbers are, and leaves [count] at
    50. *)
Theorem pool_stress_turn_when_full r1 r2 take now raw ptrs pools mem :
  let '(_, count', pools', _, ev) :=
    pool_stress_turn r1 r2 take now raw ptrs STRESS_SLOTS pools mem in
  count' = STRESS_SLOTS ∧ raw_mallocs ev = [] ∧
  total_allocations <$> pools' = total_allocations <$> pools.
Proof.
  unfold pool_stress_turn. rewrite Z.ltb_irrefl, andb_false_r.
  destruct ((wrap32 r1 mod 3 =? 1) && (0 <? STRESS_SLOTS)); [|done].
  destruct (negb _); [|done].
  destruct (smart_pool_free_total_allocations take pools mem
              (default 0 (ptrs !! Z.to_nat (wrap32 r2 mod STRESS_SLOTS))))
    as [Hp Hev].
  destruct (smart_pool_free _ _ _ _) as [[[r pools'] mem'] ev].
  simpl in *. split; [done|]. split; [|done].
  unfold raw_mallocs in *. by rewrite omap_app, Hev.
Qed.

(** ** Blocks of the later pools *)

(** X12: Given a pointer whose header the first pool does not accept, and this
    is so for every block handed out by a later pool, [smart_pool_free]
    answers [true] and leaves every pool and the whole memory as they were:
    the block is not put back on any free list and not given to the raw
    heap. *)
Theorem smart_pool_free_leaves_foreign_block take q rest mem p :
  p ≠ 0 → mutex q ≠ 0 →
  valid_header (pool_id q)
    (load mem (wrap32 (p - sizeof_memory_block_t))) = false →
  smart_pool_free take (q :: rest) mem p =
    (true, q :: rest, mem,
     if take 0%nat then [gpio_set_level LED_POOL_ERROR 1] else []).
Proof.
  intros Hp Hm Hv. unfold smart_pool_free. simpl smart_pool_free_loop.
  destruct (take 0%nat).
  - by rewrite (pool_free_invalid q mem p Hp Hm Hv).
  - unfold pool_free. apply Z.eqb_neq in Hp, Hm. by rewrite Hp, Hm.
Qed.

(** A block of the 256-byte pool of the program, given to
    [smart_pool_free]. *)
Lemma smart_pool_free_leaves_foreign_block_witness :
  let r := smart_pool_malloc always_taken 77 0x3FFE0000 booted3.1 booted3.2
             200 in
  let p := r.1.1.1 in
  let q := default small_pool_init.1.1.2 (r.1.1.2 !! 0%nat) in
  let rest := drop 1 r.1.1.2 in
  p ≠ 0 ∧ mutex q ≠ 0 ∧
  valid_header (pool_id q)
    (load r.1.2 (wrap32 (p - sizeof_memory_block_t))) = false ∧
  smart_pool_free always_taken (q :: rest) r.1.2 p =
    (true, q :: rest, r.1.2,
     if always_taken 0%nat then [gpio_set_level LED_POOL_ERROR 1] else []).
Proof.
  intros r p q rest.
  assert (H1 : p ≠ 0) by (vm_compute; discriminate).
  assert (H2 : mutex q ≠ 0) by (vm_compute; discriminate).
  assert (H3 : valid_header (pool_id q)
                 (load r.1.2 (wrap32 (p - sizeof_memory_block_t))) = false)
    by by_evaluation.
  split; [exact H1|]. split; [exact H2|]. split; [exact H3|].
  exact (smart_pool_free_leaves_foreign_block always_taken q rest r.1.2 p
           H1 H2 H3).
Defined.

(** ** The initialisation loop of [app_main] *)

Lemma init_memory_pool_outcome base bitmap mtx config id mem :
  let r := init_memory_pool base bitmap mtx config id mem in
  r.1.1.1 = negb (base =? 0) && negb (bitmap =? 0) ∧
  pool_id r.1.1.2 = id ∧ block_size r.1.1.2 = cfg_block_size config ∧
  block_count r.1.1.2 = cfg_block_count config ∧
  (r.1.1.1 = true → mutex r.1.1.2 = mtx) ∧
  (r.1.1.1 = false → r.1.2 = mem).
Proof.
  unfold init_memory_pool.
  destruct (base =? 0); [by repeat split|].
  destruct (bitmap =? 0); [by repeat split|].
  destruct (init_free_list _ _ _ _ _ _ _) as [head mem']. by repeat split.
Qed.

(** X13: The loop of [app_main] sets up every pool exactly when none of the
    heap allocations it makes on the way returns [NULL], and stops at the
    first pool for which one does: the pools before it are set up, the
    failing one is the last entry touched, and the memory is what setting
    up the pools before it left. The pool at index [k] gets the identifier
    [k + 1], so that no two pools share one, and the block size and count of
    the [k]-th configuration; after a complete run there is one pool per
    configuration, each holding the mutex created for it. *)
Theorem init_pools_identifiers env configs : ∀ i mem,
  let r := init_pools env i configs mem in
  (r.1.1 = true ↔
   ∀ k, (k < length configs)%nat →
        (env (i + k)%nat).1.1 ≠ 0 ∧ (env (i + k)%nat).1.2 ≠ 0) ∧
  (r.1.1 = true → length r.1.2 = length configs) ∧
  (∀ k q, r.1.2 !! k = Some q →
     pool_id q = Z.of_nat (i + k) + 1 ∧
     (r.1.1 = true → mutex q = (env (i + k)%nat).2) ∧
     ∃ c, configs !! k = Some c ∧ block_size q = cfg_block_size c ∧
          block_count q = cfg_block_count c) ∧
  (r.1.1 = false →
   ∃ k, (k < length configs)%nat ∧
        ((env (i + k)%nat).1.1 = 0 ∨ (env (i + k)%nat).1.2 = 0) ∧
        (∀ j, (j < k)%nat →
              (env (i + j)%nat).1.1 ≠ 0 ∧ (env (i + j)%nat).1.2 ≠ 0) ∧
        length r.1.2 = S k ∧
        r.2 = (init_pools env i (take k configs) mem).2).
Proof.
  induction configs as [|config rest IH]; intros i mem.
  - simpl. split; [split; [intros _ k Hk; lia|done]|]. split; [done|].
    split; [|done]. intros k q Hk. by rewrite lookup_nil in Hk.
  - cbv zeta. simpl init_pools.
    destruct (env i) as [[base bitmap] mtx] eqn:Henv.
    pose proof (init_memory_pool_outcome base bitmap mtx config
                  (Z.of_nat i + 1) mem) as Hout.
    destruct (init_memory_pool base bitmap mtx config (Z.of_nat i + 1) mem)
      as [[[ok pool] mem'] ev] eqn:Hinit.
    cbv zeta in Hout. cbn [fst snd] in Hout.
    destruct Hout as (Hok & Hid & Hbs & Hbc & Hmtx & Hmem).
    destruct ok.
    + symmetry in Hok. apply andb_true_iff in Hok as [Hb Hbm].
      apply negb_true_iff, Z.eqb_neq in Hb, Hbm.
      specialize (IH (S i) mem'). cbv zeta in IH.
      destruct (init_pools env (S i) rest mem') as [[ok' pools] mem''].
      cbn [fst snd] in IH |- *. destruct IH as (Hiff & Hlen & Hall & Hstop).
      split; [|split; [|split]].
      * rewrite Hiff. split.
        -- intros Hrest [|k] Hk.
           ++ rewrite Nat.add_0_r, Henv. done.
           ++ replace (i + S k)%nat with (S i + k)%nat by lia.
              apply Hrest. simpl in Hk. lia.
        -- intros Hfull k Hk.
           replace (S i + k)%nat with (i + S k)%nat by lia.
           apply Hfull. simpl. lia.
      * intros Hok'. simpl. by rewrite Hlen.
      * intros [|k] q Hk; simpl in Hk.
        -- injection Hk as <-. rewrite Nat.add_0_r, Henv.
           split; [done|]. split; [by intros _; apply Hmtx|].
           by exists config.
        -- destruct (Hall k q Hk) as (Hq & Hmq & c & Hc & Hcs).
           replace (i + S k)%nat with (S i + k)%nat by lia.
           split; [done|]. split; [done|]. by exists c.
      * intros Hfalse.
        destruct (Hstop Hfalse) as (k & Hk & Hz & Hbefore & Hlen' & Hm).
        exists (S k). split; [simpl; lia|].
        replace (i + S k)%nat with (S i + k)%nat by lia.
        split; [done|]. split.
        { intros [|j] Hj.
          - rewrite Nat.add_0_r, Henv. done.
          - replace (i + S j)%nat with (S i + j)%nat by lia.
            apply Hbefore. lia. }
        split; [simpl; by rewrite Hlen'|].
        change (take (S k) (config :: rest)) with (config :: take k rest).
        simpl init_pools. rewrite Henv, Hinit.
        destruct (init_pools env (S i) (take k rest) mem')
          as [[ok2 pools2] mem2].
        done.
    + cbn [fst snd]. symmetry in Hok. apply andb_false_iff in Hok.
      split; [|split; [done|split]].
      * split; [done|]. intros Hfull.
        destruct (Hfull 0%nat) as [Hb Hbm]; [simpl; lia|].
        rewrite Nat.add_0_r, Henv in Hb, Hbm. simpl in Hb, Hbm.
        destruct Hok as [Hz|Hz]; apply negb_false_iff, Z.eqb_eq in Hz; done.
      * intros [|k] q Hk; simpl in Hk; [|by rewrite lookup_nil in Hk].
        injection Hk as <-. rewrite Nat.add_0_r.
        split; [done|]. split; [done|]. by exists config.
      * intros _. exists 0%nat. split; [simpl; lia|].
        rewrite Nat.add_0_r, Henv. split.
        { destruct Hok as [Hz|Hz]; apply negb_false_iff, Z.eqb_eq in Hz;
            [by left|by right]. }
        split; [intros j Hj; lia|]. split; [done|].
        simpl. by apply Hmem.
Qed.

End PoolMore.

(** * Further properties of the allocation tracker *)

Module TrackerMore.
Import HeapManagement TrackerTheory.

(** ** Words *)

Lemma wrap32_add_l a b : wrap32 (wrap32 a + b) = wrap32 (a + b).
Proof. unfold wrap32. by rewrite Zplus_mod_idemp_l. Qed.

Lemma wrap32_sub_l a b : wrap32 (wrap32 a - b) = wrap32 (a - b).
Proof. unfold wrap32. by rewrite Zminus_mod_idemp_l. Qed.

Lemma wrap32_sub_r a b : wrap32 (a - wrap32 b) = wrap32 (a - b).
Proof. unfold wrap32. by rewrite Zminus_mod_idemp_r. Qed.

Lemma wrap64_add_l a b : wrap64 (wrap64 a + b) = wrap64 (a + b).
Proof. unfold wrap64. by rewrite Zplus_mod_idemp_l. Qed.

Lemma wrap64_sub_l a b : wrap64 (wrap64 a - b) = wrap64 (a - b).
Proof. unfold wrap64. by rewrite Zminus_mod_idemp_l. Qed.

Lemma wrap64_sub_r a b : wrap64 (a - wrap64 b) = wrap64 (a - b).
Proof. unfold wrap64. by rewrite Zminus_mod_idemp_r. Qed.

(** ** The search loops, in full *)

Lemma find_free_from_spec l : ∀ i,
  0 ≤ i →
  (find_free_from i l = -1 ∧ Forall (λ e, is_active e = true) l) ∨
  ∃ k e, find_free_from i l = i + Z.of_nat k ∧ l !! k = Some e ∧
         is_active e = false ∧
         ∀ j e', (j < k)%nat → l !! j = Some e' → is_active e' = true.
Proof.
  induction l as [|e l IH]; intros i Hi; simpl.
  - left. by split.
  - destruct (is_active e) eqn:Ha; simpl.
    + destruct (IH (i + 1)) as [[Hr Hall]|(k & e' & Hr & Hk & Hin & Hbefore)];
        [lia| |].
      * left. split; [done|]. by constructor.
      * right. exists (S k), e'. split; [lia|]. split; [done|].
        split; [done|]. intros [|j] e'' Hj Hl; simpl in Hl.
        -- by injection Hl as <-.
        -- eapply Hbefore; [|done]. lia.
    + right. exists 0%nat, e. split; [lia|]. split; [done|]. split; [done|].
      intros j e' Hj. lia.
Qed.

Lemma find_by_ptr_from_spec p l : ∀ i,
  0 ≤ i →
  (find_by_ptr_from p i l = -1 ∧
   Forall (λ e, ¬ (is_active e = true ∧ ptr e = p)) l) ∨
  ∃ k e, find_by_ptr_from p i l = i + Z.of_nat k ∧ l !! k = Some e ∧
         is_active e = true ∧ ptr e = p ∧
         ∀ j e', (j < k)%nat → l !! j = Some e' →
                 ¬ (is_active e' = true ∧ ptr e' = p).
Proof.
  induction l as [|e l IH]; intros i Hi; simpl.
  - left. by split.
  - destruct (is_active e && (ptr e =? p)) eqn:Ht.
    + apply andb_true_iff in Ht as [Ha Hp%Z.eqb_eq].
      right. exists 0%nat, e. split; [lia|]. repeat split; try done.
      intros j e' Hj. lia.
    + assert (Hno : ¬ (is_active e = true ∧ ptr e = p)).
      { intros [Ha Hp]. rewrite Ha, Hp, Z.eqb_refl in Ht. done. }
      destruct (IH (i + 1))
        as [[Hr Hall]|(k & e' & Hr & Hk & Ha & Hp & Hbefore)]; [lia| |].
      * left. split; [done|]. by constructor.
      * right. exists (S k), e'. split; [lia|]. repeat split; try done.
        intros [|j] e'' Hj Hl; simpl in Hl.
        -- by injection Hl as <-.
        -- eapply Hbefore; [|done]. lia.
Qed.

(** X14: [find_free_allocation_slot] returns the lowest index below
    [MAX_ALLOCATIONS] whose entry is inactive, and [-1] exactly when every
    entry it looks at is active. *)
Theorem find_free_allocation_slot_lowest allocations :
  (find_free_allocation_slot allocations = -1 ∧
   ∀ j e, (j < MAX_ALLOCATIONS)%nat → allocations !! j = Some e →
          is_active e = true) ∨
  ∃ k e, find_free_allocation_slot allocations = Z.of_nat k ∧
         (k < MAX_ALLOCATIONS)%nat ∧ allocations !! k = Some e ∧
         is_active e = false ∧
         ∀ j e', (j < k)%nat → allocations !! j = Some e' →
                 is_active e' = true.
Proof.
  unfold find_free_allocation_slot.
  destruct (find_free_from_spec (take MAX_ALLOCATIONS allocations) 0)
    as [[Hr Hall]|(k & e & Hr & [Hk Hlt]%lookup_take_Some & Ha & Hbefore)];
    [lia| |].
  - left. split; [done|]. intros j e Hj He.
    rewrite Forall_forall in Hall. apply Hall.
    apply list_elem_of_lookup. exists j. by apply lookup_take_Some.
  - right. exists k, e. split; [lia|]. repeat split; try done.
    intros j e' Hj He'. apply (Hbefore j); [done|].
    apply lookup_take_Some. split; [done|]. lia.
Qed.

(** X15: [find_allocation_by_ptr] returns the lowest index below
    [MAX_ALLOCATIONS] whose entry is active and records the pointer, and
    [-1] exactly when there is none: an inactive entry never matches, even
    if it still holds the pointer. *)
Theorem find_allocation_by_ptr_lowest allocations p :
  (find_allocation_by_ptr allocations p = -1 ∧
   ∀ j e, (j < MAX_ALLOCATIONS)%nat → allocations !! j = Some e →
          ¬ (is_active e = true ∧ ptr e = p)) ∨
  ∃ k e, find_allocation_by_ptr allocations p = Z.of_nat k ∧
         (k < MAX_ALLOCATIONS)%nat ∧ allocations !! k = Some e ∧
         is_active e = true ∧ ptr e = p ∧
         ∀ j e', (j < k)%nat → allocations !! j = Some e' →
                 ¬ (is_active e' = true ∧ ptr e' = p).
Proof.
  unfold find_allocation_by_ptr.
  destruct (find_by_ptr_from_spec p (take MAX_ALLOCATIONS allocations) 0)
    as [[Hr Hall]|(k & e & Hr & [Hk Hlt]%lookup_take_Some & Ha & Hp & Hbefore)];
    [lia| |].
  - left. split; [done|]. intros j e Hj He.
    rewrite Forall_forall in Hall. apply Hall.
    apply list_elem_of_lookup. exists j. by apply lookup_take_Some.
  - right. exists k, e. split; [lia|]. repeat split; try done.
    intros j e' Hj He'. apply (Hbefore j); [done|].
    apply lookup_take_Some. split; [done|]. lia.
Qed.

Lemma find_free_allocation_slot_cases allocations :
  find_free_allocation_slot allocations = -1 ∨
  ∃ k e, find_free_allocation_slot allocations = Z.of_nat k ∧
         (k < MAX_ALLOCATIONS)%nat ∧ allocations !! k = Some e ∧
         is_active e = false.
Proof.
  unfold find_free_allocation_slot.
  destruct (find_free_from_spec (take MAX_ALLOCATIONS allocations) 0)
    as [[Hr Hall]|(k & e & Hr & [Hk Hlt]%lookup_take_Some & Ha & Hbefore)];
    [lia| |].
  - by left.
  - right. exists k, e. split; [lia|]. done.
Qed.

Lemma find_allocation_by_ptr_cases allocations p :
  find_allocation_by_ptr allocations p = -1 ∨
  ∃ k e, find_allocation_by_ptr allocations p = Z.of_nat k ∧
         (k < MAX_ALLOCATIONS)%nat ∧ allocations !! k = Some e ∧
         is_active e = true ∧ ptr e = p.
Proof.
  unfold find_allocation_by_ptr.
  destruct (find_by_ptr_from_spec p (take MAX_ALLOCATIONS allocations) 0)
    as [[Hr Hall]|(k & e & Hr & [Hk Hlt]%lookup_take_Some & Ha & Hp & _)];
    [lia| |].
  - by left.
  - right. exists k, e. split; [lia|]. done.
Qed.

(** ** What one call does to the table *)

Lemma tracked_malloc_cases raw took now g sz cp desc :
  let g' := (tracked_malloc raw took now g sz cp desc).1.2 in
  (allocations g' = allocations g ∧
   total_allocations (stats g') = total_allocations (stats g) ∧
   total_deallocations (stats g') = total_deallocations (stats g) ∧
   current_allocations (stats g') = current_allocations (stats g) ∧
   total_bytes_allocated (stats g') = total_bytes_allocated (stats g) ∧
   total_bytes_deallocated (stats g') = total_bytes_deallocated (stats g) ∧
   peak_usage (stats g') = peak_usage (stats g) ∧
   memory_mutex g' = memory_mutex g ∧
   memory_monitoring_enabled g' = memory_monitoring_enabled g) ∨
  ∃ k e,
    raw ≠ 0 ∧ find_free_allocation_slot (allocations g) = Z.of_nat k ∧
    (k < MAX_ALLOCATIONS)%nat ∧ allocations g !! k = Some e ∧
    is_active e = false ∧
    allocations g' =
      <[k := {| ptr := raw; size := sz; caps := cp; description := desc;
                timestamp := wrap64 now; is_active := true |}]>
        (allocations g) ∧
    total_allocations (stats g') = wrap32 (total_allocations (stats g) + 1) ∧
    total_deallocations (stats g') = total_deallocations (stats g) ∧
    current_allocations (stats g')
      = wrap32 (current_allocations (stats g) + 1) ∧
    total_bytes_allocated (stats g')
      = wrap64 (total_bytes_allocated (stats g) + sz) ∧
    total_bytes_deallocated (stats g') = total_bytes_deallocated (stats g) ∧
    peak_usage (stats g') =
      Z.max (peak_usage (stats g))
        (wrap32 (wrap64 (total_bytes_allocated (stats g') -
                         total_bytes_deallocated (stats g')))) ∧
    memory_mutex g' = memory_mutex g ∧
    memory_monitoring_enabled g' = memory_monitoring_enabled g.
Proof.
  unfold tracked_malloc.
  destruct (memory_monitoring_enabled g && negb (memory_mutex g =? 0));
    [|left; by repeat split].
  destruct took; [|left; by repeat split].
  destruct (raw =? 0) eqn:Hraw; simpl negb; cbv iota;
    [left; by repeat split|].
  apply Z.eqb_neq in Hraw.
  destruct (find_free_allocation_slot_cases (allocations g))
    as [Hfull|(k & e & Hk & Hlt & He & Ha)].
  - rewrite Hfull. left. by repeat split.
  - rewrite Hk. destruct (0 <=? Z.of_nat k) eqn:Hle;
      [|apply Z.leb_gt in Hle; lia].
    right. exists k, e. rewrite Nat2Z.id. simpl.
    repeat split; try done.
    destruct (_ <? _) eqn:Hlt'; [apply Z.ltb_lt in Hlt'|apply Z.ltb_ge in Hlt'];
      lia.
Qed.

Lemma tracked_free_effect took g p desc :
  let g' := (tracked_free took g p desc).1 in
  g' = g ∨
  ∃ k e,
    p ≠ 0 ∧ find_allocation_by_ptr (allocations g) p = Z.of_nat k ∧
    (k < MAX_ALLOCATIONS)%nat ∧ allocations g !! k = Some e ∧
    is_active e = true ∧ ptr e = p ∧
    allocations g' = <[k := deactivate e]> (allocations g) ∧
    total_allocations (stats g') = total_allocations (stats g) ∧
    total_deallocations (stats g')
      = wrap32 (total_deallocations (stats g) + 1) ∧
    current_allocations (stats g')
      = wrap32 (current_allocations (stats g) - 1) ∧
    total_bytes_allocated (stats g') = total_bytes_allocated (stats g) ∧
    total_bytes_deallocated (stats g')
      = wrap64 (total_bytes_deallocated (stats g) + size e) ∧
    peak_usage (stats g') = peak_usage (stats g) ∧
    memory_mutex g' = memory_mutex g ∧
    memory_monitoring_enabled g' = memory_monitoring_enabled g.
Proof.
  unfold tracked_free.
  destruct (p =? 0) eqn:Hp; [by left|]. apply Z.eqb_neq in Hp.
  destruct (memory_monitoring_enabled g && negb (memory_mutex g =? 0));
    [|by left].
  destruct took; [|by left].
  destruct (find_allocation_by_ptr_cases (allocations g) p)
    as [Hnone|(k & e & Hk & Hlt & He & Ha & Hpe)].
  - rewrite Hnone. by left.
  - rewrite Hk. destruct (0 <=? Z.of_nat k) eqn:Hle;
      [|apply Z.leb_gt in Hle; lia].
    right. exists k, e. rewrite Nat2Z.id, He. simpl. by repeat split.
Qed.

Lemma detect_memory_leaks_state took now g :
  (detect_memory_leaks took now g).1 = g.
Proof.
  unfold detect_memory_leaks.
  destruct (memory_mutex g =? 0), took; simpl; try done.
  by destruct (leak_scan_loop _ _ _ _ _) as [[? ?] ?].
Qed.

(** ** Counting the active entries *)

Lemma sum_active_insert f l : ∀ k e e',
  l !! k = Some e →
  sum_active f (<[k := e']> l) =
    sum_active f l - (if is_active e then f e else 0)
      + (if is_active e' then f e' else 0).
Proof.
  induction l as [|x l IH]; intros [|k] e e' Hk; simpl in *; try done.
  - injection Hk as ->. lia.
  - rewrite (IH k e e' Hk). lia.
Qed.

Lemma active_count_bounds l : 0 ≤ active_count l ≤ Z.of_nat (length l).
Proof.
  unfold active_count. induction l as [|x l IH]; simpl; [lia|].
  destruct (is_active x); lia.
Qed.

Lemma active_count_replicate_zero n :
  active_count (replicate n zero_allocation) = 0 ∧
  active_bytes (replicate n zero_allocation) = 0.
Proof.
  unfold active_count, active_bytes. induction n as [|n [IH1 IH2]]; [done|].
  simpl. by rewrite IH1, IH2.
Qed.

Lemma tracker_step_invariant g op :
  length (allocations g) = MAX_ALLOCATIONS →
  current_allocations (stats g) = active_count (allocations g) →
  current_allocations (stats g) =
    wrap32 (total_allocations (stats g) - total_deallocations (stats g)) →
  wrap64 (total_bytes_allocated (stats g) - total_bytes_deallocated (stats g))
    = wrap64 (active_bytes (allocations g)) →
  let g' := tracker_step g op in
  length (allocations g') = MAX_ALLOCATIONS ∧
  current_allocations (stats g') = active_count (allocations g') ∧
  current_allocations (stats g') =
    wrap32 (total_allocations (stats g') - total_deallocations (stats g')) ∧
  wrap64 (total_bytes_allocated (stats g') - total_bytes_deallocated (stats g'))
    = wrap64 (active_bytes (allocations g')) ∧
  memory_mutex g' = memory_mutex g ∧
  memory_monitoring_enabled g' = memory_monitoring_enabled g ∧
  peak_usage (stats g) ≤ peak_usage (stats g').
Proof.
  intros Hlen Hcur Htot Hbytes.
  pose proof (active_count_bounds (allocations g)) as Hb.
  rewrite Hlen in Hb. unfold MAX_ALLOCATIONS in Hb.
  destruct op as [raw took now sz cp desc|took p desc|took now|free frag];
    simpl tracker_step; cbv zeta.
  - destruct (tracked_malloc_cases raw took now g sz cp desc)
      as [(Ha & Hta & Htd & Hc & Htba & Htbd & Hpk & Hm & Hen)|
          (k & e & _ & _ & Hlt & He & Hina & Ha & Hta & Htd & Hc & Htba &
           Htbd & Hpk & Hm & Hen)].
    + rewrite Ha, Hta, Htd, Hc, Htba, Htbd, Hpk. repeat split; try done.
    + rewrite Hta, Htd, Hc, Htbd, Htba. rewrite Ha at 1 2 3.
      rewrite length_insert.
      unfold active_count, active_bytes.
      rewrite !(sum_active_insert _ _ k e) by done. rewrite Hina. simpl.
      fold (active_count (allocations g)) (active_bytes (allocations g)).
      pose proof (active_count_bounds
                    (<[k := {| ptr := raw; size := sz; caps := cp;
                               description := desc; timestamp := wrap64 now;
                               is_active := true |}]> (allocations g)))
        as Hb'.
      rewrite length_insert, Hlen in Hb'. unfold MAX_ALLOCATIONS in Hb'.
      unfold active_count in Hb'.
      rewrite (sum_active_insert _ _ k e) in Hb' by done.
      rewrite Hina in Hb'. simpl in Hb'.
      fold (active_count (allocations g)) in Hb'.
      split; [done|]. split.
      { rewrite Hcur, wrap32_small by lia. lia. }
      split.
      { rewrite wrap32_sub_l.
        replace (total_allocations (stats g) + 1 -
                 total_deallocations (stats g))
          with (total_allocations (stats g) - total_deallocations (stats g)
                + 1) by lia.
        by rewrite <- (wrap32_add_l (total_allocations (stats g) -
                                     total_deallocations (stats g))),
             <- Htot. }
      split.
      { rewrite wrap64_sub_l.
        replace (total_bytes_allocated (stats g) + sz -
                 total_bytes_deallocated (stats g))
          with (total_bytes_allocated (stats g) -
                total_bytes_deallocated (stats g) + sz) by lia.
        rewrite <- (wrap64_add_l (total_bytes_allocated (stats g) -
                                  total_bytes_deallocated (stats g))),
          Hbytes, wrap64_add_l.
        f_equal. lia. }
      split; [done|]. split; [done|]. rewrite Hpk. lia.
  - destruct (tracked_free_effect took g p desc)
      as [->|(k & e & _ & _ & Hlt & He & Hact & _ & Ha & Hta & Htd & Hc &
              Htba & Htbd & Hpk & Hm & Hen)].
    + repeat split; try done.
    + rewrite Hta, Htd, Hc, Htbd, Htba, Ha, Hpk.
      rewrite length_insert.
      unfold active_count, active_bytes.
      rewrite !(sum_active_insert _ _ k e) by done. rewrite Hact. simpl.
      fold (active_count (allocations g)) (active_bytes (allocations g)).
      assert (1 ≤ active_count (allocations g)).
      { pose proof (active_count_bounds
                      (<[k := deactivate e]> (allocations g))) as Hb'.
        unfold active_count in Hb'.
        rewrite (sum_active_insert _ _ k e) in Hb' by done.
        rewrite Hact in Hb'. simpl in Hb'.
        fold (active_count (allocations g)) in Hb'. lia. }
      split; [done|]. split.
      { rewrite Hcur, wrap32_small by lia. lia. }
      split.
      { rewrite wrap32_sub_r.
        replace (total_allocations (stats g) -
                 (total_deallocations (stats g) + 1))
          with (total_allocations (stats g) - total_deallocations (stats g)
                - 1) by lia.
        by rewrite <- (wrap32_sub_l (total_allocations (stats g) -
                                     total_deallocations (stats g))),
             <- Htot. }
      split.
      { rewrite wrap64_sub_r.
        replace (total_bytes_allocated (stats g) -
                 (total_bytes_deallocated (stats g) + size e))
          with (total_bytes_allocated (stats g) -
                total_bytes_deallocated (stats g) - size e) by lia.
        rewrite <- (wrap64_sub_l (total_bytes_allocated (stats g) -
                                  total_bytes_deallocated (stats g))),
          Hbytes, wrap64_sub_l.
        f_equal. lia. }
      split; [done|]. split; [done|]. lia.
  - rewrite detect_memory_leaks_state. repeat split; try done.
  - simpl. repeat split; try done.
Qed.

Lemma tracker_run_invariant ops : ∀ g,
  length (allocations g) = MAX_ALLOCATIONS →
  current_allocations (stats g) = active_count (allocations g) →
  current_allocations (stats g) =
    wrap32 (total_allocations (stats g) - total_deallocations (stats g)) →
  wrap64 (total_bytes_allocated (stats g) - total_bytes_deallocated (stats g))
    = wrap64 (active_bytes (allocations g)) →
  let g' := tracker_run ops g in
  length (allocations g') = MAX_ALLOCATIONS ∧
  current_allocations (stats g') = active_count (allocations g') ∧
  current_allocations (stats g') =
    wrap32 (total_allocations (stats g') - total_deallocations (stats g')) ∧
  wrap64 (total_bytes_allocated (stats g') - total_bytes_deallocated (stats g'))
    = wrap64 (active_bytes (allocations g')) ∧
  memory_mutex g' = memory_mutex g ∧
  memory_monitoring_enabled g' = memory_monitoring_enabled g ∧
  peak_usage (stats g) ≤ peak_usage (stats g').
Proof.
  induction ops as [|op ops IH]; intros g Hlen Hcur Htot Hbytes.
  - simpl. repeat split; try done.
  - change (tracker_run (op :: ops) g)
      with (tracker_run ops (tracker_step g op)).
    destruct (tracker_step_invariant g op Hlen Hcur Htot Hbytes)
      as (Hlen1 & Hcur1 & Htot1 & Hbytes1 & Hm1 & Hen1 & Hpk1).
    destruct (IH _ Hlen1 Hcur1 Htot1 Hbytes1)
      as (? & ? & ? & ? & Hm & Hen & Hpk).
    repeat split; try done; try congruence. lia.
Qed.

(** X16: After every sequence of [tracked_malloc], [tracked_free],
    [detect_memory_leaks] and [analyze_memory_status] calls from the state
    [app_main] sets up, whatever the raw heap returns and whether the mutex
    is obtained, the table still has [MAX_ALLOCATIONS] entries,
    [current_allocations] is the number of active entries (at most 100) and
    the 32-bit difference of the two totals, and the 64-bit difference of
    the two byte totals is the sum of the sizes the active entries record. *)
Theorem tracker_counters_invariant mtx ops :
  let g := tracker_run ops (app_main_globals mtx) in
  length (allocations g) = MAX_ALLOCATIONS ∧
  current_allocations (stats g) = active_count (allocations g) ∧
  0 ≤ current_allocations (stats g) ≤ Z.of_nat MAX_ALLOCATIONS ∧
  current_allocations (stats g) =
    wrap32 (total_allocations (stats g) - total_deallocations (stats g)) ∧
  wrap64 (total_bytes_allocated (stats g) - total_bytes_deallocated (stats g))
    = wrap64 (active_bytes (allocations g)).
Proof.
  intros g.
  destruct (active_count_replicate_zero MAX_ALLOCATIONS) as [Hc0 Hb0].
  assert (H1 : length (allocations (app_main_globals mtx)) = MAX_ALLOCATIONS)
    by apply length_replicate.
  assert (H2 : current_allocations (stats (app_main_globals mtx)) =
               active_count (allocations (app_main_globals mtx)))
    by exact (eq_sym Hc0).
  assert (H3 : current_allocations (stats (app_main_globals mtx)) =
               wrap32 (total_allocations (stats (app_main_globals mtx)) -
                       total_deallocations (stats (app_main_globals mtx))))
    by done.
  assert (H4 : wrap64 (total_bytes_allocated (stats (app_main_globals mtx)) -
                       total_bytes_deallocated (stats (app_main_globals mtx)))
               = wrap64 (active_bytes (allocations (app_main_globals mtx))))
    by (change (allocations (app_main_globals mtx))
          with (replicate MAX_ALLOCATIONS zero_allocation); by rewrite Hb0).
  destruct (tracker_run_invariant ops (app_main_globals mtx) H1 H2 H3 H4)
    as (Hlen & Hcur & Htot & Hbytes & _).
  fold g in Hlen, Hcur, Htot, Hbytes.
  pose proof (active_count_bounds (allocations g)) as Hb.
  rewrite Hlen in Hb.
  split; [done|]. split; [done|]. split; [lia|]. by split.
Qed.

(** ** The high-water mark *)

Lemma tracker_step_peak g op :
  peak_usage (stats g) ≤ peak_usage (stats (tracker_step g op)).
Proof.
  destruct op as [raw took now sz cp desc|took p desc|took now|free frag];
    simpl tracker_step.
  - destruct (tracked_malloc_cases raw took now g sz cp desc)
      as [(_ & _ & _ & _ & _ & _ & Hpk & _)|
          (k & e & _ & _ & _ & _ & _ & _ & _ & _ & _ & _ & _ & Hpk & _)];
      rewrite Hpk; lia.
  - destruct (tracked_free_effect took g p desc)
      as [->|(k & e & _ & _ & _ & _ & _ & _ & _ & _ & _ & _ & _ & _ & Hpk & _)];
      [lia|]. rewrite Hpk. lia.
  - rewrite detect_memory_leaks_state. lia.
  - simpl. lia.
Qed.

Lemma tracker_run_peak ops : ∀ g,
  peak_usage (stats g) ≤ peak_usage (stats (tracker_run ops g)).
Proof.
  induction ops as [|op ops IH]; intros g; [simpl; lia|].
  change (tracker_run (op :: ops) g)
    with (tracker_run ops (tracker_step g op)).
  pose proof (tracker_step_peak g op). pose proof (IH (tracker_step g op)).
  lia.
Qed.

(** X17: The tracker's [peak_usage] never decreases: from any state, running
    more calls can only keep or raise it. *)
Theorem tracker_peak_usage_monotone g ops more :
  peak_usage (stats (tracker_run ops g))
    ≤ peak_usage (stats (tracker_run (ops ++ more) g)).
Proof.
  unfold tracker_run. rewrite fold_left_app. apply tracker_run_peak.
Qed.

Lemma sum_active_nonneg f l :
  Forall (λ e, 0 ≤ f e) l → 0 ≤ sum_active f l.
Proof.
  induction 1 as [|e l He _ IH]; simpl; [lia|]. destruct (is_active e); lia.
Qed.

Lemma tracker_run_peak_covers ops : ∀ g,
  length (allocations g) = MAX_ALLOCATIONS →
  current_allocations (stats g) = active_count (allocations g) →
  current_allocations (stats g) =
    wrap32 (total_allocations (stats g) - total_deallocations (stats g)) →
  wrap64 (total_bytes_allocated (stats g) - total_bytes_deallocated (stats g))
    = wrap64 (active_bytes (allocations g)) →
  Forall (λ e, 0 ≤ size e) (allocations g) →
  sizes_in_range ops →
  active_bytes (allocations g) + requested_bytes ops < 2 ^ 32 →
  active_bytes (allocations g) ≤ peak_usage (stats g) →
  active_bytes (allocations (tracker_run ops g))
    ≤ peak_usage (stats (tracker_run ops g)).
Proof.
  induction ops as [|op ops IH];
    intros g Hlen Hcur Htot Hbytes Hpos Hops Hbudget Hpeak; [done|].
  change (tracker_run (op :: ops) g)
    with (tracker_run ops (tracker_step g op)).
  apply Forall_cons in Hops as [Hop Hops].
  assert (Hreq : 0 ≤ requested_bytes ops).
  { clear -Hops. induction Hops as [|[] ? ? ? ?]; simpl; lia. }
  pose proof (sum_active_nonneg size _ Hpos) as Hnn.
  fold (active_bytes (allocations g)) in Hnn.
  destruct (tracker_step_invariant g op Hlen Hcur Htot Hbytes)
    as (Hlen1 & Hcur1 & Htot1 & Hbytes1 & _ & _ & _).
  assert (Hpos1 : Forall (λ e, 0 ≤ size e)
                     (allocations (tracker_step g op))).
  { destruct op as [raw took now sz cp desc|took p desc|took now|free frag];
      simpl tracker_step.
    - destruct (tracked_malloc_cases raw took now g sz cp desc)
        as [(Ha & _)|(k & e & _ & _ & _ & He & _ & Ha & _)]; rewrite Ha;
        [done|].
      apply Forall_insert; [done|]. simpl. lia.
    - destruct (tracked_free_effect took g p desc)
        as [->|(k & e & _ & _ & _ & He & _ & _ & Ha & _)]; [done|].
      rewrite Ha. apply Forall_insert; [done|]. simpl.
      by apply (Forall_lookup_1 _ _ _ _ Hpos He).
    - by rewrite detect_memory_leaks_state.
    - done. }
  assert (Hbud1 : active_bytes (allocations (tracker_step g op)) +
                  requested_bytes ops < 2 ^ 32).
  { destruct op as [raw took now sz cp desc|took p desc|took now|free frag];
      simpl tracker_step; simpl requested_bytes in Hbudget.
    - destruct (tracked_malloc_cases raw took now g sz cp desc)
        as [(Ha & _)|(k & e & _ & _ & _ & He & Hina & Ha & _)]; rewrite Ha;
        [lia|].
      unfold active_bytes. rewrite (sum_active_insert _ _ k e) by done.
      rewrite Hina. simpl. fold (active_bytes (allocations g)). lia.
    - destruct (tracked_free_effect took g p desc)
        as [->|(k & e & _ & _ & _ & He & Hact & _ & Ha & _)]; [lia|].
      rewrite Ha. unfold active_bytes.
      rewrite (sum_active_insert _ _ k e) by done.
      rewrite Hact. simpl. fold (active_bytes (allocations g)).
      pose proof (Forall_lookup_1 _ _ _ _ Hpos He) as Hse. simpl in Hse.
      lia.
    - rewrite detect_memory_leaks_state. lia.
    - simpl allocations. lia. }
  assert (Hpk1 : active_bytes (allocations (tracker_step g op))
                 ≤ peak_usage (stats (tracker_step g op))).
  { destruct op as [raw took now sz cp desc|took p desc|took now|free frag];
      simpl tracker_step in *; simpl requested_bytes in Hbudget.
    - destruct (tracked_malloc_cases raw took now g sz cp desc)
        as [(Ha & _ & _ & _ & _ & _ & Hpk & _)|
            (k & e & _ & _ & _ & He & Hina & Ha & _ & _ & _ & _ & _ & Hpk &
             _)].
      + by rewrite Ha, Hpk.
      + rewrite Hpk, Hbytes1. rewrite Ha.
        unfold active_bytes. rewrite (sum_active_insert _ _ k e) by done.
        rewrite Hina. simpl. fold (active_bytes (allocations g)).
        rewrite wrap64_small, wrap32_small by lia. lia.
    - destruct (tracked_free_effect took g p desc)
        as [->|(k & e & _ & _ & _ & He & Hact & _ & Ha & _ & _ & _ & _ & _ &
                Hpk & _)]; [done|].
      rewrite Ha, Hpk. unfold active_bytes.
      rewrite (sum_active_insert _ _ k e) by done.
      rewrite Hact. simpl. fold (active_bytes (allocations g)).
      pose proof (Forall_lookup_1 _ _ _ _ Hpos He) as Hse. simpl in Hse.
      lia.
    - by rewrite detect_memory_leaks_state.
    - done. }
  exact (IH _ Hlen1 Hcur1 Htot1 Hbytes1 Hpos1 Hops Hbud1 Hpk1).
Qed.

(** X18: As long as the sizes a sequence of calls asks for are [size_t]s that
    add up to less than 2^32 bytes, [peak_usage] after the sequence is at
    least the bytes the active entries record: the high-water mark is never
    below the current tracked usage. *)
Theorem tracker_peak_usage_covers_active_bytes mtx ops :
  sizes_in_range ops →
  requested_bytes ops < 2 ^ 32 →
  let g := tracker_run ops (app_main_globals mtx) in
  0 ≤ active_bytes (allocations g) ≤ peak_usage (stats g).
Proof.
  intros Hops Hbudget g.
  destruct (active_count_replicate_zero MAX_ALLOCATIONS) as [Hc0 Hb0].
  assert (H1 : length (allocations (app_main_globals mtx)) = MAX_ALLOCATIONS)
    by apply length_replicate.
  assert (H2 : current_allocations (stats (app_main_globals mtx)) =
               active_count (allocations (app_main_globals mtx)))
    by exact (eq_sym Hc0).
  assert (H3 : current_allocations (stats (app_main_globals mtx)) =
               wrap32 (total_allocations (stats (app_main_globals mtx)) -
                       total_deallocations (stats (app_main_globals mtx))))
    by done.
  assert (H0 : active_bytes (allocations (app_main_globals mtx)) = 0)
    by exact Hb0.
  assert (H4 : wrap64 (total_bytes_allocated (stats (app_main_globals mtx)) -
                       total_bytes_deallocated (stats (app_main_globals mtx)))
               = wrap64 (active_bytes (allocations (app_main_globals mtx))))
    by (by rewrite H0).
  assert (H5 : Forall (λ e, 0 ≤ size e) (allocations (app_main_globals mtx))).
  { apply Forall_forall. intros e He.
    change (allocations (app_main_globals mtx))
      with (replicate MAX_ALLOCATIONS zero_allocation) in He.
    apply elem_of_replicate in He as [-> _]. done. }
  split.
  - pose proof (tracker_run_peak ops (app_main_globals mtx)) as Hmono.
    assert (Hsizes : ∀ ops g0, Forall (λ e, 0 ≤ size e) (allocations g0) →
              sizes_in_range ops →
              Forall (λ e, 0 ≤ size e) (allocations (tracker_run ops g0))).
    { clear. induction ops as [|op ops IH]; intros g0 Hpos Hops; [done|].
      change (tracker_run (op :: ops) g0)
        with (tracker_run ops (tracker_step g0 op)).
      apply Forall_cons in Hops as [Hop Hops]. apply IH; [|done].
      destruct op as [raw took now sz cp desc|took p desc|took now|free frag];
        simpl tracker_step.
      - destruct (tracked_malloc_cases raw took now g0 sz cp desc)
          as [(Ha & _)|(k & e & _ & _ & _ & He & _ & Ha & _)]; rewrite Ha;
          [done|].
        apply Forall_insert; [done|]. simpl. lia.
      - destruct (tracked_free_effect took g0 p desc)
          as [->|(k & e & _ & _ & _ & He & _ & _ & Ha & _)]; [done|].
        rewrite Ha. apply Forall_insert; [done|]. simpl.
        by apply (Forall_lookup_1 _ _ _ _ Hpos He).
      - by rewrite detect_memory_leaks_state.
    - done. }
    apply (sum_active_nonneg size). by apply Hsizes.
  - apply tracker_run_peak_covers; try done; rewrite H0;
      first [lia | simpl; lia].
Qed.

(** Two blocks recorded, the first released, then a leak scan. *)
Lemma tracker_peak_usage_covers_active_bytes_witness :
  let ops := [op_tracked_malloc 0x3FFB1000 true 10 64 MALLOC_CAP_INTERNAL "a";
              op_tracked_malloc 0x3FFB2000 true 20 128 MALLOC_CAP_DEFAULT "b";
              op_analyze_memory_status 30000 true;
              op_tracked_free true 0x3FFB1000 "a";
              op_detect_memory_leaks true 40000000] in
  sizes_in_range ops ∧ requested_bytes ops < 2 ^ 32 ∧
  let g := tracker_run ops (app_main_globals 0x3FF90000) in
  0 ≤ active_bytes (allocations g) ≤ peak_usage (stats g).
Proof.
  intros ops.
  assert (H1 : sizes_in_range ops)
    by (repeat constructor; first [discriminate | reflexivity]).
  assert (H2 : requested_bytes ops < 2 ^ 32) by reflexivity.
  split; [exact H1|]. split; [exact H2|].
  exact (tracker_peak_usage_covers_active_bytes 0x3FF90000 ops H1 H2).
Defined.

(** ** Allocate, then release *)

Lemma find_allocation_by_ptr_fresh_insert l k e raw sz cp desc ts :
  find_allocation_by_ptr l raw = -1 →
  (k < MAX_ALLOCATIONS)%nat → l !! k = Some e →
  find_allocation_by_ptr
    (<[k := {| ptr := raw; size := sz; caps := cp; description := desc;
               timestamp := ts; is_active := true |}]> l) raw = Z.of_nat k.
Proof.
  intros Hfresh Hlt He.
  set (new := {| ptr := raw; size := sz; caps := cp; description := desc;
                 timestamp := ts; is_active := true |}).
  assert (Hk : <[k := new]> l !! k = Some new).
  { apply list_lookup_insert_eq. by eapply lookup_lt_Some. }
  assert (Hnone : ∀ j e', (j < MAX_ALLOCATIONS)%nat → l !! j = Some e' →
                          ¬ (is_active e' = true ∧ ptr e' = raw)).
  { intros j e' Hj He' [Ha Hp].
    destruct (find_allocation_by_ptr_cases l raw)
      as [_|(k' & ? & Hk' & _)]; [|lia].
    unfold find_allocation_by_ptr in Hfresh.
    pose proof (find_by_ptr_from_spec raw (take MAX_ALLOCATIONS l) 0) as Hs.
    destruct Hs as [[_ Hall]|(k' & e'' & Hr & _)]; [lia| |lia].
    rewrite Forall_forall in Hall. apply (Hall e'); [|done].
    apply list_elem_of_lookup. exists j. by apply lookup_take_Some. }
  unfold find_allocation_by_ptr.
  destruct (find_by_ptr_from_spec raw (take MAX_ALLOCATIONS (<[k := new]> l)) 0)
    as [[_ Hall]|(k' & e' & Hr & [Hk' Hlt']%lookup_take_Some & Ha & Hp &
                  Hbefore)]; [lia| |].
  - exfalso. rewrite Forall_forall in Hall. apply (Hall new); [|done].
    apply list_elem_of_lookup. exists k. by apply lookup_take_Some.
  - rewrite Hr. destruct (decide (k' = k)) as [->|Hne]; [lia|]. exfalso.
    destruct (decide (k' < k)%nat) as [Hlow|Hhigh].
    + rewrite list_lookup_insert_ne in Hk' by done.
      by apply (Hnone k' e').
    + apply (Hbefore k new); [lia| |done].
      apply lookup_take_Some. done.
Qed.

(** X19: A [tracked_malloc] that records a fresh block, followed by
    [tracked_free] of the pointer it returned, gives the block back to the
    raw heap and restores the table: the same slots are active, every entry
    that was active is as it was, [current_allocations] and the byte balance
    are as before, and both totals have advanced by one. *)
Theorem tracked_malloc_free_round_trip raw now g sz cp desc desc' :
  memory_monitoring_enabled g = true → memory_mutex g ≠ 0 → raw ≠ 0 →
  find_free_allocation_slot (allocations g) ≠ -1 →
  find_allocation_by_ptr (allocations g) raw = -1 →
  let r := tracked_malloc raw true now g sz cp desc in
  let r' := tracked_free true r.1.2 r.1.1 desc' in
  r.1.1 = raw ∧
  is_active <$> allocations r'.1 = is_active <$> allocations g ∧
  (∀ k e, allocations g !! k = Some e → is_active e = true →
          allocations r'.1 !! k = Some e) ∧
  current_allocations (stats r'.1) = wrap32 (current_allocations (stats g)) ∧
  total_allocations (stats r'.1) = wrap32 (total_allocations (stats g) + 1) ∧
  total_deallocations (stats r'.1)
    = wrap32 (total_deallocations (stats g) + 1) ∧
  wrap64 (total_bytes_allocated (stats r'.1) -
          total_bytes_deallocated (stats r'.1))
    = wrap64 (total_bytes_allocated (stats g) -
              total_bytes_deallocated (stats g)) ∧
  raw_mallocs (r.2 ++ r'.2) = [(sz, cp, raw)] ∧
  raw_frees (r.2 ++ r'.2) = [raw].
Proof.
  intros Hen Hm Hraw Hslot Hfresh r r'.
  destruct (find_free_allocation_slot_cases (allocations g))
    as [?|(k & e & Hk & Hlt & He & Hina)]; [done|].
  set (new := {| ptr := raw; size := sz; caps := cp; description := desc;
                 timestamp := wrap64 now; is_active := true |}).
  assert (Hm' : (memory_mutex g =? 0) = false) by by apply Z.eqb_neq.
  assert (Hraw' : (raw =? 0) = false) by by apply Z.eqb_neq.
  assert (Hle : (0 <=? Z.of_nat k) = true) by (apply Z.leb_le; lia).
  assert (Hr : r = (raw,
            {| allocations := <[k := new]> (allocations g);
               stats :=
                 {| total_allocations :=
                      wrap32 (total_allocations (stats g) + 1);
                    total_deallocations := total_deallocations (stats g);
                    current_allocations :=
                      wrap32 (current_allocations (stats g) + 1);
                    total_bytes_allocated :=
                      wrap64 (total_bytes_allocated (stats g) + sz);
                    total_bytes_deallocated :=
                      total_bytes_deallocated (stats g);
                    peak_usage :=
                      if peak_usage (stats g) <?
                         wrap32 (wrap64
                           (wrap64 (total_bytes_allocated (stats g) + sz) -
                            total_bytes_deallocated (stats g)))
                      then wrap32 (wrap64
                           (wrap64 (total_bytes_allocated (stats g) + sz) -
                            total_bytes_deallocated (stats g)))
                      else peak_usage (stats g);
                    allocation_failures := allocation_failures (stats g);
                    fragmentation_events := fragmentation_events (stats g);
                    low_memory_events := low_memory_events (stats g) |};
               memory_mutex := memory_mutex g;
               memory_monitoring_enabled := memory_monitoring_enabled g |},
            [heap_caps_malloc sz cp raw;
             esp_log LOGI "Alloc %dB @%p (%s) slot=%d"
               [to_int sz; raw; Z.of_nat k]])).
  { unfold r, tracked_malloc. rewrite Hen, Hm', Hraw', Hk, Hle.
    simpl. by rewrite Nat2Z.id. }
  pose proof (find_allocation_by_ptr_fresh_insert (allocations g) k e raw sz
                cp desc (wrap64 now) Hfresh Hlt He) as Hfind.
  fold new in Hfind.
  assert (Hknew : <[k := new]> (allocations g) !! k = Some new).
  { apply list_lookup_insert_eq. by eapply lookup_lt_Some. }
  assert (Hr' : r' = (
            {| allocations :=
                 <[k := deactivate new]> (<[k := new]> (allocations g));
               stats :=
                 {| total_allocations :=
                      wrap32 (total_allocations (stats g) + 1);
                    total_deallocations :=
                      wrap32 (total_deallocations (stats g) + 1);
                    current_allocations :=
                      wrap32 (wrap32 (current_allocations (stats g) + 1) - 1);
                    total_bytes_allocated :=
                      wrap64 (total_bytes_allocated (stats g) + sz);
                    total_bytes_deallocated :=
                      wrap64 (total_bytes_deallocated (stats g) + sz);
                    peak_usage := peak_usage (stats r.1.2);
                    allocation_failures := allocation_failures (stats g);
                    fragmentation_events := fragmentation_events (stats g);
                    low_memory_events := low_memory_events (stats g) |};
               memory_mutex := memory_mutex g;
               memory_monitoring_enabled := memory_monitoring_enabled g |},
            [esp_log LOGI "Free %dB @%p (%s) slot=%d"
               [to_int sz; raw; Z.of_nat k];
             heap_caps_free raw])).
  { unfold r'. rewrite Hr. unfold tracked_free. cbn [fst snd].
    rewrite Hraw'. cbn [allocations memory_mutex memory_monitoring_enabled].
    rewrite Hen, Hm', Hfind, Hle. cbn [andb negb].
    rewrite Nat2Z.id, Hknew. reflexivity. }
  rewrite Hr'. rewrite Hr. cbn [fst snd allocations stats total_allocations
    total_deallocations current_allocations total_bytes_allocated
    total_bytes_deallocated].
  split; [done|]. split.
  { rewrite list_insert_insert_eq, list_fmap_insert. simpl.
    apply list_insert_id. by rewrite list_lookup_fmap, He, <- Hina. }
  split.
  { intros j e' Hj Ha. rewrite list_insert_insert_eq.
    rewrite list_lookup_insert_ne; [done|]. intros ->. congruence. }
  split.
  { rewrite wrap32_sub_l. f_equal. lia. }
  split; [done|]. split; [done|]. split.
  { rewrite wrap64_sub_l, wrap64_sub_r. f_equal. lia. }
  by split.
Qed.

(** The first block recorded after [app_main], released at once. *)
Lemma tracked_malloc_free_round_trip_witness :
  let g := boot_globals in
  memory_monitoring_enabled g = true ∧ memory_mutex g ≠ 0 ∧
  0x3FFB1000 ≠ 0 ∧
  find_free_allocation_slot (allocations g) ≠ -1 ∧
  find_allocation_by_ptr (allocations g) 0x3FFB1000 = -1 ∧
  let r := tracked_malloc 0x3FFB1000 true 10 g 64 MALLOC_CAP_INTERNAL "a" in
  let r' := tracked_free true r.1.2 r.1.1 "b" in
  r.1.1 = 0x3FFB1000 ∧
  is_active <$> allocations r'.1 = is_active <$> allocations g ∧
  (∀ k e, allocations g !! k = Some e → is_active e = true →
          allocations r'.1 !! k = Some e) ∧
  current_allocations (stats r'.1) = wrap32 (current_allocations (stats g)) ∧
  total_allocations (stats r'.1) = wrap32 (total_allocations (stats g) + 1) ∧
  total_deallocations (stats r'.1)
    = wrap32 (total_deallocations (stats g) + 1) ∧
  wrap64 (total_bytes_allocated (stats r'.1) -
          total_bytes_deallocated (stats r'.1))
    = wrap64 (total_bytes_allocated (stats g) -
              total_bytes_deallocated (stats g)) ∧
  raw_mallocs (r.2 ++ r'.2) = [(64, MALLOC_CAP_INTERNAL, 0x3FFB1000)] ∧
  raw_frees (r.2 ++ r'.2) = [0x3FFB1000].
Proof.
  intros g.
  assert (H1 : memory_monitoring_enabled g = true) by reflexivity.
  assert (H2 : memory_mutex g ≠ 0) by discriminate.
  assert (H3 : 0x3FFB1000 ≠ 0) by discriminate.
  assert (H4 : find_free_allocation_slot (allocations g) ≠ -1)
    by (vm_compute; discriminate).
  assert (H5 : find_allocation_by_ptr (allocations g) 0x3FFB1000 = -1)
    by (vm_compute; reflexivity).
  split; [exact H1|]. split; [exact H2|]. split; [exact H3|].
  split; [exact H4|]. split; [exact H5|].
  exact (tracked_malloc_free_round_trip 0x3FFB1000 10 g 64 MALLOC_CAP_INTERNAL
           "a" "b" H1 H2 H3 H4 H5).
Defined.

(** ** Distinct pointers *)

(** X20: The table keeps its active pointers distinct through every call,
    provided the raw heap never hands [tracked_malloc] a pointer that an
    active entry still records; [tracked_free] and the leak scan keep them
    distinct unconditionally. *)
Theorem tracker_step_keeps_ptrs_distinct g op :
  active_ptrs_distinct (allocations g) →
  match op with
  | op_tracked_malloc raw _ _ _ _ _ =>
      ∀ e, e ∈ allocations g → is_active e = true → ptr e ≠ raw
  | _ => True
  end →
  active_ptrs_distinct (allocations (tracker_step g op)).
Proof.
  intros Hd Hfresh.
  destruct op as [raw took now sz cp desc|took p desc|took now|free frag];
    simpl tracker_step.
  - destruct (tracked_malloc_cases raw took now g sz cp desc)
      as [(Ha & _)|(k & e & _ & _ & _ & He & _ & Ha & _)]; rewrite Ha;
      [done|].
    assert (Hklt : (k < length (allocations g))%nat)
      by by eapply lookup_lt_Some.
    intros i j e1 e2 Hi Hj Ha1 Ha2 Hp.
    destruct (decide (i = k)) as [->|Hik], (decide (j = k)) as [->|Hjk];
      [done| | |].
    + rewrite list_lookup_insert_eq in Hi by done. injection Hi as <-.
      rewrite list_lookup_insert_ne in Hj by done. simpl in Hp.
      exfalso. apply (Hfresh e2); [|done|done].
      by eapply list_elem_of_lookup_2.
    + rewrite list_lookup_insert_eq in Hj by done. injection Hj as <-.
      rewrite list_lookup_insert_ne in Hi by done. simpl in Hp.
      exfalso. apply (Hfresh e1); [|done|done].
      by eapply list_elem_of_lookup_2.
    + rewrite list_lookup_insert_ne in Hi by done.
      rewrite list_lookup_insert_ne in Hj by done.
      by apply (Hd i j e1 e2).
  - destruct (tracked_free_effect took g p desc)
      as [->|(k & e & _ & _ & _ & He & _ & _ & Ha & _)]; [done|].
    rewrite Ha.
    assert (Hklt : (k < length (allocations g))%nat)
      by by eapply lookup_lt_Some.
    intros i j e1 e2 Hi Hj Ha1 Ha2 Hp.
    destruct (decide (i = k)) as [->|Hik].
    { rewrite list_lookup_insert_eq in Hi by done. by injection Hi as <-. }
    destruct (decide (j = k)) as [->|Hjk].
    { rewrite list_lookup_insert_eq in Hj by done. by injection Hj as <-. }
    rewrite list_lookup_insert_ne in Hi by done.
    rewrite list_lookup_insert_ne in Hj by done.
    by apply (Hd i j e1 e2).
  - by rewrite detect_memory_leaks_state.
  - done.
Qed.

(** A table with one recorded block, and a second block from the heap. *)
Lemma tracker_step_keeps_ptrs_distinct_witness :
  let first := {| ptr := 0x3FFB1000; size := 64; caps := MALLOC_CAP_INTERNAL;
                  description := "a"; timestamp := 10; is_active := true |} in
  let g := {| allocations := first :: replicate 99 zero_allocation;
              stats := zero_stats; memory_mutex := 0x3FF90000;
              memory_monitoring_enabled := true |} in
  let op := op_tracked_malloc 0x3FFB2000 true 20 128 MALLOC_CAP_DEFAULT "b" in
  active_ptrs_distinct (allocations g) ∧
  (∀ e, e ∈ allocations g → is_active e = true → ptr e ≠ 0x3FFB2000) ∧
  active_ptrs_distinct (allocations (tracker_step g op)).
Proof.
  intros first g op.
  assert (H1 : active_ptrs_distinct (allocations g))
    by exact (one_tracked_distinct first 99).
  assert (H2 : ∀ e, e ∈ allocations g → is_active e = true →
                    ptr e ≠ 0x3FFB2000).
  { intros e He Ha.
    change (e ∈ first :: replicate 99 zero_allocation) in He.
    apply elem_of_cons in He as [->|He]; [discriminate|].
    apply elem_of_replicate in He as [-> _]. discriminate. }
  split; [exact H1|]. split; [exact H2|].
  exact (tracker_step_keeps_ptrs_distinct g op H1 H2).
Defined.

(** ** The summary of the leak scan *)

Lemma leak_scan_loop_totals now l : ∀ i leaks bytes,
  bytes = wrap32 bytes →
  let r := leak_scan_loop now i l leaks bytes in
  let found := filter (λ e, aged now e = true) l in
  r.1.2 = leaks + Z.of_nat (length found) ∧
  r.2 = wrap32 (bytes + sum_sizes found) ∧
  length (leak_reports r.1.1) = length found ∧
  length r.1.1 = length found ∧
  raw_frees r.1.1 = [] ∧ raw_mallocs r.1.1 = [] ∧
  Forall (λ ev, ∀ pin level, ev ≠ gpio_set_level pin level) r.1.1.
Proof.
  induction l as [|e l IH]; intros i leaks bytes Hb.
  - simpl. rewrite !Z.add_0_r. repeat split; done.
  - cbv zeta. simpl leak_scan_loop. destruct (aged now e) eqn:Hag.
    + rewrite filter_cons_True by done. unfold aged in Hag.
      apply andb_true_iff in Hag as [Hact Hold]. rewrite Hact, Hold.
      assert (Hb' : wrap32 (bytes + size e)
                    = wrap32 (wrap32 (bytes + size e))).
      { unfold wrap32. by rewrite Zmod_mod. }
      specialize (IH (i + 1) (leaks + 1) (wrap32 (bytes + size e)) Hb').
      destruct (leak_scan_loop now (i + 1) l (leaks + 1)
                  (wrap32 (bytes + size e))) as [[ev n] b].
      cbv zeta in IH. cbn [fst snd] in IH |- *.
      destruct IH as (Hn & Hbb & Hlen & Hlen' & Hf & Hma & Hg).
      split; [rewrite Hn; simpl length; lia|].
      split; [rewrite Hbb, wrap32_add_l; f_equal; simpl; lia|].
      split; [simpl; by rewrite Hlen|].
      split; [simpl; by rewrite Hlen'|].
      split; [done|]. split; [done|]. by constructor.
    + rewrite filter_cons_False by (by rewrite Hag). unfold aged in Hag.
      destruct (is_active e); simpl in Hag; [rewrite Hag|]; by apply IH.
Qed.

(** X21: When [detect_memory_leaks] runs its scan, the summary agrees with the
    individual reports: there is one report per active entry older than
    30000 ms; the error LED is driven exactly when there is at least one,
    together with a line giving their number and the 32-bit sum of their
    sizes; otherwise the scan says there are none. The scan changes no
    state and never touches the raw heap. *)
Theorem detect_memory_leaks_summary now g :
  memory_mutex g ≠ 0 →
  let r := detect_memory_leaks true now g in
  let found := aged_entries now g in
  r.1 = g ∧
  length (leak_reports r.2) = length found ∧
  raw_frees r.2 = [] ∧ raw_mallocs r.2 = [] ∧
  (found ≠ [] →
   ∃ ev, r.2 = ev ++
     [esp_log LOGW "Found %d potential leaks (%d bytes)"
        [Z.of_nat (length found); to_int (wrap32 (sum_sizes found))];
      gpio_set_level LED_MEMORY_ERROR 1]) ∧
  (found = [] →
   r.2 = [esp_log LOGI "LEAK SCAN (age>30s)" [];
          esp_log LOGI "No potential leaks" []]) ∧
  (gpio_set_level LED_MEMORY_ERROR 1 ∈ r.2 ↔ found ≠ []).
Proof.
  intros Hm%Z.eqb_neq r found. unfold r, detect_memory_leaks.
  rewrite Hm. simpl negb. cbv iota.
  pose proof (leak_scan_loop_totals (wrap64 now)
                (take MAX_ALLOCATIONS (allocations g)) 0 0 0 eq_refl) as Hloop.
  fold (aged_entries now g) in Hloop. fold found in Hloop.
  destruct (leak_scan_loop (wrap64 now) 0
              (take MAX_ALLOCATIONS (allocations g)) 0 0) as [[ev n] b].
  cbv zeta in Hloop. cbn [fst snd] in Hloop |- *.
  destruct Hloop as (Hn & Hb & Hlen & Hlen' & Hf & Hma & Hg).
  rewrite Z.add_0_l in Hn, Hb.
  assert (Hrep : ∀ tl, leak_reports tl = [] →
            leak_reports (esp_log LOGI "LEAK SCAN (age>30s)" [] :: ev ++ tl)
            = leak_reports ev).
  { intros tl Htl. unfold leak_reports in *. simpl.
    by rewrite omap_app, Htl, app_nil_r. }
  assert (Hnogpio : gpio_set_level LED_MEMORY_ERROR 1 ∉ ev).
  { intros Hin. rewrite Forall_forall in Hg. by eapply Hg. }
  split; [done|].
  destruct (0 <? n) eqn:Hpos;
    [apply Z.ltb_lt in Hpos|apply Z.ltb_ge in Hpos].
  - assert (Hne : found ≠ []) by (intros Hnil; rewrite Hnil in Hn; simpl in Hn; lia).
    split; [by rewrite Hrep|]. split.
    { unfold raw_frees in *. simpl. by rewrite omap_app, Hf. }
    split.
    { unfold raw_mallocs in *. simpl. by rewrite omap_app, Hma. }
    split.
    { intros _. exists (esp_log LOGI "LEAK SCAN (age>30s)" [] :: ev).
      by rewrite Hn, Hb. }
    split; [done|]. split; [done|]. intros _.
    apply elem_of_cons. right. apply elem_of_app. right.
    apply elem_of_cons. right. apply elem_of_cons. by left.
  - assert (Hnil : found = []).
    { destruct found; [done|]. simpl in Hn. lia. }
    rewrite Hnil in Hlen'. apply nil_length_inv in Hlen'. subst ev.
    rewrite Hnil. split; [done|]. split; [done|]. split; [done|].
    split; [done|]. split; [done|]. split; [|done].
    intros Hin. exfalso.
    apply elem_of_cons in Hin as [?|Hin]; [done|].
    apply elem_of_cons in Hin as [?|Hin]; [done|].
    by apply elem_of_nil in Hin.
Qed.

(** A table of a hundred blocks recorded at 1 ms, scanned at 40 s. *)
Lemma detect_memory_leaks_summary_witness :
  memory_mutex full_globals ≠ 0 ∧
  let r := detect_memory_leaks true 40000000 full_globals in
  let found := aged_entries 40000000 full_globals in
  r.1 = full_globals ∧
  length (leak_reports r.2) = length found ∧
  raw_frees r.2 = [] ∧ raw_mallocs r.2 = [] ∧
  (found ≠ [] →
   ∃ ev, r.2 = ev ++
     [esp_log LOGW "Found %d potential leaks (%d bytes)"
        [Z.of_nat (length found); to_int (wrap32 (sum_sizes found))];
      gpio_set_level LED_MEMORY_ERROR 1]) ∧
  (found = [] →
   r.2 = [esp_log LOGI "LEAK SCAN (age>30s)" [];
          esp_log LOGI "No potential leaks" []]) ∧
  (gpio_set_level LED_MEMORY_ERROR 1 ∈ r.2 ↔ found ≠ []).
Proof.
  assert (H1 : memory_mutex full_globals ≠ 0) by discriminate.
  split; [exact H1|].
  exact (detect_memory_leaks_summary 40000000 full_globals H1).
Defined.

End TrackerMore.
